(** * Math Trainer (src/App.js): a shallow embedding and its properties

    The component [MathTrainer] keeps its data in React state cells and in
    one [localStorage] entry.  The embedding follows the source:

    - a JavaScript string is the list of its UTF-16 code units;
    - a number is the integer it holds ([Z]).  The operands, sums, scores,
      counts and clock readings of a run are taken to stay below 2^53 in
      magnitude, where a double holds every integer and [+], [-] and
      [parseInt] are exact;
    - [Math.random] is a stream of rationals in [0,1), read through a small
      state monad that counts the draws; the product and the floor of
      [randInt] are taken on the rationals;
    - a handler is a closure over the values of the render that created
      it: it takes the cells of that render and the live world, and
      returns the world after its updates.  A plain [setX(v)] stores a
      value computed from the closure, a functional [setX(f)] applies [f]
      to the live cell;
    - the pending [setTimeout] callbacks and the interval of the timer
      effect are kept in the world, each with the render it closed over;
    - [localStorage] is available and holds the text under the key
      ["math-trainer-history"] or nothing.

    The handlers and the timer effect come first.  The sections headed
    "More of the code" add what the page does around them: the ids of the
    problems, the panel of the main area, the CSV export, the settings
    inputs, the buttons and the keyboard listener.  The styling, the focus
    calls and the display of dates are not part of the embedding. *)

From Stdlib Require Import String Ascii.
From Stdlib Require Import List ZArith NArith QArith Qround Bool Lia Permutation.
From Stdlib Require Decimal DecimalPos.
Import ListNotations.

#[local] Set Warnings "-register-all".
Local Open Scope Z_scope.

(** ** JavaScript strings *)

Module JsString.

Definition jsstring := list N.

(** A literal, written as a Rocq string of ASCII characters. *)
Definition js (s : string) : jsstring :=
  map N_of_ascii (list_ascii_of_string s).

(** WhiteSpace and LineTerminator of ECMA-262, the code units that
    [String.prototype.trim] and [parseInt] skip. *)
Definition is_white_space (c : N) : bool :=
  ((9 <=? c) && (c <=? 13) ||
   (c =? 32) || (c =? 160) || (c =? 5760) ||
   (8192 <=? c) && (c <=? 8202) ||
   (c =? 8232) || (c =? 8233) || (c =? 8239) || (c =? 8287) ||
   (c =? 12288) || (c =? 65279))%N.

Fixpoint trim_start (s : jsstring) : jsstring :=
  match s with
  | c :: s' => if is_white_space c then trim_start s' else s
  | [] => []
  end.

Definition trim_end (s : jsstring) : jsstring := rev (trim_start (rev s)).

(** [s.trim()] *)
Definition trim (s : jsstring) : jsstring := trim_end (trim_start s).

Definition is_digit (c : N) : bool := ((48 <=? c) && (c <=? 57))%N.

(** The longest run of decimal digits at the front of [s], read with the
    accumulator [acc]; [seen] tells whether a digit was read. *)
Fixpoint read_digits (s : jsstring) (acc : N) (seen : bool) : option N :=
  match s with
  | c :: s' =>
      if is_digit c then read_digits s' (10 * acc + (c - 48))%N true
      else if seen then Some acc else None
  | [] => if seen then Some acc else None
  end.

(** [parseInt(s, 10)]: leading white space is skipped, one sign is
    accepted, then the longest digit run is read and whatever follows it is
    ignored.  [None] is NaN. *)
Definition parseInt (s : jsstring) : option Z :=
  match trim_start s with
  | [] => None
  | c :: r =>
      if (c =? 45)%N
      then option_map (fun n => - Z.of_N n) (read_digits r 0%N false)
      else if (c =? 43)%N
      then option_map Z.of_N (read_digits r 0%N false)
      else option_map Z.of_N (read_digits (c :: r) 0%N false)
  end.

(** Whether [s] starts, after white space and one optional sign, with a
    decimal digit. *)
Definition has_integer_prefix (s : jsstring) : bool :=
  match trim_start s with
  | [] => false
  | c :: r =>
      if ((c =? 45) || (c =? 43))%N
      then match r with d :: _ => is_digit d | [] => false end
      else is_digit c
  end.

(** Decimal digits of a number, most significant first. *)
Fixpoint uint_units (u : Decimal.uint) : jsstring :=
  match u with
  | Decimal.Nil => []
  | Decimal.D0 u => 48%N :: uint_units u
  | Decimal.D1 u => 49%N :: uint_units u
  | Decimal.D2 u => 50%N :: uint_units u
  | Decimal.D3 u => 51%N :: uint_units u
  | Decimal.D4 u => 52%N :: uint_units u
  | Decimal.D5 u => 53%N :: uint_units u
  | Decimal.D6 u => 54%N :: uint_units u
  | Decimal.D7 u => 55%N :: uint_units u
  | Decimal.D8 u => 56%N :: uint_units u
  | Decimal.D9 u => 57%N :: uint_units u
  end.

(** [String(z)] for an integer [z]. *)
Definition decimal (z : Z) : jsstring :=
  match z with
  | Z0 => [48%N]
  | Zpos p => uint_units (Pos.to_uint p)
  | Zneg p => 45%N :: uint_units (Pos.to_uint p)
  end.

(** A text that is an integer numeral and nothing else once trimmed: an
    optional sign followed by at least one digit. *)
Definition is_integer_text (s : jsstring) : bool :=
  match trim s with
  | [] => false
  | c :: r =>
      if ((c =? 45) || (c =? 43))%N
      then match r with [] => false | _ :: _ => forallb is_digit r end
      else forallb is_digit (c :: r)
  end.

End JsString.
Export JsString.

(** ** The data of the component *)

(** One generated problem: [{ a, b, op: "+", id }]. *)
Record Problem := mkProblem {
  a : Z;
  b : Z;
  op : jsstring;
  id : jsstring
}.

(** [feedback]: [{ ok, correct }]; [correct] is [null] when the interval
    expires with no current problem. *)
Record Feedback := mkFeedback {
  ok : bool;
  correct : option Z
}.

(** One entry of the history, the [record] object of [stop]. *)
Record HistRecord := mkHistRecord {
  date : jsstring;
  problemsCount : Z;
  solved : Z;
  total : Z;
  durationSec : Z;
  reason : jsstring
}.

(** The [useState] cells of [MathTrainer], settings first. *)
Record Cells := mkCells {
  minOperand : Z;
  maxOperand : Z;
  numProblems : Z;
  timePerProblem : Z;
  autoNext : bool;
  shuffle : bool;
  running : bool;
  problems : list Problem;
  index : nat;
  answer : jsstring;
  feedback : option Feedback;
  score : Z;
  startTime : option Z;
  elapsed : Z;
  history : list HistRecord
}.

(** [setX(v)] on one cell. *)
Definition setRunning (v : bool) (c : Cells) : Cells :=
  mkCells (minOperand c) (maxOperand c) (numProblems c) (timePerProblem c)
    (autoNext c) (shuffle c) v (problems c) (index c) (answer c)
    (feedback c) (score c) (startTime c) (elapsed c) (history c).

Definition setProblems (v : list Problem) (c : Cells) : Cells :=
  mkCells (minOperand c) (maxOperand c) (numProblems c) (timePerProblem c)
    (autoNext c) (shuffle c) (running c) v (index c) (answer c)
    (feedback c) (score c) (startTime c) (elapsed c) (history c).

Definition setIndex (v : nat) (c : Cells) : Cells :=
  mkCells (minOperand c) (maxOperand c) (numProblems c) (timePerProblem c)
    (autoNext c) (shuffle c) (running c) (problems c) v (answer c)
    (feedback c) (score c) (startTime c) (elapsed c) (history c).

Definition setAnswer (v : jsstring) (c : Cells) : Cells :=
  mkCells (minOperand c) (maxOperand c) (numProblems c) (timePerProblem c)
    (autoNext c) (shuffle c) (running c) (problems c) (index c) v
    (feedback c) (score c) (startTime c) (elapsed c) (history c).

Definition setFeedback (v : option Feedback) (c : Cells) : Cells :=
  mkCells (minOperand c) (maxOperand c) (numProblems c) (timePerProblem c)
    (autoNext c) (shuffle c) (running c) (problems c) (index c)
    (answer c) v (score c) (startTime c) (elapsed c) (history c).

Definition setScore (v : Z) (c : Cells) : Cells :=
  mkCells (minOperand c) (maxOperand c) (numProblems c) (timePerProblem c)
    (autoNext c) (shuffle c) (running c) (problems c) (index c)
    (answer c) (feedback c) v (startTime c) (elapsed c) (history c).

Definition setStartTime (v : option Z) (c : Cells) : Cells :=
  mkCells (minOperand c) (maxOperand c) (numProblems c) (timePerProblem c)
    (autoNext c) (shuffle c) (running c) (problems c) (index c)
    (answer c) (feedback c) (score c) v (elapsed c) (history c).

Definition setElapsed (v : Z) (c : Cells) : Cells :=
  mkCells (minOperand c) (maxOperand c) (numProblems c) (timePerProblem c)
    (autoNext c) (shuffle c) (running c) (problems c) (index c)
    (answer c) (feedback c) (score c) (startTime c) v (history c).

Definition setHistory (v : list HistRecord) (c : Cells) : Cells :=
  mkCells (minOperand c) (maxOperand c) (numProblems c) (timePerProblem c)
    (autoNext c) (shuffle c) (running c) (problems c) (index c)
    (answer c) (feedback c) (score c) (startTime c) (elapsed c) v.

(** ** The random source *)

(** A computation that reads [Math.random()]: it is given the stream of
    the values the source returns and the number of values read so far. *)
Definition Rand (A : Type) : Type := (nat -> Q) -> nat -> A * nat.

Definition ret {A} (x : A) : Rand A := fun _ n => (x, n).

Definition bind {A B} (m : Rand A) (k : A -> Rand B) : Rand B :=
  fun src n => let (x, n') := m src n in k x src n'.

Notation "x <- m ;; k" := (bind m (fun x => k))
  (at level 61, m at next level, right associativity).

(** [Math.random()] *)
Definition random : Rand Q := fun src n => (src n, S n).

(** [randInt(a, b) = Math.floor(Math.random() * (b - a + 1)) + a] *)
Definition randInt (lo hi : Z) : Rand Z :=
  r <- random ;;
  ret (Qfloor (r * inject_Z (hi - lo + 1)) + lo).

(** The [id] template [`${a}-${b}-${i}`]. *)
Definition problem_id (x y i : Z) : jsstring :=
  decimal x ++ [45%N] ++ decimal y ++ [45%N] ++ decimal i.

(** The [for] loop of [makeProblems]: [k] iterations are left, [i] is the
    loop counter and [arr] the array filled so far. *)
Fixpoint fill (k : nat) (i : Z) (minV maxV : Z) (arr : list Problem)
  : Rand (list Problem) :=
  match k with
  | O => ret arr
  | S k' =>
      x <- randInt minV maxV ;;
      y <- randInt minV maxV ;;
      fill k' (i + 1) minV maxV (arr ++ [mkProblem x y (js "+") (problem_id x y i)])
  end.

(** The comparator [() => Math.random() - 0.5]; it ignores its arguments. *)
Definition comparefn : Rand Q :=
  r <- random ;; ret (r - (1 # 2))%Q.

(** [Array.prototype.sort(comparefn)].  ECMA-262 leaves the algorithm to
    the engine; it is modelled as an insertion sort that asks [comparefn]
    once for each pair it compares and puts [x] before [y] when the answer
    is not positive. *)
Fixpoint sort_insert {A} (x : A) (l : list A) : Rand (list A) :=
  match l with
  | [] => ret [x]
  | y :: l' =>
      c <- comparefn ;;
      if Qle_bool c 0 then ret (x :: y :: l')
      else (r <- sort_insert x l' ;; ret (y :: r))
  end.

Fixpoint sort_from {A} (done todo : list A) : Rand (list A) :=
  match todo with
  | [] => ret done
  | x :: todo' => d <- sort_insert x done ;; sort_from d todo'
  end.

Definition sort {A} (arr : list A) : Rand (list A) := sort_from [] arr.

(** [makeProblems(n, minV, maxV, shuffled)]; the loop runs [n] times for
    an integer [n >= 0] and not at all for a negative one. *)
Definition makeProblems (n minV maxV : Z) (shuffled : bool)
  : Rand (list Problem) :=
  arr <- fill (Z.to_nat n) 0 minV maxV [] ;;
  if shuffled then sort arr else ret arr.

(** ** JSON: the text of the history and [JSON.parse] *)

Module Json.

(** *** [JSON.stringify] of the history *)

Definition hex_digit (n : N) : N :=
  (if n <? 10 then 48 + n else 87 + n)%N.

(** [\uXXXX] with lower-case digits. *)
Definition unicode_escape (c : N) : jsstring :=
  [92; 117; hex_digit (c / 4096 mod 16); hex_digit (c / 256 mod 16);
   hex_digit (c / 16 mod 16); hex_digit (c mod 16)]%N.

Definition is_high_surrogate (c : N) : bool := ((55296 <=? c) && (c <=? 56319))%N.
Definition is_low_surrogate (c : N) : bool := ((56320 <=? c) && (c <=? 57343))%N.

(** The characters of QuoteJSONString, between the quotes. *)
Fixpoint quote_units (s : jsstring) : jsstring :=
  match s with
  | [] => []
  | c :: s' =>
      if (c =? 8)%N then js "\b" ++ quote_units s'
      else if (c =? 9)%N then js "\t" ++ quote_units s'
      else if (c =? 10)%N then js "\n" ++ quote_units s'
      else if (c =? 12)%N then js "\f" ++ quote_units s'
      else if (c =? 13)%N then js "\r" ++ quote_units s'
      else if (c =? 34)%N then [92; 34]%N ++ quote_units s'
      else if (c =? 92)%N then [92; 92]%N ++ quote_units s'
      else if (c <? 32)%N then unicode_escape c ++ quote_units s'
      else if is_high_surrogate c then
        match s' with
        | d :: s'' =>
            if is_low_surrogate d then c :: d :: quote_units s''
            else unicode_escape c ++ quote_units s'
        | [] => unicode_escape c
        end
      else if is_low_surrogate c then unicode_escape c ++ quote_units s'
      else c :: quote_units s'
  end.

Definition quote (s : jsstring) : jsstring := [34%N] ++ quote_units s ++ [34%N].

Definition stringify_record (r : HistRecord) : jsstring :=
  js "{" ++ quote (js "date") ++ js ":" ++ quote (date r) ++
  js "," ++ quote (js "problemsCount") ++ js ":" ++ decimal (problemsCount r) ++
  js "," ++ quote (js "solved") ++ js ":" ++ decimal (solved r) ++
  js "," ++ quote (js "total") ++ js ":" ++ decimal (total r) ++
  js "," ++ quote (js "durationSec") ++ js ":" ++ decimal (durationSec r) ++
  js "," ++ quote (js "reason") ++ js ":" ++ quote (reason r) ++ js "}".

Fixpoint stringify_items (h : list HistRecord) : jsstring :=
  match h with
  | [] => []
  | [r] => stringify_record r
  | r :: h' => stringify_record r ++ js "," ++ stringify_items h'
  end.

(** [JSON.stringify(h)] for an array of history records. *)
Definition JSON_stringify (h : list HistRecord) : jsstring :=
  js "[" ++ stringify_items h ++ js "]".

(** *** JSON values and [JSON.parse] *)

(** A number keeps its decimal reading, [digits * 10 ^ exponent] with a
    sign; the members of an object are kept in the order of the text. *)
Inductive json : Type :=
| JNull
| JBool (v : bool)
| JNumber (negative : bool) (digits : N) (exponent : Z)
| JString (s : jsstring)
| JArray (items : list json)
| JObject (members : list (jsstring * json)).

(** The four white-space characters of the JSON grammar. *)
Definition is_json_space (c : N) : bool :=
  ((c =? 9) || (c =? 10) || (c =? 13) || (c =? 32))%N.

Fixpoint skip_ws (s : jsstring) : jsstring :=
  match s with
  | c :: s' => if is_json_space c then skip_ws s' else s
  | [] => []
  end.

Fixpoint strip_prefix (p s : jsstring) : option jsstring :=
  match p, s with
  | [], _ => Some s
  | c :: p', d :: s' => if (c =? d)%N then strip_prefix p' s' else None
  | _ :: _, [] => None
  end.

(** A run of digits continuing the number [acc]: its value, its length
    and the text after it. *)
Fixpoint take_digits (s : jsstring) (acc : N) (count : nat)
  : N * nat * jsstring :=
  match s with
  | c :: s' =>
      if is_digit c then take_digits s' (10 * acc + (c - 48))%N (S count)
      else (acc, count, s)
  | [] => (acc, count, [])
  end.

Definition parse_exponent (s : jsstring) : option (Z * jsstring) :=
  match s with
  | c :: r =>
      if ((c =? 101) || (c =? 69))%N then
        let '(neg, r1) :=
          match r with
          | d :: r' => if (d =? 45)%N then (true, r')
                       else if (d =? 43)%N then (false, r') else (false, r)
          | [] => (false, r)
          end in
        match take_digits r1 0%N O with
        | (_, O, _) => None
        | (e, S _, r2) => Some (if neg then - Z.of_N e else Z.of_N e, r2)
        end
      else Some (0, s)
  | [] => Some (0, s)
  end.

Definition parse_fraction (int : N) (s : jsstring) : option (N * Z * jsstring) :=
  match s with
  | c :: r =>
      if (c =? 46)%N then
        match take_digits r int O with
        | (_, O, _) => None
        | (m, S k, r1) => Some (m, - Z.of_nat (S k), r1)
        end
      else Some (int, 0, s)
  | [] => Some (int, 0, s)
  end.

(** A JSON number: an optional minus, then a lone zero or digits that
    start with a non-zero one, then an optional fraction and an optional
    exponent, each with at least one digit. *)
Definition parse_number (s : jsstring) : option (json * jsstring) :=
  let '(neg, s1) :=
    match s with
    | c :: r => if (c =? 45)%N then (true, r) else (false, s)
    | [] => (false, s)
    end in
  let int :=
    match s1 with
    | c :: r =>
        if (c =? 48)%N then Some (0%N, r)
        else if is_digit c then
          let '(n, _, r1) := take_digits s1 0%N O in Some (n, r1)
        else None
    | [] => None
    end in
  match int with
  | None => None
  | Some (n, r1) =>
      match parse_fraction n r1 with
      | None => None
      | Some (m, e1, r2) =>
          match parse_exponent r2 with
          | None => None
          | Some (e2, r3) => Some (JNumber neg m (e1 + e2), r3)
          end
      end
  end.

Definition hex_value (c : N) : option N :=
  (if is_digit c then Some (c - 48)
   else if (97 <=? c) && (c <=? 102) then Some (c - 87)
   else if (65 <=? c) && (c <=? 70) then Some (c - 55)
   else None)%N.

Definition hex4 (h1 h2 h3 h4 : N) : option N :=
  match hex_value h1, hex_value h2, hex_value h3, hex_value h4 with
  | Some x1, Some x2, Some x3, Some x4 =>
      Some (4096 * x1 + 256 * x2 + 16 * x3 + x4)%N
  | _, _, _, _ => None
  end.

(** The characters of a string after its opening quote, up to and with
    the closing one; [acc] holds the decoded units, last first. *)
Fixpoint parse_chars (s acc : jsstring) : option (jsstring * jsstring) :=
  match s with
  | [] => None
  | c :: r =>
      if (c =? 34)%N then Some (rev acc, r)
      else if (c =? 92)%N then
        match r with
        | [] => None
        | e :: r' =>
            if (e =? 34)%N then parse_chars r' (34%N :: acc)
            else if (e =? 92)%N then parse_chars r' (92%N :: acc)
            else if (e =? 47)%N then parse_chars r' (47%N :: acc)
            else if (e =? 98)%N then parse_chars r' (8%N :: acc)
            else if (e =? 102)%N then parse_chars r' (12%N :: acc)
            else if (e =? 110)%N then parse_chars r' (10%N :: acc)
            else if (e =? 114)%N then parse_chars r' (13%N :: acc)
            else if (e =? 116)%N then parse_chars r' (9%N :: acc)
            else if (e =? 117)%N then
              match r' with
              | h1 :: h2 :: h3 :: h4 :: r'' =>
                  match hex4 h1 h2 h3 h4 with
                  | Some u => parse_chars r'' (u :: acc)
                  | None => None
                  end
              | _ => None
              end
            else None
        end
      else if (c <? 32)%N then None
      else parse_chars r (c :: acc)
  end.

(** One JSON value at the front of [s] and the text after it; the
    elements of an array after its first bracket, up to and with the closing
    one; the members of an object likewise.  A call on a text of [n] code
    units needs a fuel of at most [2 * n + 2]. *)
Fixpoint parse_value (fuel : nat) (s : jsstring) : option (json * jsstring) :=
  match fuel with
  | O => None
  | S f =>
      let t := skip_ws s in
      match t with
      | [] => None
      | c :: r =>
          if (c =? 34)%N then
            match parse_chars r [] with
            | Some (str, r') => Some (JString str, r')
            | None => None
            end
          else if (c =? 91)%N then
            match skip_ws r with
            | d :: r' =>
                if (d =? 93)%N then Some (JArray [], r')
                else
                  match parse_elements f r with
                  | Some (vs, r1) => Some (JArray vs, r1)
                  | None => None
                  end
            | [] => None
            end
          else if (c =? 123)%N then
            match skip_ws r with
            | d :: r' =>
                if (d =? 125)%N then Some (JObject [], r')
                else
                  match parse_members f r with
                  | Some (ms, r1) => Some (JObject ms, r1)
                  | None => None
                  end
            | [] => None
            end
          else
            match strip_prefix (js "null") t with
            | Some r' => Some (JNull, r')
            | None =>
                match strip_prefix (js "true") t with
                | Some r' => Some (JBool true, r')
                | None =>
                    match strip_prefix (js "false") t with
                    | Some r' => Some (JBool false, r')
                    | None => parse_number t
                    end
                end
            end
      end
  end

with parse_elements (fuel : nat) (u : jsstring)
  : option (list json * jsstring) :=
  match fuel with
  | O => None
  | S f =>
      match parse_value f u with
      | None => None
      | Some (v, r1) =>
          match skip_ws r1 with
          | e :: r2 =>
              if (e =? 44)%N then
                match parse_elements f r2 with
                | Some (vs, r3) => Some (v :: vs, r3)
                | None => None
                end
              else if (e =? 93)%N then Some ([v], r2)
              else None
          | [] => None
          end
      end
  end

with parse_members (fuel : nat) (u : jsstring)
  : option (list (jsstring * json) * jsstring) :=
  match fuel with
  | O => None
  | S f =>
      match skip_ws u with
      | q :: u1 =>
          if (q =? 34)%N then
            match parse_chars u1 [] with
            | None => None
            | Some (key, u2) =>
                match skip_ws u2 with
                | col :: u3 =>
                    if (col =? 58)%N then
                      match parse_value f u3 with
                      | None => None
                      | Some (v, r1) =>
                          match skip_ws r1 with
                          | e :: r2 =>
                              if (e =? 44)%N then
                                match parse_members f r2 with
                                | Some (ms, r3) => Some ((key, v) :: ms, r3)
                                | None => None
                                end
                              else if (e =? 125)%N then Some ([(key, v)], r2)
                              else None
                          | [] => None
                          end
                      end
                    else None
                | [] => None
                end
            end
          else None
      | [] => None
      end
  end.

(** [JSON.parse(text)]; [None] is the SyntaxError it throws. *)
Definition JSON_parse (text : jsstring) : option json :=
  match parse_value (2 * length text + 2) text with
  | Some (v, r) => match skip_ws r with [] => Some v | _ :: _ => None end
  | None => None
  end.

End Json.
Export Json.

(** ** The world around the component *)

(** The interval of the timer effect: the render its callback closed over
    and the callback's own variable [timeLeft]. *)
Record Interval := mkInterval {
  closure : Cells;
  timeLeft : Z
}.

(** [cells]: the live state cells; [stored]: the [localStorage] entry
    ["math-trainer-history"]; [timeouts]: the pending [() => next()]
    callbacks of [setTimeout], oldest first, each with the render it closed
    over; [interval]: the running [setInterval], if any; [entropy] and
    [drawn]: what [Math.random] returns and how often it was called. *)
Record World := mkWorld {
  cells : Cells;
  stored : option jsstring;
  timeouts : list Cells;
  interval : option Interval;
  entropy : nat -> Q;
  drawn : nat
}.

(** A state update applied to the live cells. *)
Definition update (f : Cells -> Cells) (w : World) : World :=
  mkWorld (f (cells w)) (stored w) (timeouts w) (interval w) (entropy w) (drawn w).

Definition setItem (v : jsstring) (w : World) : World :=
  mkWorld (cells w) (Some v) (timeouts w) (interval w) (entropy w) (drawn w).

Definition setTimeout (r : Cells) (w : World) : World :=
  mkWorld (cells w) (stored w) (timeouts w ++ [r]) (interval w) (entropy w) (drawn w).

Definition setInterval (i : option Interval) (w : World) : World :=
  mkWorld (cells w) (stored w) (timeouts w) i (entropy w) (drawn w).

(** The clock readings of one [stop]: [new Date().toISOString()], the
    first [Date.now()] and the one read when [startTime] is falsy. *)
Record Clock := mkClock {
  iso : jsstring;
  now : Z;
  now_fallback : Z
}.

(** The initializer of the [history] cell.  It returns what [JSON.parse]
    returns; the empty array stands in when nothing is stored, when the
    stored text is empty, and when [JSON.parse] throws. *)
Definition loadHistory (item : option jsstring) : json :=
  match item with
  | None => JArray []
  | Some [] => JArray []
  | Some raw =>
      match JSON_parse raw with
      | Some v => v
      | None => JArray []
      end
  end.

(** ** The handlers *)

(** [start]: called with the cells [r] of the render that made it. *)
Definition start (r : Cells) (time : Z) (w : World) : World :=
  let (p, n) :=
    makeProblems (numProblems r) (minOperand r) (maxOperand r) (shuffle r)
      (entropy w) (drawn w) in
  let c := cells w in
  let c := setProblems p c in
  let c := setIndex O c in
  let c := setScore 0 c in
  let c := setFeedback None c in
  let c := setRunning true c in
  let c := setStartTime (Some time) c in
  let c := setElapsed 0 c in
  let c := setAnswer [] c in
  mkWorld c (stored w) (timeouts w) (interval w) (entropy w) n.

(** [problems.length || numProblems] *)
Definition length_or (p : list Problem) (n : Z) : Z :=
  if (length p =? 0)%nat then n else Z.of_nat (length p).

(** [startTime || Date.now()]: [null] and [0] are falsy. *)
Definition startTime_or (t : option Z) (fallback : Z) : Z :=
  match t with
  | Some v => if v =? 0 then fallback else v
  | None => fallback
  end.

(** [Math.round(ms / 1000)]: halves go up. *)
Definition round_seconds (ms : Z) : Z := (ms + 500) / 1000.

(** The [record] object built by [stop]. *)
Definition make_record (r : Cells) (why : option jsstring) (clk : Clock)
  : HistRecord :=
  mkHistRecord (iso clk)
    (length_or (problems r) (numProblems r))
    (score r)
    (length_or (problems r) (numProblems r))
    (round_seconds (now clk - startTime_or (startTime r) (now_fallback clk)))
    (match why with Some s => s | None => js "user" end).

(** [stop(reason = "user")]; [why = None] is a call without argument. *)
Definition stop (r : Cells) (why : option jsstring) (clk : Clock) (w : World)
  : World :=
  let w := update (setRunning false) w in
  let newHist := firstn 50 (make_record r why clk :: history r) in
  let w := update (setHistory newHist) w in
  setItem (JSON_stringify newHist) w.

(** [checkAnswer(userAnswer)] *)
Definition checkAnswer (r : Cells) (userAnswer : jsstring) (w : World) : World :=
  if negb (running r) then w
  else
    match nth_error (problems r) (index r) with
    | None => w
    | Some p =>
        let sum := a p + b p in
        let parsed := parseInt (trim userAnswer) in
        let good :=
          match parsed with
          | Some v => v =? sum
          | None => false
          end in
        let w := update (setFeedback (Some (mkFeedback good (Some sum)))) w in
        let w := if good then update (fun c => setScore (score c + 1) c) w else w in
        if autoNext r then setTimeout r w else w
    end.

(** [next] *)
Definition next (r : Cells) (clk : Clock) (w : World) : World :=
  let w := update (setAnswer []) w in
  let w := update (setFeedback None) w in
  if (index r + 1 <? length (problems r))%nat
  then update (fun c => setIndex (index c + 1)%nat c) w
  else stop r (Some (js "finished")) clk w.

(** ** The timer effect *)

(** The effect with dependencies
    [running, index, timePerProblem, autoNext, problems], run for the render
    [r] after the cleanup of its previous run cleared the interval. *)
Definition timer_effect (r : Cells) (w : World) : World :=
  if negb (running r) then setInterval None w
  else if 0 <? timePerProblem r then
    setInterval (Some (mkInterval r (timePerProblem r)))
      (update (setElapsed 0) w)
  else setInterval None w.

(** The feedback written when the time is up. *)
Definition expired_feedback (r : Cells) : Feedback :=
  mkFeedback false
    (match nth_error (problems r) (index r) with
     | Some p => Some (a p + b p)
     | None => None
     end).

(** One call of the interval's callback. *)
Definition tick (clk : Clock) (w : World) : World :=
  match interval w with
  | None => w
  | Some i =>
      let r := closure i in
      let left := timeLeft i - 1 in
      let w := setInterval (Some (mkInterval r left)) w in
      let w := update (fun c => setElapsed (elapsed c + 1) c) w in
      if left <=? 0 then
        let w := update (setFeedback (Some (expired_feedback r))) w in
        if autoNext r then next r clk w else w
      else w
  end.

(** The oldest pending [setTimeout] callback runs. *)
Definition fire_timeout (clk : Clock) (w : World) : World :=
  match timeouts w with
  | [] => w
  | r :: rest =>
      next r clk
        (mkWorld (cells w) (stored w) rest (interval w) (entropy w) (drawn w))
  end.

(** ** Events *)

(** What can happen to a mounted component.  [Start], [Stop], [Submit] and
    [Advance] are calls of the handlers of the current render. *)
Inductive Action : Type :=
| Start (time : Z)
| Stop (why : option jsstring) (clk : Clock)
| Submit (userAnswer : jsstring)
| Advance (clk : Clock)
| Tick (clk : Clock)
| Timeout (clk : Clock).

(** Whether a dependency of the timer effect differs between two renders;
    [fresh] tells that [setProblems] was given a new array. *)
Definition deps_changed (fresh : bool) (old new : Cells) : bool :=
  fresh
  || negb (Bool.eqb (running old) (running new))
  || negb (index old =? index new)%nat
  || negb (timePerProblem old =? timePerProblem new)
  || negb (Bool.eqb (autoNext old) (autoNext new)).

(** The render after an event: the timer effect runs again when one of
    its dependencies changed. *)
Definition commit (fresh : bool) (old : Cells) (w : World) : World :=
  if deps_changed fresh old (cells w) then timer_effect (cells w) w else w.

Definition handle (e : Action) (w : World) : World :=
  match e with
  | Start time => start (cells w) time w
  | Stop why clk => stop (cells w) why clk w
  | Submit txt => checkAnswer (cells w) txt w
  | Advance clk => next (cells w) clk w
  | Tick clk => tick clk w
  | Timeout clk => fire_timeout clk w
  end.

Definition dispatch (e : Action) (w : World) : World :=
  commit (match e with Start _ => true | _ => false end) (cells w) (handle e w).

Fixpoint run (es : list Action) (w : World) : World :=
  match es with
  | [] => w
  | e :: es' => run es' (dispatch e w)
  end.

(** ** Runs of a session *)

(** The events a caller of the controller sends during a run: answers
    and advances. *)
Definition is_advance (e : Action) : bool :=
  match e with Advance _ => true | _ => false end.

Definition is_user_action (e : Action) : bool :=
  match e with Submit _ | Advance _ => true | _ => false end.

Definition advances (es : list Action) : nat := length (filter is_advance es).

(** The current problem, [problems[index]]. *)
Definition current (c : Cells) : option Problem :=
  nth_error (problems c) (index c).

(** The [ok] that [checkAnswer] computes for the problem [p]. *)
Definition answer_ok (p : Problem) (userAnswer : jsstring) : bool :=
  match parseInt (trim userAnswer) with
  | Some v => v =? a p + b p
  | None => false
  end.

(** Both operands of [p] lie in [[lo, hi]]. *)
Definition in_range (lo hi : Z) (p : Problem) : Prop :=
  lo <= a p <= hi /\ lo <= b p <= hi.

(** A world whose count setting is a valid one and is the size of the
    batch in [problems]: what [start] establishes. *)
Definition started (w : World) : Prop :=
  0 <= numProblems (cells w) /\
  Z.of_nat (length (problems (cells w))) = numProblems (cells w).

(** The history is capped and the stored text is its JSON text. *)
Definition persisted (w : World) : Prop :=
  (length (history (cells w)) <= 50)%nat /\
  stored w = Some (JSON_stringify (history (cells w))).

(** ** Sample data *)

(** The settings of a fresh component with the given count and switches,
    nothing stored, and a random source that cycles through sevenths. *)
Definition sample_cells (count timeLimit : Z) (auto mix : bool) : Cells :=
  mkCells 0 20 count timeLimit auto mix false [] O [] None 0 None 0 [].

Definition sample_entropy (i : nat) : Q := Z.of_nat (i mod 7) # 7.

Definition sample_world (count timeLimit : Z) (auto mix : bool) : World :=
  mkWorld (sample_cells count timeLimit auto mix) None [] None sample_entropy O.

Definition sample_clock (t : Z) : Clock :=
  mkClock (js "2026-01-01T00:00:00.000Z") t t.

(** A run in progress on the problems [ps], at the first of them. *)
Definition drill_cells (ps : list Problem) (auto : bool) : Cells :=
  mkCells 0 20 (Z.of_nat (length ps)) 0 auto false true ps O [] None 0
    (Some 1000) 0 [].

Definition drill_world (ps : list Problem) (auto : bool) : World :=
  mkWorld (drill_cells ps auto) None [] None sample_entropy O.

Definition five_plus_seven : Problem :=
  mkProblem 5 7 (js "+") (problem_id 5 7 0).

(** ** Vocabulary of the proofs *)

(** What every event but [Start] guarantees between the world before it
    and the world after it: the settings, the problems and the random
    source stay, and the history and the stored text either stay or become
    a list cut to 50 entries together with its JSON text. *)
Definition frame (w w' : World) : Prop :=
  numProblems (cells w') = numProblems (cells w) /\
  autoNext (cells w') = autoNext (cells w) /\
  timePerProblem (cells w') = timePerProblem (cells w) /\
  problems (cells w') = problems (cells w) /\
  entropy w' = entropy w /\
  ((history (cells w') = history (cells w) /\ stored w' = stored w) \/
   (exists rec old, history (cells w') = firstn 50 (rec :: old) /\
                    stored w' = Some (JSON_stringify (history (cells w'))))).

(** Unfolding the handlers, splitting on their tests, and reading a cell
    of an updated world. *)
Ltac handlers :=
  unfold dispatch, handle, commit, timer_effect, checkAnswer, next, stop,
    fire_timeout, tick, update, setItem, setTimeout, setInterval.

Ltac cases :=
  repeat match goal with
         | |- context [if ?c then _ else _] => let E := fresh "E" in destruct c eqn:E
         | |- context [match ?c with Some _ => _ | None => _ end] =>
             let E := fresh "E" in destruct c eqn:E
         end.

Ltac world_simpl :=
  cbn [cells stored timeouts interval entropy drawn
       update setItem setTimeout setInterval
       minOperand maxOperand numProblems timePerProblem autoNext shuffle running
       problems index answer feedback score startTime elapsed history
       setRunning setProblems setIndex setAnswer setFeedback setScore
       setStartTime setElapsed setHistory].

(** ** More of the code: values and views *)

(** The JSON value of a number and of a history record, as
    [JSON.stringify] writes them and [JSON.parse] returns them. *)
Definition number_json (z : Z) : json := JNumber (z <? 0) (Z.abs_N z) 0.

Definition record_json (r : HistRecord) : json :=
  JObject [(js "date", JString (date r));
           (js "problemsCount", number_json (problemsCount r));
           (js "solved", number_json (solved r));
           (js "total", number_json (total r));
           (js "durationSec", number_json (durationSec r));
           (js "reason", JString (reason r))].

Definition history_json (h : list HistRecord) : json :=
  JArray (map record_json h).

(** Whether a JSON value is an array. *)
Definition is_array (v : json) : bool :=
  match v with JArray _ => true | _ => false end.

(** The history section of the markup evaluates [history.length] and
    calls [history.map(...)] on the value of the cell: the elements the
    callback is called with, and [None] where this throws a TypeError.
    [null] has no properties, and of the values [JSON.parse] returns only
    an array has a function [map]. *)
Definition history_map_target (v : json) : option (list json) :=
  match v with
  | JArray items => Some items
  | _ => None
  end.

(** A code unit that ends a number in the text of [JSON.stringify]. *)
Definition is_separator (c : N) : bool :=
  ((c =? 44) || (c =? 93) || (c =? 125))%N.


(** ** [exportCsv] *)

(** uriUnescaped of ECMA-262: letters, digits and [- _ . ! ~ * ' ( )]. *)
Definition is_unreserved (c : N) : bool :=
  ((65 <=? c) && (c <=? 90) || (97 <=? c) && (c <=? 122) || is_digit c ||
   (c =? 45) || (c =? 95) || (c =? 46) || (c =? 33) || (c =? 126) ||
   (c =? 42) || (c =? 39) || (c =? 40) || (c =? 41))%N.

Definition hex_upper (n : N) : N := (if n <? 10 then 48 + n else 55 + n)%N.

(** [%XX] for one octet. *)
Definition percent (b : N) : jsstring :=
  [37%N; hex_upper (b / 16); hex_upper (b mod 16)].

(** The octets of the UTF-8 encoding of a code point. *)
Definition utf8 (cp : N) : list N :=
  (if cp <? 128 then [cp]
   else if cp <? 2048 then [192 + cp / 64; 128 + cp mod 64]
   else if cp <? 65536
        then [224 + cp / 4096; 128 + (cp / 64) mod 64; 128 + cp mod 64]
   else [240 + cp / 262144; 128 + (cp / 4096) mod 64;
         128 + (cp / 64) mod 64; 128 + cp mod 64])%N.

(** The code point of a surrogate pair. *)
Definition pair_code_point (hi lo : N) : N :=
  (65536 + (hi - 55296) * 1024 + (lo - 56320))%N.

(** [encodeURIComponent(s)]; [None] is the URIError thrown at a surrogate
    that has no partner. *)
Fixpoint encodeURIComponent (s : jsstring) : option jsstring :=
  match s with
  | [] => Some []
  | c :: s' =>
      if is_unreserved c then option_map (cons c) (encodeURIComponent s')
      else if is_high_surrogate c then
        match s' with
        | d :: s'' =>
            if is_low_surrogate d
            then option_map (app (flat_map percent (utf8 (pair_code_point c d))))
                   (encodeURIComponent s'')
            else None
        | [] => None
        end
      else if is_low_surrogate c then None
      else option_map (app (flat_map percent (utf8 c))) (encodeURIComponent s')
  end.

(** The template of one row; [r.reason || ''] is [r.reason] for a string. *)
Definition csv_row (r : HistRecord) : jsstring :=
  date r ++ js "," ++ decimal (solved r) ++ js "," ++ decimal (total r) ++
  js "," ++ decimal (durationSec r) ++ js "," ++ reason r.

(** [lines.join(sep)] *)
Fixpoint join (sep : jsstring) (lines : list jsstring) : jsstring :=
  match lines with
  | [] => []
  | [l] => l
  | l :: rest => l ++ sep ++ join sep rest
  end.

Definition csv_header : jsstring := js "date,solved,total,durationSec,reason".

(** The text [csv] of [exportCsv]. *)
Definition csv_text (data : list HistRecord) : jsstring :=
  join [10%N] ([csv_header] ++ map csv_row data).

(** [exportCsv(data)] for an array of records. *)
Definition exportCsv (data : list HistRecord) : option jsstring :=
  match data with
  | [] => Some (js "#")
  | _ :: _ =>
      option_map (app (js "data:text/csv;charset=utf-8,"))
        (encodeURIComponent (csv_text data))
  end.

(** No surrogate of [s] stands without its partner. *)
Fixpoint well_formed (s : jsstring) : bool :=
  match s with
  | [] => true
  | c :: s' =>
      if is_high_surrogate c then
        match s' with
        | d :: s'' => is_low_surrogate d && well_formed s''
        | [] => false
        end
      else negb (is_low_surrogate c) && well_formed s'
  end.

(** How often the code unit [c] stands in [s]. *)
Definition occurrences (c : N) (s : jsstring) : nat := count_occ N.eq_dec s c.

(** A character of a URI: unreserved, or the percent sign. *)
Definition is_uri_char (c : N) : bool := is_unreserved c || (c =? 37)%N.

(** The sum, over the records, of the occurrences of [c] in their dates
    and reasons. *)
Definition field_occurrences (c : N) (data : list HistRecord) : nat :=
  list_sum (map (fun r => occurrences c (date r) + occurrences c (reason r))%nat data).

(** ** The timer and the panel *)

(** The interval and the component agree in every cell its callback
    reads: an interval runs exactly while the component is running with a
    time limit; its callback closed over the current index, problems,
    history, start time and settings; and the elapsed seconds are the
    seconds its [timeLeft] has lost.  This much holds as long as only the
    handlers, the ticks and the delayed calls act on the component; what
    holds on the page, where the history and the count can be edited
    during a run, is [timer_tied] below. *)
Definition timer_synced (w : World) : Prop :=
  match interval w with
  | Some i =>
      running (cells w) = true /\
      0 < timePerProblem (cells w) /\
      running (closure i) = true /\
      index (closure i) = index (cells w) /\
      problems (closure i) = problems (cells w) /\
      autoNext (closure i) = autoNext (cells w) /\
      timePerProblem (closure i) = timePerProblem (cells w) /\
      numProblems (closure i) = numProblems (cells w) /\
      history (closure i) = history (cells w) /\
      startTime (closure i) = startTime (cells w) /\
      elapsed (cells w) = timePerProblem (cells w) - timeLeft i
  | None => running (cells w) = false \/ timePerProblem (cells w) <= 0
  end.

(** What the main area shows (the three conditions of the markup). *)
Inductive Panel : Type :=
| Prompt
| Question (p : Problem)
| NoProblems.

Definition panel (c : Cells) : Panel :=
  if negb (running c) then Prompt
  else match nth_error (problems c) (index c) with
       | Some p => Question p
       | None => NoProblems
       end.

Definition is_timeout (e : Action) : bool :=
  match e with Timeout _ => true | _ => false end.

Definition is_start (e : Action) : bool :=
  match e with Start _ => true | _ => false end.

(** The index points into the batch, or is the [0] of an empty batch. *)
Definition in_batch (c : Cells) : Prop :=
  (index c = 0 \/ index c < length (problems c))%nat.

Definition no_timeout (es : list Action) : bool :=
  forallb (fun e => negb (is_timeout e)) es.

Definition no_start (es : list Action) : bool :=
  forallb (fun e => negb (is_start e)) es.

(** ** The ids of the problems *)

(** The digits a text starts with. *)
Fixpoint leading_digits (s : jsstring) : jsstring :=
  match s with
  | c :: s' => if is_digit c then c :: leading_digits s' else []
  | [] => []
  end.

(** The digits a text ends with. *)
Definition trailing_digits (s : jsstring) : jsstring :=
  rev (leading_digits (rev s)).

(** ** The page: controls, keyboard and effects *)

Definition setMinOperand (v : Z) (c : Cells) : Cells :=
  mkCells v (maxOperand c) (numProblems c) (timePerProblem c)
    (autoNext c) (shuffle c) (running c) (problems c) (index c) (answer c)
    (feedback c) (score c) (startTime c) (elapsed c) (history c).

Definition setMaxOperand (v : Z) (c : Cells) : Cells :=
  mkCells (minOperand c) v (numProblems c) (timePerProblem c)
    (autoNext c) (shuffle c) (running c) (problems c) (index c) (answer c)
    (feedback c) (score c) (startTime c) (elapsed c) (history c).

Definition setNumProblems (v : Z) (c : Cells) : Cells :=
  mkCells (minOperand c) (maxOperand c) v (timePerProblem c)
    (autoNext c) (shuffle c) (running c) (problems c) (index c) (answer c)
    (feedback c) (score c) (startTime c) (elapsed c) (history c).

Definition setTimePerProblem (v : Z) (c : Cells) : Cells :=
  mkCells (minOperand c) (maxOperand c) (numProblems c) v
    (autoNext c) (shuffle c) (running c) (problems c) (index c) (answer c)
    (feedback c) (score c) (startTime c) (elapsed c) (history c).

Definition setAutoNext (v : bool) (c : Cells) : Cells :=
  mkCells (minOperand c) (maxOperand c) (numProblems c) (timePerProblem c)
    v (shuffle c) (running c) (problems c) (index c) (answer c)
    (feedback c) (score c) (startTime c) (elapsed c) (history c).

Definition setShuffle (v : bool) (c : Cells) : Cells :=
  mkCells (minOperand c) (maxOperand c) (numProblems c) (timePerProblem c)
    (autoNext c) v (running c) (problems c) (index c) (answer c)
    (feedback c) (score c) (startTime c) (elapsed c) (history c).

(** [localStorage.removeItem("math-trainer-history")] *)
Definition removeItem (w : World) : World :=
  mkWorld (cells w) None (timeouts w) (interval w) (entropy w) (drawn w).

(** The mounted component: the world and the render that the [keydown]
    listener of the keyboard effect closed over. *)
Record Page := mkPage {
  world : World;
  listener : Cells
}.

(** What the user and the browser can do to the page.  A number field
    reports the integer typed into it; the answer field and the button
    beside it exist only while a problem is shown; a disabled button does
    not call its handler. *)
Inductive Input : Type :=
| ChangeMin (v : Z)
| ChangeMax (v : Z)
| ChangeCount (v : Z)
| ChangeTime (v : Z)
| CheckAuto (v : bool)
| CheckShuffle (v : bool)
| ClickStart (time : Z)
| ClickStop (clk : Clock)
| ChangeAnswer (txt : jsstring)
| ClickCheck
| ClickClear
| KeyDown (key : jsstring) (clk : Clock)
| Second (clk : Clock)
| Delayed (clk : Clock).

Definition eqb_text (s t : jsstring) : bool :=
  if list_eq_dec N.eq_dec s t then true else false.

(** [onKey], with the render [r] of the effect that registered it. *)
Definition onKey (r : Cells) (key : jsstring) (clk : Clock) (w : World) : World :=
  if negb (running r) then w
  else
    let w := if eqb_text key (js "Enter") then checkAnswer r (answer r) w else w in
    if eqb_text key (js "ArrowRight") then next r clk w else w.

(** The state updates an input makes, before the next render. *)
Definition respond (i : Input) (pg : Page) : World :=
  let w := world pg in
  let c := cells w in
  match i with
  | ChangeMin v => update (setMinOperand v) w
  | ChangeMax v => update (setMaxOperand v) w
  | ChangeCount v => update (setNumProblems v) w
  | ChangeTime v => update (setTimePerProblem v) w
  | CheckAuto v => update (setAutoNext v) w
  | CheckShuffle v => update (setShuffle v) w
  | ClickStart time => if running c then w else start c time w
  | ClickStop clk => if running c then stop c (Some (js "user")) clk w else w
  | ChangeAnswer txt =>
      match panel c with
      | Question _ => update (setAnswer txt) w
      | _ => w
      end
  | ClickCheck =>
      match panel c with
      | Question _ => checkAnswer c (answer c) w
      | _ => w
      end
  | ClickClear => removeItem (update (setHistory []) w)
  | KeyDown key clk => onKey (listener pg) key clk w
  | Second clk => tick clk w
  | Delayed clk => fire_timeout clk w
  end.

(** Whether [setProblems] was given a new array. *)
Definition starts (i : Input) (pg : Page) : bool :=
  match i with
  | ClickStart _ => negb (running (cells (world pg)))
  | _ => false
  end.

(** Whether a dependency [running, answer, index, problems] of the
    keyboard effect differs between two renders. *)
Definition key_deps_changed (fresh : bool) (old new : Cells) : bool :=
  fresh
  || negb (Bool.eqb (running old) (running new))
  || negb (eqb_text (answer old) (answer new))
  || negb (index old =? index new)%nat.

(** One input: its updates, the render that follows, and the effects
    whose dependencies changed.  The keyboard effect registers the
    listener of that render; the render after the [setElapsed(0)] of the
    timer effect changes none of its dependencies. *)
Definition react (i : Input) (pg : Page) : Page :=
  let old := cells (world pg) in
  let w1 := respond i pg in
  mkPage (commit (starts i pg) old w1)
    (if key_deps_changed (starts i pg) old (cells w1) then cells w1
     else listener pg).

Fixpoint play (ins : list Input) (pg : Page) : Page :=
  match ins with
  | [] => pg
  | i :: ins' => play ins' (react i pg)
  end.

(** The page after its first render and effects. *)
Definition mount (w : World) : Page :=
  mkPage (timer_effect (cells w) w) (cells w).

(** The listener saw the cells its effect depends on as they are now. *)
Definition listening (pg : Page) : Prop :=
  let l := listener pg in
  let c := cells (world pg) in
  running l = running c /\ answer l = answer c /\
  index l = index c /\ problems l = problems c.

(** A test on a code unit that succeeded names the code unit. *)
Ltac eqb_subst :=
  match goal with
  | E : (?c =? ?k)%N = true |- _ => apply N.eqb_eq in E; subst c
  end.

(** ** The page: what its closures hold *)

(** The interval and the component agree on what the timer effect depends
    on: an interval runs exactly while the component is running with a
    time limit; its callback closed over the current index, problems and
    the two timer settings; and the elapsed seconds are the seconds its
    [timeLeft] has lost.  The history, the count and the score are not
    dependencies of the effect and are not part of the agreement. *)
Definition timer_tied (w : World) : Prop :=
  match interval w with
  | Some i =>
      running (cells w) = true /\
      0 < timePerProblem (cells w) /\
      running (closure i) = true /\
      index (closure i) = index (cells w) /\
      problems (closure i) = problems (cells w) /\
      autoNext (closure i) = autoNext (cells w) /\
      timePerProblem (closure i) = timePerProblem (cells w) /\
      elapsed (cells w) = timePerProblem (cells w) - timeLeft i
  | None => running (cells w) = false \/ timePerProblem (cells w) <= 0
  end.

(** The auto-advance box is never ticked. *)
Definition auto_stays_off (ins : list Input) : bool :=
  forallb (fun i => match i with CheckAuto true => false | _ => true end) ins.

(** On such a page the index cannot leave the batch: auto-advance is off
    for the page and for its listener, and no delayed [next] is pending. *)
Definition manual_page (pg : Page) : Prop :=
  timer_tied (world pg) /\ listening pg /\
  autoNext (cells (world pg)) = false /\
  autoNext (listener pg) = false /\
  timeouts (world pg) = [] /\
  in_batch (cells (world pg)).

(** A check of the answer: the button, or Enter. *)
Definition is_check (i : Input) : bool :=
  match i with
  | ClickCheck => true
  | KeyDown key _ => eqb_text key (js "Enter")
  | _ => false
  end.

Definition is_click_start (i : Input) : bool :=
  match i with ClickStart _ => true | _ => false end.

Definition no_click_start (ins : list Input) : bool :=
  forallb (fun i => negb (is_click_start i)) ins.

(** The clock an input reads when it ends a run. *)
Definition input_clock (i : Input) : option Clock :=
  match i with
  | ClickStop clk | KeyDown _ clk | Second clk | Delayed clk => Some clk
  | _ => None
  end.

(** Every render that a callback of the world closed over, and the live
    cells, hold the start time [t]. *)
Definition world_since (t : Z) (w : World) : Prop :=
  startTime (cells w) = Some t /\
  match interval w with
  | Some i => startTime (closure i) = Some t
  | None => True
  end /\
  Forall (fun r => startTime r = Some t) (timeouts w).

Definition since (t : Z) (pg : Page) : Prop :=
  world_since t (world pg) /\ startTime (listener pg) = Some t.

(** ** More sample data *)

(** A record of an earlier session. *)
Definition earlier_record : HistRecord :=
  mkHistRecord (js "2025-12-31T10:00:00.000Z") 3 2 3 41 (js "user").

(** A run in progress on [ps] with that record in the history and in the
    store. *)
Definition drill_world_with_history (ps : list Problem) (auto : bool) : World :=
  mkWorld (setHistory [earlier_record] (drill_cells ps auto))
    (Some (JSON_stringify [earlier_record])) [] None sample_entropy O.

(** A run in progress on [ps] with auto-advance on and one delayed [next]
    pending, scheduled by the render the run is at. *)
Definition pending_world (ps : list Problem) : World :=
  mkWorld (drill_cells ps true) None [drill_cells ps true] None sample_entropy O.

(** Reading a cell of an updated page. *)
Ltac page_simpl :=
  cbn [world listener removeItem
       setMinOperand setMaxOperand setNumProblems setTimePerProblem
       setAutoNext setShuffle];
  world_simpl.

(** * Properties *)

(** ** Strings and numerals *)

Lemma digit_not_white (c : N) : is_digit c = true -> is_white_space c = false.
Proof.
  unfold is_digit, is_white_space; intro H.
  apply andb_prop in H; destruct H as [H1 H2].
  apply N.leb_le in H1, H2.
  repeat match goal with
         | |- context [N.eqb c ?k] => rewrite (proj2 (N.eqb_neq c k)) by lia
         | |- context [N.leb ?x ?y] =>
             first [ rewrite (proj2 (N.leb_gt x y)) by lia
                   | rewrite (proj2 (N.leb_le x y)) by lia ]
         end.
  reflexivity.
Qed.

Lemma trim_start_white (l s : jsstring) :
  forallb is_white_space l = true -> trim_start (l ++ s) = trim_start s.
Proof.
  induction l as [|c l IH]; simpl; intro H; [reflexivity|].
  apply andb_prop in H; destruct H as [Hc Hl].
  rewrite Hc; auto.
Qed.

Lemma trim_start_stop (c : N) (s : jsstring) :
  is_white_space c = false -> trim_start (c :: s) = c :: s.
Proof. intro H; simpl; rewrite H; reflexivity. Qed.

Lemma trim_end_white (s r : jsstring) :
  forallb is_white_space r = true -> trim_end (s ++ r) = trim_end s.
Proof.
  intro H; unfold trim_end.
  rewrite rev_app_distr, trim_start_white; [reflexivity|].
  rewrite forallb_forall in *; intros x Hx; apply H, in_rev; exact Hx.
Qed.

Lemma trim_end_stop (s : jsstring) (c : N) :
  is_white_space c = false -> trim_end (s ++ [c]) = s ++ [c].
Proof.
  intro H; unfold trim_end.
  rewrite rev_app_distr; simpl; rewrite H; simpl.
  rewrite rev_involutive; reflexivity.
Qed.

(** Trimming removes exactly the white space around a text that holds
    none. *)
Lemma trim_core (l m r : jsstring) :
  forallb is_white_space l = true ->
  forallb is_white_space r = true ->
  m <> [] ->
  forallb (fun c => negb (is_white_space c)) m = true ->
  trim (l ++ m ++ r) = m.
Proof.
  intros Hl Hr Hm Hc; unfold trim.
  rewrite trim_start_white by exact Hl.
  assert (Hin : forall x, In x m -> is_white_space x = false).
  { rewrite forallb_forall in Hc; intros x Hx.
    apply Hc in Hx; apply negb_true_iff in Hx; exact Hx. }
  destruct m as [|c m]; [congruence|].
  simpl app; rewrite trim_start_stop by (apply Hin; left; reflexivity).
  change (c :: m ++ r) with ((c :: m) ++ r).
  rewrite trim_end_white by exact Hr.
  unfold trim_end.
  destruct (rev (c :: m)) as [|d t] eqn:E.
  - apply (f_equal (@rev N)) in E; rewrite rev_involutive in E; discriminate E.
  - rewrite trim_start_stop.
    + rewrite <- E; apply rev_involutive.
    + apply Hin, in_rev; rewrite E; left; reflexivity.
Qed.

Lemma digits_not_white (s : jsstring) :
  forallb is_digit s = true ->
  forallb (fun c => negb (is_white_space c)) s = true.
Proof.
  rewrite !forallb_forall; intros H x Hx.
  rewrite (digit_not_white x (H x Hx)); reflexivity.
Qed.

Lemma uint_units_digits (u : Decimal.uint) :
  forallb is_digit (uint_units u) = true.
Proof. induction u; simpl; auto. Qed.

Lemma uint_units_nil (u : Decimal.uint) : uint_units u = [] -> u = Decimal.Nil.
Proof. destruct u; simpl; intro H; try discriminate; reflexivity. Qed.

Lemma read_digits_acc (u : Decimal.uint) (p : positive) :
  read_digits (uint_units u) (Npos p) true = Some (Npos (Pos.of_uint_acc u p)).
Proof.
  revert p; induction u; intro p;
    cbn [uint_units read_digits Pos.of_uint_acc]; try reflexivity.
  all: cbn [is_digit N.leb N.compare Pos.compare Pos.compare_cont andb].
  all: rewrite <- IHu; f_equal; lia.
Qed.

Lemma read_digits_of_uint (u : Decimal.uint) :
  read_digits (uint_units u) 0%N true = Some (Pos.of_uint u).
Proof.
  induction u; cbn [uint_units read_digits Pos.of_uint]; try reflexivity.
  all: cbn [is_digit N.leb N.compare Pos.compare Pos.compare_cont andb].
  1: exact IHu.
  all: apply read_digits_acc.
Qed.

Lemma read_digits_seen (s : jsstring) (acc : N) :
  s <> [] -> forallb is_digit s = true ->
  read_digits s acc false = read_digits s acc true.
Proof.
  destruct s as [|c s]; [congruence|]; simpl; intros _ H.
  apply andb_prop in H; destruct H as [Hc _]; rewrite Hc; reflexivity.
Qed.

Lemma read_digits_pos (p : positive) :
  read_digits (uint_units (Pos.to_uint p)) 0%N false = Some (Npos p).
Proof.
  rewrite read_digits_seen.
  - rewrite read_digits_of_uint, DecimalPos.Unsigned.of_to; reflexivity.
  - intro H; apply uint_units_nil in H.
    exact (DecimalPos.Unsigned.to_uint_nonnil p H).
  - apply uint_units_digits.
Qed.

(** Reading back the numeral of an integer gives the integer. *)
Lemma parseInt_decimal (z : Z) : parseInt (decimal z) = Some z.
Proof.
  destruct z as [|p|p]; [reflexivity| |].
  - unfold parseInt, decimal.
    pose proof (read_digits_pos p) as R.
    pose proof (uint_units_digits (Pos.to_uint p)) as D.
    destruct (uint_units (Pos.to_uint p)) as [|c s] eqn:E.
    + discriminate R.
    + simpl in D; apply andb_prop in D; destruct D as [Dc _].
      rewrite trim_start_stop by (apply digit_not_white; exact Dc).
      unfold is_digit in Dc; apply andb_prop in Dc; destruct Dc as [D1 D2].
      apply N.leb_le in D1, D2.
      destruct (N.eqb_spec c 45); [lia|].
      destruct (N.eqb_spec c 43); [lia|].
      rewrite R; reflexivity.
  - unfold parseInt, decimal.
    rewrite trim_start_stop by reflexivity.
    simpl N.eqb; cbv iota.
    rewrite read_digits_pos; reflexivity.
Qed.

Lemma decimal_not_white (z : Z) :
  decimal z <> [] /\
  forallb (fun c => negb (is_white_space c)) (decimal z) = true.
Proof.
  assert (P : forall p, uint_units (Pos.to_uint p) <> []).
  { intros p H; apply uint_units_nil in H.
    exact (DecimalPos.Unsigned.to_uint_nonnil p H). }
  destruct z as [|p|p]; simpl.
  - split; [discriminate | reflexivity].
  - split; [apply P | apply digits_not_white, uint_units_digits].
  - split; [discriminate | apply digits_not_white, uint_units_digits].
Qed.

(** [parseInt] of a trimmed text that is the numeral of [z] between two
    runs of white space. *)
Lemma parseInt_trim_decimal (l r : jsstring) (z : Z) :
  forallb is_white_space l = true ->
  forallb is_white_space r = true ->
  parseInt (trim (l ++ decimal z ++ r)) = Some z.
Proof.
  intros Hl Hr; destruct (decimal_not_white z) as [Hn Hw].
  rewrite trim_core by assumption.
  apply parseInt_decimal.
Qed.

Lemma read_digits_some (s : jsstring) (acc : N) :
  exists n, read_digits s acc true = Some n.
Proof.
  revert acc; induction s as [|c s IH]; intro acc; simpl.
  - eauto.
  - destruct (is_digit c); eauto.
Qed.

(** [parseInt] gives NaN exactly for the texts without an integer at their
    front. *)
Lemma parseInt_NaN (s : jsstring) :
  parseInt s = None <-> has_integer_prefix s = false.
Proof.
  unfold parseInt, has_integer_prefix.
  destruct (trim_start s) as [|c r]; [tauto|].
  assert (R : forall t, read_digits t 0%N false = None <->
                        match t with d :: _ => is_digit d | [] => false end = false).
  { intros [|d t]; simpl; [tauto|].
    destruct (is_digit d).
    - match goal with |- context [read_digits t ?x true] =>
        destruct (read_digits_some t x) as [n Hn]; rewrite Hn end.
      split; discriminate.
    - tauto. }
  destruct (c =? 45)%N; simpl orb; cbv iota.
  - rewrite <- R; destruct (read_digits r 0%N false); simpl; split; congruence.
  - destruct (c =? 43)%N; simpl orb; cbv iota.
    + rewrite <- R; destruct (read_digits r 0%N false); simpl; split; congruence.
    + rewrite <- (R (c :: r)).
      destruct (read_digits (c :: r) 0%N false); simpl; split; congruence.
Qed.

(** ** The handlers, cell by cell *)

Lemma deps_same (c c' : Cells) :
  running c' = running c -> index c' = index c ->
  timePerProblem c' = timePerProblem c -> autoNext c' = autoNext c ->
  deps_changed false c c' = false.
Proof.
  intros H1 H2 H3 H4; unfold deps_changed; rewrite H1, H2, H3, H4.
  rewrite !Bool.eqb_reflx, Nat.eqb_refl, Z.eqb_refl; reflexivity.
Qed.

(** An answer changes no dependency of the timer effect: the render after
    it is what [checkAnswer] leaves. *)
Lemma dispatch_submit (w : World) (txt : jsstring) :
  dispatch (Submit txt) w = checkAnswer (cells w) txt w.
Proof.
  unfold dispatch, handle, commit.
  rewrite deps_same; [reflexivity| | | |]; handlers; cases; simpl; congruence.
Qed.

Lemma checkAnswer_idle (r : Cells) (txt : jsstring) (w : World) :
  running r = false -> checkAnswer r txt w = w.
Proof. intro H; unfold checkAnswer; rewrite H; reflexivity. Qed.

Lemma checkAnswer_cells (r : Cells) (txt : jsstring) (w : World) (p : Problem) :
  running r = true -> current r = Some p ->
  cells (checkAnswer r txt w) =
  (if answer_ok p txt then fun c => setScore (score c + 1) c else fun c => c)
    (setFeedback (Some (mkFeedback (answer_ok p txt) (Some (a p + b p)))) (cells w)).
Proof.
  unfold current, checkAnswer, answer_ok; intros H1 H2; rewrite H1, H2; simpl.
  cases; reflexivity.
Qed.

(** ** The generator *)

Section Generator.

Variable src : nat -> Q.
Hypothesis src_unit : forall i, (0 <= src i)%Q /\ (src i < 1)%Q.

Lemma randInt_eq (lo hi : Z) (n : nat) :
  randInt lo hi src n = (Qfloor (src n * inject_Z (hi - lo + 1)) + lo, S n).
Proof. reflexivity. Qed.

(** [randInt(lo, hi)] stays between its bounds. *)
Lemma randInt_range (lo hi : Z) (n : nat) :
  lo <= hi -> lo <= fst (randInt lo hi src n) <= hi.
Proof.
  intro H; rewrite randInt_eq; cbn [fst].
  destruct (src_unit n) as [H0 H1].
  set (m := hi - lo + 1).
  assert (Hm : (0 < inject_Z m)%Q).
  { change 0%Q with (inject_Z 0); rewrite <- Zlt_Qlt; unfold m; lia. }
  assert (L : 0 <= Qfloor (src n * inject_Z m)).
  { change 0 with (Qfloor 0) at 1; apply Qfloor_resp_le.
    apply Qmult_le_0_compat; [exact H0 | apply Qlt_le_weak; exact Hm]. }
  assert (U : Qfloor (src n * inject_Z m) < m).
  { rewrite Zlt_Qlt.
    apply Qle_lt_trans with (src n * inject_Z m)%Q; [apply Qfloor_le|].
    rewrite <- (Qmult_1_l (inject_Z m)) at 2.
    apply Qmult_lt_compat_r; assumption. }
  subst m; lia.
Qed.

Lemma fill_length (lo hi : Z) (k : nat) :
  forall (i : Z) (arr : list Problem) (n : nat),
  length (fst (fill k i lo hi arr src n)) = (length arr + k)%nat.
Proof.
  induction k as [|k IH]; intros i arr n.
  - simpl; lia.
  - cbn [fill]; unfold bind at 1; rewrite randInt_eq.
    unfold bind at 1; rewrite randInt_eq.
    rewrite IH, length_app; simpl; lia.
Qed.

Lemma fill_range (lo hi : Z) (k : nat) :
  lo <= hi ->
  forall (i : Z) (arr : list Problem) (n : nat),
  Forall (in_range lo hi) arr ->
  Forall (in_range lo hi) (fst (fill k i lo hi arr src n)).
Proof.
  intro H; induction k as [|k IH]; intros i arr n F.
  - exact F.
  - cbn [fill]; unfold bind at 1; rewrite randInt_eq.
    unfold bind at 1; rewrite randInt_eq.
    apply IH, Forall_app; split; [exact F|].
    constructor; [|constructor].
    split; simpl.
    + exact (randInt_range lo hi n H).
    + exact (randInt_range lo hi (S n) H).
Qed.

Lemma sort_insert_perm {A} (x : A) (l : list A) :
  forall n, Permutation (x :: l) (fst (sort_insert x l src n)).
Proof.
  induction l as [|y l IH]; intro n; simpl.
  - apply Permutation_refl.
  - unfold bind, comparefn, random, ret; simpl.
    destruct (Qle_bool _ 0); simpl.
    + apply Permutation_refl.
    + specialize (IH (S n)).
      destruct (sort_insert x l src (S n)) as [r n']; simpl in *.
      eapply Permutation_trans; [apply perm_swap|].
      apply perm_skip; exact IH.
Qed.

Lemma sort_from_perm {A} (todo : list A) :
  forall done n, Permutation (done ++ todo) (fst (sort_from done todo src n)).
Proof.
  induction todo as [|x todo IH]; intros done n; simpl.
  - rewrite app_nil_r; apply Permutation_refl.
  - unfold bind.
    pose proof (sort_insert_perm x done n) as P.
    destruct (sort_insert x done src n) as [d n']; simpl in P.
    eapply Permutation_trans; [|apply IH].
    eapply Permutation_trans; [apply Permutation_sym, Permutation_middle|].
    exact (Permutation_app_tail todo P).
Qed.

(** The model of [sort] only reorders. *)
Lemma sort_perm {A} (arr : list A) (n : nat) :
  Permutation arr (fst (sort arr src n)).
Proof. exact (sort_from_perm arr [] n). Qed.

Lemma makeProblems_length (n lo hi : Z) (shuffled : bool) (d : nat) :
  length (fst (makeProblems n lo hi shuffled src d)) = Z.to_nat n.
Proof.
  unfold makeProblems, bind.
  pose proof (fill_length lo hi (Z.to_nat n) 0 [] d) as L.
  destruct (fill (Z.to_nat n) 0 lo hi [] src d) as [arr d']; simpl in L.
  destruct shuffled; [|exact L].
  rewrite <- L; symmetry; apply Permutation_length, sort_perm.
Qed.

(** C4: for a count [n >= 0] and bounds [lo <= hi], [makeProblems] returns
    exactly [n] problems and both operands of each of them lie in
    [[lo, hi]], whatever the random source returns in [0, 1) and with or
    without the shuffle. *)
Theorem generate_count_and_range (n lo hi : Z) (shuffled : bool) (d : nat) :
  0 <= n -> lo <= hi ->
  let ps := fst (makeProblems n lo hi shuffled src d) in
  Z.of_nat (length ps) = n /\ Forall (in_range lo hi) ps.
Proof.
  intros Hn H ps; subst ps; split.
  - rewrite makeProblems_length; lia.
  - unfold makeProblems, bind.
    pose proof (fill_range lo hi (Z.to_nat n) H 0 [] d (Forall_nil _)) as F.
    destruct (fill (Z.to_nat n) 0 lo hi [] src d) as [arr d']; simpl in F.
    destruct shuffled; [|exact F].
    eapply Permutation_Forall; [apply sort_perm | exact F].
Qed.

(** C9: with the same random source, the shuffled result of [makeProblems]
    is a permutation of the unshuffled one: the same problems with the same
    multiplicities, in another order. *)
Theorem shuffle_preserves_problems (n lo hi : Z) (d : nat) :
  Permutation (fst (makeProblems n lo hi false src d))
              (fst (makeProblems n lo hi true src d)).
Proof.
  unfold makeProblems, bind.
  destruct (fill (Z.to_nat n) 0 lo hi [] src d) as [arr d']; simpl.
  apply sort_perm.
Qed.

End Generator.

Lemma sample_entropy_unit (i : nat) :
  (0 <= sample_entropy i)%Q /\ (sample_entropy i < 1)%Q.
Proof.
  assert (H : (i mod 7 < 7)%nat) by (apply Nat.mod_upper_bound; discriminate).
  unfold sample_entropy, Qle, Qlt; cbn [Qnum Qden]; lia.
Qed.

Lemma generate_count_and_range_witness :
  let ps := fst (makeProblems 5 (-3) 20 true sample_entropy O) in
  Z.of_nat (length ps) = 5 /\ Forall (in_range (-3) 20) ps.
Proof.
  apply (generate_count_and_range sample_entropy sample_entropy_unit
           5 (-3) 20 true O); lia.
Defined.


(** ** What an event leaves alone *)

Lemma frame_refl (w : World) : frame w w.
Proof. unfold frame; intuition. Qed.

Lemma frame_trans (w1 w2 w3 : World) : frame w1 w2 -> frame w2 w3 -> frame w1 w3.
Proof.
  unfold frame; intros (A1 & A2 & A3 & A4 & A5 & A6) (B1 & B2 & B3 & B4 & B5 & B6).
  repeat split; try congruence.
  destruct B6 as [[B6 B7]|B6]; [|right; exact B6].
  destruct A6 as [[A6 A7]|(rec & old & A6 & A7)].
  - left; split; congruence.
  - right; exists rec, old; split; congruence.
Qed.

Lemma frame_update (f : Cells -> Cells) (w : World) :
  (forall c, numProblems (f c) = numProblems c /\ autoNext (f c) = autoNext c /\
             timePerProblem (f c) = timePerProblem c /\
             problems (f c) = problems c /\ history (f c) = history c) ->
  frame w (update f w).
Proof.
  intro H; destruct (H (cells w)) as (H1 & H2 & H3 & H4 & H5).
  unfold frame; world_simpl; intuition.
Qed.

Lemma frame_stop (r : Cells) (why : option jsstring) (clk : Clock) (w : World) :
  frame w (stop r why clk w).
Proof.
  unfold frame, stop; world_simpl; repeat split.
  right; eauto.
Qed.

Lemma frame_next (r : Cells) (clk : Clock) (w : World) : frame w (next r clk w).
Proof.
  unfold next.
  assert (F : frame w (update (setFeedback None) (update (setAnswer []) w))).
  { unfold frame; world_simpl; intuition. }
  destruct (index r + 1 <? length (problems r))%nat.
  - eapply frame_trans; [exact F|]. apply frame_update; intro c; world_simpl; intuition.
  - eapply frame_trans; [exact F|]. apply frame_stop.
Qed.

Lemma frame_checkAnswer (r : Cells) (txt : jsstring) (w : World) :
  frame w (checkAnswer r txt w).
Proof.
  unfold checkAnswer.
  destruct (negb (running r)); [apply frame_refl|].
  destruct (nth_error (problems r) (index r)) as [p|]; [|apply frame_refl].
  cbv zeta.
  match goal with |- context [update (setFeedback ?v) w] =>
    assert (F : frame w (update (setFeedback v) w))
      by (unfold frame; world_simpl; intuition);
    set (w1 := update (setFeedback v) w) in *
  end.
  assert (G : forall b : bool, frame w (if b then update (fun c => setScore (score c + 1) c) w1 else w1)).
  { intros [|]; [|exact F].
    eapply frame_trans; [exact F|]. unfold frame; world_simpl; intuition. }
  match goal with |- context [if ?b then update _ w1 else w1] =>
    specialize (G b); set (w2 := if b then _ else w1) in * end.
  destruct (autoNext r); [|exact G].
  eapply frame_trans; [exact G|]. unfold frame; world_simpl; intuition.
Qed.

Lemma frame_tick (clk : Clock) (w : World) : frame w (tick clk w).
Proof.
  unfold tick.
  destruct (interval w) as [i|]; [|apply frame_refl].
  cbv zeta.
  match goal with |- context [update ?f (setInterval ?v w)] =>
    assert (F : frame w (update f (setInterval v w)))
      by (unfold frame; world_simpl; intuition);
    set (w1 := update f (setInterval v w)) in *
  end.
  destruct (timeLeft i - 1 <=? 0); [|exact F].
  assert (G : frame w (update (setFeedback (Some (expired_feedback (closure i)))) w1)).
  { eapply frame_trans; [exact F|]. unfold frame; world_simpl; intuition. }
  destruct (autoNext (closure i)); [|exact G].
  eapply frame_trans; [exact G|apply frame_next].
Qed.

Lemma frame_fire_timeout (clk : Clock) (w : World) : frame w (fire_timeout clk w).
Proof.
  unfold fire_timeout.
  destruct (timeouts w) as [|r rest]; [apply frame_refl|].
  eapply frame_trans; [|apply frame_next].
  unfold frame; world_simpl; intuition.
Qed.

Lemma frame_commit (fresh : bool) (old : Cells) (w : World) :
  frame w (commit fresh old w).
Proof.
  unfold commit, timer_effect.
  destruct (deps_changed fresh old (cells w)); [|apply frame_refl].
  destruct (negb (running (cells w))); [unfold frame; world_simpl; intuition|].
  destruct (0 <? timePerProblem (cells w)); unfold frame; world_simpl; intuition.
Qed.

(** Every event but [Start] keeps the settings and the problems, and
    either leaves the history and the stored text alone or replaces both by
    a list cut to 50 entries and its JSON text. *)
Lemma frame_dispatch (e : Action) (w : World) :
  (forall t, e <> Start t) -> frame w (dispatch e w).
Proof.
  intro H; unfold dispatch.
  eapply frame_trans; [|apply frame_commit].
  destruct e; simpl.
  - exfalso; eapply H; reflexivity.
  - apply frame_stop.
  - apply frame_checkAnswer.
  - apply frame_next.
  - apply frame_tick.
  - apply frame_fire_timeout.
Qed.

(** ** The handlers, shape by shape *)

Lemma commit_proj {A} (P : Cells -> A) (fresh : bool) (old : Cells) (w : World) :
  (forall c, P (setElapsed 0 c) = P c) ->
  P (cells (commit fresh old w)) = P (cells w).
Proof.
  intro H; unfold commit, timer_effect.
  destruct (deps_changed fresh old (cells w)); [|reflexivity].
  destruct (negb (running (cells w))); [reflexivity|].
  destruct (0 <? timePerProblem (cells w)); world_simpl; auto.
Qed.

Lemma commit_world (fresh : bool) (old : Cells) (w : World) :
  stored (commit fresh old w) = stored w /\
  timeouts (commit fresh old w) = timeouts w /\
  entropy (commit fresh old w) = entropy w /\
  drawn (commit fresh old w) = drawn w.
Proof.
  unfold commit, timer_effect.
  destruct (deps_changed fresh old (cells w)); [|auto].
  destruct (negb (running (cells w))); [auto|].
  destruct (0 <? timePerProblem (cells w)); world_simpl; auto.
Qed.

Lemma commit_same (old : Cells) (w : World) :
  running (cells w) = running old -> index (cells w) = index old ->
  timePerProblem (cells w) = timePerProblem old ->
  autoNext (cells w) = autoNext old ->
  commit false old w = w.
Proof.
  intros; unfold commit; rewrite deps_same by assumption; reflexivity.
Qed.


Lemma stop_cells (r : Cells) (why : option jsstring) (clk : Clock) (w : World) :
  cells (stop r why clk w) =
  setHistory (firstn 50 (make_record r why clk :: history r))
    (setRunning false (cells w)).
Proof. reflexivity. Qed.

Lemma stop_stored (r : Cells) (why : option jsstring) (clk : Clock) (w : World) :
  stored (stop r why clk w) =
  Some (JSON_stringify (firstn 50 (make_record r why clk :: history r))).
Proof. reflexivity. Qed.

(** What [stop], called from the current render, leaves behind. *)
Lemma dispatch_stop (w : World) (why : option jsstring) (clk : Clock) :
  let w' := dispatch (Stop why clk) w in
  let h := firstn 50 (make_record (cells w) why clk :: history (cells w)) in
  running (cells w') = false /\
  history (cells w') = h /\
  stored w' = Some (JSON_stringify h) /\
  hd_error (history (cells w')) = Some (make_record (cells w) why clk) /\
  (length (history (cells w')) <= 50)%nat.
Proof.
  intros w' h; subst w'; unfold dispatch, handle.
  rewrite (commit_proj running), (commit_proj history) by reflexivity.
  destruct (commit_world false (cells w) (stop (cells w) why clk w)) as (S & _).
  rewrite S, stop_stored, stop_cells; world_simpl; subst h.
  repeat split; try reflexivity.
  apply firstn_le_length.
Qed.

Lemma start_shape (r : Cells) (t : Z) (w : World) :
  let w' := start r t w in
  problems (cells w') =
    fst (makeProblems (numProblems r) (minOperand r) (maxOperand r) (shuffle r)
           (entropy w) (drawn w)) /\
  running (cells w') = true /\ index (cells w') = O /\ score (cells w') = 0 /\
  feedback (cells w') = None /\
  numProblems (cells w') = numProblems (cells w) /\
  autoNext (cells w') = autoNext (cells w) /\
  timePerProblem (cells w') = timePerProblem (cells w) /\
  history (cells w') = history (cells w) /\
  stored w' = stored w /\ timeouts w' = timeouts w /\ entropy w' = entropy w.
Proof.
  intro w'; subst w'; unfold start.
  destruct (makeProblems _ _ _ _ _ _) as [p n]; world_simpl; simpl.
  repeat split; reflexivity.
Qed.

(** What [start], called from the current render, leaves behind. *)
Lemma dispatch_start (w : World) (t : Z) :
  let w' := dispatch (Start t) w in
  length (problems (cells w')) = Z.to_nat (numProblems (cells w)) /\
  running (cells w') = true /\ index (cells w') = O /\ score (cells w') = 0 /\
  feedback (cells w') = None /\
  numProblems (cells w') = numProblems (cells w) /\
  autoNext (cells w') = autoNext (cells w) /\
  timePerProblem (cells w') = timePerProblem (cells w) /\
  history (cells w') = history (cells w) /\
  stored w' = stored w /\ timeouts w' = timeouts w /\ entropy w' = entropy w.
Proof.
  intro w'; subst w'; unfold dispatch, handle.
  destruct (start_shape (cells w) t w)
    as (P & R & I & S & F & N & A & T & H & St & To & En).
  destruct (commit_world true (cells w) (start (cells w) t w)) as (S1 & S2 & S3 & _).
  rewrite (commit_proj problems), (commit_proj running), (commit_proj index),
    (commit_proj score), (commit_proj feedback), (commit_proj numProblems),
    (commit_proj autoNext), (commit_proj timePerProblem), (commit_proj history)
    by reflexivity.
  rewrite S1, S2, S3, P, makeProblems_length.
  repeat split; assumption.
Qed.

Lemma started_dispatch (e : Action) (w : World) :
  started w -> started (dispatch e w).
Proof.
  unfold started; intros [H0 H1].
  assert (F : (exists t, e = Start t) \/ frame w (dispatch e w)).
  { destruct e; try (right; apply frame_dispatch; discriminate).
    left; eauto. }
  destruct F as [[t E]|F].
  - subst e; destruct (dispatch_start w t) as (L & _ & _ & _ & _ & N & _).
    rewrite N, L; split; [exact H0 | lia].
  - destruct F as (N & _ & _ & P & _); rewrite N, P; auto.
Qed.

Lemma started_run (es : list Action) (w : World) :
  started w -> started (run es w).
Proof.
  revert w; induction es as [|e es IH]; intros w H; simpl; [exact H|].
  apply IH, started_dispatch, H.
Qed.

Lemma length_or_batch (ps : list Problem) (n : Z) :
  Z.of_nat (length ps) = n -> length_or ps n = Z.of_nat (length ps).
Proof.
  unfold length_or; intro H.
  destruct (Nat.eqb_spec (length ps) 0) as [E|E]; [rewrite <- H, E|]; reflexivity.
Qed.

Lemma length_or_nonempty (ps : list Problem) (n : Z) :
  ps <> [] -> length_or ps n = Z.of_nat (length ps).
Proof.
  unfold length_or; intro H.
  destruct ps; [congruence | reflexivity].
Qed.

(** ** Stopping *)

(** The [stop] of the current render, the one the Stop button calls: in
    every running state of a run that [start] began with a valid count it
    builds a record whose [solved] is the current score, whose [total] is
    the size of the generated batch, which is the configured count,
    however many problems were attempted, and whose [reason] is the given
    one or ["user"]; the record goes to the front of the history, the
    history is written to the store, and the component is idle.  The
    [stop] that [next] calls is another closure: see the section on
    closures. *)
Theorem stop_record (w0 : World) (t : Z) (es : list Action)
    (why : option jsstring) (clk : Clock) :
  0 <= numProblems (cells w0) ->
  let w := run (Start t :: es) w0 in
  running (cells w) = true ->
  let w' := dispatch (Stop why clk) w in
  let rec := make_record (cells w) why clk in
  hd_error (history (cells w')) = Some rec /\
  history (cells w') = firstn 50 (rec :: history (cells w)) /\
  stored w' = Some (JSON_stringify (history (cells w'))) /\
  solved rec = score (cells w) /\
  total rec = Z.of_nat (length (problems (cells w))) /\
  total rec = numProblems (cells w) /\
  reason rec = match why with Some s => s | None => js "user" end /\
  running (cells w') = false.
Proof.
  intros H0 w Hrun w' rec.
  assert (S : started w).
  { subst w; simpl; apply started_run.
    destruct (dispatch_start w0 t) as (L & _ & _ & _ & _ & N & _).
    unfold started; rewrite N, L; split; [exact H0 | lia]. }
  destruct S as [_ S].
  destruct (dispatch_stop w why clk) as (R & H & St & Hd & _).
  fold w' in R, H, St, Hd; fold rec in H, St, Hd.
  assert (T : total rec = Z.of_nat (length (problems (cells w)))).
  { subst rec; unfold make_record; cbn [total]; apply length_or_batch, S. }
  repeat split; try assumption; try reflexivity.
  - rewrite St, H; reflexivity.
  - rewrite T; exact S.
Qed.

Lemma stop_record_witness :
  let w := run [Start 1000; Submit (js "3"); Advance (sample_clock 2000)]
               (sample_world 3 0 false false) in
  let w' := dispatch (Stop (Some (js "user")) (sample_clock 5600)) w in
  let rec := make_record (cells w) (Some (js "user")) (sample_clock 5600) in
  hd_error (history (cells w')) = Some rec /\
  history (cells w') = firstn 50 (rec :: history (cells w)) /\
  stored w' = Some (JSON_stringify (history (cells w'))) /\
  solved rec = score (cells w) /\
  total rec = Z.of_nat (length (problems (cells w))) /\
  total rec = numProblems (cells w) /\
  reason rec = js "user" /\
  running (cells w') = false.
Proof.
  apply (stop_record (sample_world 3 0 false false) 1000
           [Submit (js "3"); Advance (sample_clock 2000)]
           (Some (js "user")) (sample_clock 5600)).
  - simpl; lia.
  - reflexivity.
Defined.

(** The example of the specification: one of three answered, then
    [stop("user")]. *)
Example stop_after_one_of_three :
  let w := run [Start 1000; Submit (js "3"); Advance (sample_clock 2000);
                Stop (Some (js "user")) (sample_clock 5600)]
               (sample_world 3 0 false false) in
  map (fun r => (solved r, total r, reason r)) (history (cells w)) =
  [(1, 3, js "user")].
Proof. reflexivity. Qed.

(** ** Answers *)

(** C2, as the code has it: in a running state with a current problem,
    [checkAnswer] always leaves a feedback that carries the true sum; the
    outcome is correct exactly when [parseInt] of the trimmed text is the
    sum, so it is correct for the numeral of the sum between white space
    and incorrect for every text that does not start with an integer; no
    text makes the handler fail.  A text that starts with the sum and goes
    on with other characters is scored correct as well. *)
Theorem submitAnswer_outcome (w : World) (p : Problem) (txt : jsstring) :
  running (cells w) = true ->
  current (cells w) = Some p ->
  let w' := dispatch (Submit txt) w in
  feedback (cells w') = Some (mkFeedback (answer_ok p txt) (Some (a p + b p))) /\
  (answer_ok p txt = true <-> parseInt (trim txt) = Some (a p + b p)) /\
  (forall l r, forallb is_white_space l = true ->
               forallb is_white_space r = true ->
               txt = l ++ decimal (a p + b p) ++ r -> answer_ok p txt = true) /\
  (has_integer_prefix (trim txt) = false -> answer_ok p txt = false).
Proof.
  intros R C w'; subst w'; rewrite dispatch_submit.
  rewrite (checkAnswer_cells _ _ _ p R C).
  assert (K : answer_ok p txt = true <-> parseInt (trim txt) = Some (a p + b p)).
  { unfold answer_ok; destruct (parseInt (trim txt)) as [v|].
    - rewrite Z.eqb_eq; split; congruence.
    - split; discriminate. }
  split; [destruct (answer_ok p txt); reflexivity|].
  split; [exact K|]; split.
  - intros l r Hl Hr E; apply K; subst txt.
    apply parseInt_trim_decimal; assumption.
  - intro H; apply parseInt_NaN in H.
    unfold answer_ok; rewrite H; reflexivity.
Qed.

Lemma submitAnswer_outcome_witness :
  feedback (cells (dispatch (Submit (js "  12 ")) (drill_world [five_plus_seven] false))) =
  Some (mkFeedback true (Some 12)).
Proof.
  exact (proj1 (submitAnswer_outcome (drill_world [five_plus_seven] false)
                  five_plus_seven (js "  12 ") eq_refl eq_refl)).
Defined.

(** C2 as stated fails: ["12abc"] is not a numeral, and [checkAnswer]
    scores it correct for the problem 5 + 7. *)
Lemma nonnumeric_text_scored_correct :
  is_integer_text (js "12abc") = false /\
  feedback (cells (dispatch (Submit (js "12abc")) (drill_world [five_plus_seven] false))) =
  Some (mkFeedback true (Some 12)).
Proof. split; reflexivity. Qed.

Lemma checkAnswer_shape (w : World) (p : Problem) (txt : jsstring) :
  running (cells w) = true ->
  current (cells w) = Some p ->
  let w' := dispatch (Submit txt) w in
  score (cells w') = (if answer_ok p txt then score (cells w) + 1 else score (cells w)) /\
  running (cells w') = true /\
  index (cells w') = index (cells w) /\
  problems (cells w') = problems (cells w) /\
  numProblems (cells w') = numProblems (cells w) /\
  autoNext (cells w') = autoNext (cells w) /\
  history (cells w') = history (cells w) /\
  stored w' = stored w /\
  (autoNext (cells w) = false -> timeouts w' = timeouts w).
Proof.
  intros R C w'; subst w'; rewrite dispatch_submit.
  rewrite (checkAnswer_cells _ _ _ p R C).
  unfold checkAnswer; unfold current in C; rewrite R, C; cbn [negb].
  fold (answer_ok p txt).
  destruct (answer_ok p txt); destruct (autoNext (cells w)) eqn:A;
    world_simpl; repeat split; auto; discriminate.
Qed.

(** C10: while running, every submission whose text parses to the sum of
    the current problem adds one to the score and moves nothing else of the
    run, so [k] of them in a row on one problem add [k]; a [stop] after
    them records that score as [solved], which is more than [total] as soon
    as [k] exceeds the number of problems. *)
Theorem repeated_answers_all_score (w : World) (p : Problem) (txt : jsstring)
    (k : nat) (why : option jsstring) (clk : Clock) :
  running (cells w) = true ->
  current (cells w) = Some p ->
  parseInt (trim txt) = Some (a p + b p) ->
  let w' := run (repeat (Submit txt) k) w in
  let rec := make_record (cells w') why clk in
  score (cells w') = score (cells w) + Z.of_nat k /\
  index (cells w') = index (cells w) /\
  running (cells w') = true /\
  hd_error (history (cells (dispatch (Stop why clk) w'))) = Some rec /\
  solved rec = score (cells w) + Z.of_nat k /\
  total rec = Z.of_nat (length (problems (cells w))) /\
  (0 <= score (cells w) -> (length (problems (cells w)) < k)%nat ->
   total rec < solved rec).
Proof.
  intros R C P w'.
  assert (K : answer_ok p txt = true).
  { unfold answer_ok; rewrite P; apply Z.eqb_refl. }
  assert (I : score (cells w') = score (cells w) + Z.of_nat k /\
              index (cells w') = index (cells w) /\
              running (cells w') = true /\
              problems (cells w') = problems (cells w)).
  { subst w'; revert w R C; induction k as [|k IH]; intros w R C.
    - simpl; repeat split; auto; lia.
    - cbn [repeat run].
      destruct (checkAnswer_shape w p txt R C) as (S & R' & I' & P' & _).
      rewrite K in S.
      destruct (IH (dispatch (Submit txt) w)) as (S2 & I2 & R2 & P2).
      + exact R'.
      + unfold current; rewrite I', P'; exact C.
      + rewrite S2, I2, R2, P2, S, I', P'; repeat split; auto; lia. }
  destruct I as (S & I & R' & Pr).
  intro rec.
  assert (T : total rec = Z.of_nat (length (problems (cells w)))).
  { subst rec; unfold make_record; cbn [total]; rewrite Pr.
    apply length_or_nonempty; intro E.
    unfold current in C; rewrite E in C; destruct (index (cells w)); discriminate. }
  assert (So : solved rec = score (cells w) + Z.of_nat k) by exact S.
  repeat split; auto.
  - destruct (dispatch_stop w' why clk) as (_ & _ & _ & Hd & _); exact Hd.
  - intros; lia.
Qed.

Lemma repeated_answers_all_score_witness :
  let w := drill_world [five_plus_seven] false in
  let w' := run (repeat (Submit (js "12")) 2) w in
  let rec := make_record (cells w') None (sample_clock 3000) in
  score (cells w') = score (cells w) + Z.of_nat 2 /\
  index (cells w') = index (cells w) /\
  running (cells w') = true /\
  hd_error (history (cells (dispatch (Stop None (sample_clock 3000)) w'))) = Some rec /\
  solved rec = score (cells w) + Z.of_nat 2 /\
  total rec = Z.of_nat (length (problems (cells w))) /\
  (0 <= score (cells w) -> (length (problems (cells w)) < 2)%nat ->
   total rec < solved rec).
Proof.
  exact (repeated_answers_all_score (drill_world [five_plus_seven] false)
           five_plus_seven (js "12") 2 None (sample_clock 3000)
           eq_refl eq_refl eq_refl).
Defined.

(** Two correct submissions on a batch of one problem: [solved] is 2 and
    [total] is 1. *)
Example solved_exceeds_total :
  let w := run [Submit (js "12"); Submit (js "12"); Stop None (sample_clock 3000)]
               (drill_world [five_plus_seven] false) in
  map (fun r => (solved r, total r)) (history (cells w)) = [(2, 1)].
Proof. reflexivity. Qed.

(** ** Calls while idle *)




(** ** A full run *)

Lemma advance_moves (w : World) (clk : Clock) :
  (index (cells w) + 1 < length (problems (cells w)))%nat ->
  let w' := dispatch (Advance clk) w in
  index (cells w') = S (index (cells w)) /\
  running (cells w') = running (cells w) /\
  problems (cells w') = problems (cells w) /\
  autoNext (cells w') = autoNext (cells w) /\
  score (cells w') = score (cells w) /\
  history (cells w') = history (cells w) /\
  stored w' = stored w /\ timeouts w' = timeouts w.
Proof.
  intros H w'; subst w'; unfold dispatch, handle.
  destruct (commit_world false (cells w) (next (cells w) clk w)) as (S1 & S2 & _).
  rewrite (commit_proj index), (commit_proj running), (commit_proj problems),
    (commit_proj autoNext), (commit_proj score), (commit_proj history)
    by reflexivity.
  rewrite S1, S2; unfold next.
  apply Nat.ltb_lt in H; rewrite H; world_simpl.
  repeat split; auto; lia.
Qed.

Lemma advance_finishes (w : World) (clk : Clock) :
  (length (problems (cells w)) <= index (cells w) + 1)%nat ->
  let w' := dispatch (Advance clk) w in
  let h := firstn 50 (make_record (cells w) (Some (js "finished")) clk
                        :: history (cells w)) in
  running (cells w') = false /\
  history (cells w') = h /\
  stored w' = Some (JSON_stringify h) /\
  timeouts w' = timeouts w.
Proof.
  intros H w' h; subst w'; unfold dispatch, handle.
  destruct (commit_world false (cells w) (next (cells w) clk w)) as (S1 & S2 & _).
  rewrite (commit_proj running), (commit_proj history) by reflexivity.
  rewrite S1, S2; unfold next.
  apply Nat.ltb_ge in H; rewrite H.
  rewrite stop_cells, stop_stored; world_simpl.
  repeat split; reflexivity.
Qed.

Lemma advances_app (es1 es2 : list Action) :
  advances (es1 ++ es2) = (advances es1 + advances es2)%nat.
Proof. unfold advances; rewrite filter_app, length_app; reflexivity. Qed.

Lemma run_app (es1 es2 : list Action) (w : World) :
  run (es1 ++ es2) w = run es2 (run es1 w).
Proof. revert w; induction es1 as [|e es1 IH]; intro w; simpl; auto. Qed.

(** Answers and advances, as long as the advances do not reach the end of
    the batch: the run goes on, the index counts the advances, nothing is
    recorded, and with [autoNext] off nothing is scheduled. *)
Lemma run_in_progress (es : list Action) :
  forall w : World,
  forallb is_user_action es = true ->
  running (cells w) = true ->
  autoNext (cells w) = false ->
  (index (cells w) + advances es < length (problems (cells w)))%nat ->
  let w' := run es w in
  running (cells w') = true /\
  index (cells w') = (index (cells w) + advances es)%nat /\
  problems (cells w') = problems (cells w) /\
  autoNext (cells w') = false /\
  history (cells w') = history (cells w) /\
  stored w' = stored w /\ timeouts w' = timeouts w.
Proof.
  induction es as [|e es IH]; intros w U R A L.
  - simpl; unfold advances; simpl; repeat split; auto.
  - simpl in U; apply andb_prop in U; destruct U as [Ue U].
    destruct e; try discriminate Ue; cbn [run].
    + assert (C : exists p, current (cells w) = Some p).
      { unfold current.
        destruct (nth_error (problems (cells w)) (index (cells w))) eqn:E; eauto.
        apply nth_error_None in E; lia. }
      destruct C as [p C].
      destruct (checkAnswer_shape w p userAnswer R C)
        as (_ & R' & I' & P' & _ & A' & H' & S' & T').
      specialize (T' A).
      unfold advances in *; cbn [filter is_advance] in *.
      specialize (IH (dispatch (Submit userAnswer) w) U R').
      rewrite A', I', P', H', S', T' in IH.
      exact (IH A L).
    + unfold advances in *; cbn [filter is_advance length] in *.
      destruct (advance_moves w clk) as (I' & R' & P' & A' & _ & H' & S' & T');
        [lia|].
      specialize (IH (dispatch (Advance clk) w) U).
      rewrite R', A', I', P', H', S', T' in IH.
      assert (L' : (S (index (cells w)) + length (filter is_advance es)
                    < length (problems (cells w)))%nat) by lia.
      destruct (IH R A L') as (X1 & X2 & X3).
      repeat split; try tauto; lia.
Qed.

(** C1: in a run over a generated batch of [n >= 1] problems with
    [autoNext] off, where the caller sends answers and advances, the
    component stays running through the first [n - 1] advances and nothing
    is recorded; the [n]-th advance ends the run at once: it builds a
    record with [total = n] and [reason = "finished"], puts it in front of
    the history, writes the history to the store, and the component is
    idle. *)
Theorem full_run_finishes (w0 : World) (t : Z) (n : nat)
    (pre : list Action) (clk : Clock) :
  numProblems (cells w0) = Z.of_nat n ->
  autoNext (cells w0) = false ->
  forallb is_user_action pre = true ->
  S (advances pre) = n ->
  let w1 := run (Start t :: pre) w0 in
  let w2 := dispatch (Advance clk) w1 in
  let rec := make_record (cells w1) (Some (js "finished")) clk in
  (forall es1 es2, pre = es1 ++ es2 ->
     let w := run (Start t :: es1) w0 in
     running (cells w) = true /\ index (cells w) = advances es1 /\
     history (cells w) = history (cells w0) /\ stored w = stored w0) /\
  length (problems (cells w1)) = n /\
  running (cells w2) = false /\
  hd_error (history (cells w2)) = Some rec /\
  history (cells w2) = firstn 50 (rec :: history (cells w0)) /\
  stored w2 = Some (JSON_stringify (history (cells w2))) /\
  total rec = Z.of_nat n /\
  reason rec = js "finished" /\
  solved rec = score (cells w1) /\
  timeouts w2 = timeouts w0.
Proof.
  intros N A U C; cbv zeta; cbn [run].
  destruct (dispatch_start w0 t)
    as (L & R & I & _ & _ & _ & A' & _ & H & St & To & _).
  rewrite N, Nat2Z.id in L; rewrite A in A'.
  set (ws := dispatch (Start t) w0) in *.
  set (w1 := run pre ws).
  set (w2 := dispatch (Advance clk) w1).
  set (rec := make_record (cells w1) (Some (js "finished")) clk).
  assert (P : forall es, forallb is_user_action es = true ->
                (advances es < n)%nat ->
                let w := run es ws in
                running (cells w) = true /\
                index (cells w) = advances es /\
                problems (cells w) = problems (cells ws) /\
                history (cells w) = history (cells w0) /\
                stored w = stored w0 /\ timeouts w = timeouts w0).
  { intros es Ues Les.
    destruct (run_in_progress es ws Ues R A') as (X1 & X2 & X3 & _ & X5 & X6 & X7).
    - rewrite I, L; exact Les.
    - rewrite I in X2; cbv zeta.
      rewrite X5, X6, X7, H, St, To; repeat split; auto. }
  destruct (P pre U) as (R1 & I1 & P1 & H1 & S1 & T1); [lia|].
  fold w1 in R1, I1, P1, H1, S1, T1.
  destruct (advance_finishes w1 clk) as (R2 & H2 & S2 & T2).
  { rewrite P1, L, I1; lia. }
  fold w2 in R2, H2, S2, T2; fold rec in H2, S2.
  split.
  - intros es1 es2 E.
    assert (U1 : forallb is_user_action es1 = true).
    { rewrite E, forallb_app in U; apply andb_prop in U; tauto. }
    destruct (P es1 U1) as (X1 & X2 & _ & X4 & X5 & _).
    + rewrite E, advances_app in C; lia.
    + repeat split; assumption.
  - rewrite H1 in H2, S2.
    repeat split; auto.
    + rewrite P1; exact L.
    + rewrite H2; reflexivity.
    + rewrite S2, H2; reflexivity.
    + subst rec; unfold make_record; cbn [total]; rewrite P1.
      rewrite length_or_nonempty, L; [reflexivity|].
      intro E; rewrite E in L; simpl in L; lia.
    + congruence.
Qed.

Lemma full_run_finishes_witness :
  let w0 := sample_world 3 0 false false in
  let pre := [Submit (js "3"); Advance (sample_clock 2000);
              Submit (js "x"); Advance (sample_clock 3000)] in
  let clk := sample_clock 4400 in
  let w1 := run (Start 1000 :: pre) w0 in
  let w2 := dispatch (Advance clk) w1 in
  let rec := make_record (cells w1) (Some (js "finished")) clk in
  (forall es1 es2, pre = es1 ++ es2 ->
     let w := run (Start 1000 :: es1) w0 in
     running (cells w) = true /\ index (cells w) = advances es1 /\
     history (cells w) = history (cells w0) /\ stored w = stored w0) /\
  length (problems (cells w1)) = 3%nat /\
  running (cells w2) = false /\
  hd_error (history (cells w2)) = Some rec /\
  history (cells w2) = firstn 50 (rec :: history (cells w0)) /\
  stored w2 = Some (JSON_stringify (history (cells w2))) /\
  total rec = Z.of_nat 3 /\
  reason rec = js "finished" /\
  solved rec = score (cells w1) /\
  timeouts w2 = timeouts w0.
Proof.
  exact (full_run_finishes (sample_world 3 0 false false) 1000 3
           [Submit (js "3"); Advance (sample_clock 2000);
            Submit (js "x"); Advance (sample_clock 3000)]
           (sample_clock 4400) eq_refl eq_refl eq_refl eq_refl).
Defined.

(** Three advances over three problems, one correct answer on the way. *)
Example three_advances_finish :
  let w := run [Start 1000; Submit (js "3"); Advance (sample_clock 2000);
                Advance (sample_clock 3000); Advance (sample_clock 4400)]
               (sample_world 3 0 false false) in
  running (cells w) = false /\
  map (fun r => (solved r, total r, durationSec r, reason r)) (history (cells w)) =
  [(1, 3, 3, js "finished")].
Proof. split; reflexivity. Qed.

(** ** The history *)

Lemma persisted_dispatch (e : Action) (w : World) :
  persisted w -> persisted (dispatch e w).
Proof.
  unfold persisted; intros [L S].
  assert (F : (exists t, e = Start t) \/ frame w (dispatch e w)).
  { destruct e; try (right; apply frame_dispatch; discriminate).
    left; eauto. }
  destruct F as [[t E]|F].
  - subst e.
    destruct (dispatch_start w t) as (_ & _ & _ & _ & _ & _ & _ & _ & H & St & _).
    rewrite H, St; auto.
  - destruct F as (_ & _ & _ & _ & _ & [[H St]|(rec & old & H & St)]).
    + rewrite H, St; auto.
    + split; [rewrite H; apply firstn_le_length | exact St].
Qed.

Lemma persisted_run (es : list Action) (w : World) :
  persisted w -> persisted (run es w).
Proof.
  revert w; induction es as [|e es IH]; intros w H; simpl; [exact H|].
  apply IH, persisted_dispatch, H.
Qed.

(** Without a stored text the cap alone is kept as well. *)
Lemma capped_run (es : list Action) (w : World) :
  (length (history (cells w)) <= 50)%nat ->
  (length (history (cells (run es w))) <= 50)%nat.
Proof.
  revert w; induction es as [|e es IH]; intros w H; simpl; [exact H|].
  apply IH.
  assert (F : (exists t, e = Start t) \/ frame w (dispatch e w)).
  { destruct e; try (right; apply frame_dispatch; discriminate).
    left; eauto. }
  destruct F as [[t E]|F].
  - subst e.
    destruct (dispatch_start w t) as (_ & _ & _ & _ & _ & _ & _ & _ & X & _).
    rewrite X; exact H.
  - destruct F as (_ & _ & _ & _ & _ & [[X _]|(rec & old & X & _)]).
    + rewrite X; exact H.
    + rewrite X; apply firstn_le_length.
Qed.

(** C5: whatever happened before, right after a [stop] its record is at
    index 0 of the history; and from then on, through any further events
    and stops, the history has at most 50 entries and the stored text is
    the JSON text of that history.  The same holds for the [stop] that
    [next] calls at the end of a batch. *)
Theorem history_capped (w : World) (es1 es2 : list Action)
    (why : option jsstring) (clk : Clock) :
  let w1 := run (es1 ++ [Stop why clk]) w in
  let w2 := run es2 w1 in
  nth_error (history (cells w1)) 0 = Some (make_record (cells (run es1 w)) why clk) /\
  (length (history (cells w2)) <= 50)%nat /\
  stored w2 = Some (JSON_stringify (history (cells w2))) /\
  (forall r why' clk' w',
     nth_error (history (cells (stop r why' clk' w'))) 0 =
       Some (make_record r why' clk') /\
     (length (history (cells (stop r why' clk' w'))) <= 50)%nat).
Proof.
  intros w1 w2.
  assert (E : w1 = dispatch (Stop why clk) (run es1 w)).
  { subst w1; rewrite run_app; reflexivity. }
  destruct (dispatch_stop (run es1 w) why clk) as (_ & H & S & Hd & L).
  rewrite <- E in H, S, Hd, L.
  assert (P : persisted w2).
  { apply persisted_run; split; [exact L | rewrite S, H; reflexivity]. }
  destruct P as [P1 P2].
  split; [rewrite H; reflexivity|].
  split; [exact P1|]; split; [exact P2|].
  intros r why' clk' w'; rewrite stop_cells; world_simpl.
  split; [reflexivity | apply firstn_le_length].
Qed.

(** Sixty stops in a row leave fifty records. *)
Example sixty_stops :
  length (history (cells (run (repeat (Stop None (sample_clock 0)) 60)
                            (sample_world 3 0 false false)))) = 50%nat.
Proof. vm_compute; reflexivity. Qed.

(** ** [JSON.parse]: the fuel is enough *)

Lemma skip_ws_le (s : jsstring) : (length (skip_ws s) <= length s)%nat.
Proof.
  induction s as [|c s IH]; simpl; [lia|].
  destruct (is_json_space c); simpl; lia.
Qed.

Lemma skip_ws_cons (s r : jsstring) (c : N) :
  skip_ws s = c :: r -> (length r < length s)%nat.
Proof.
  intro E; pose proof (skip_ws_le s) as L; rewrite E in L; simpl in L; lia.
Qed.

Lemma strip_prefix_length (p s r : jsstring) :
  strip_prefix p s = Some r -> (length r + length p = length s)%nat.
Proof.
  revert s; induction p as [|c p IH]; intros s H; simpl in H.
  - injection H as <-; simpl; lia.
  - destruct s as [|d s]; [discriminate|].
    destruct (c =? d)%N; [|discriminate].
    apply IH in H; simpl; lia.
Qed.

Lemma take_digits_le (s : jsstring) :
  forall acc k n k' r,
  take_digits s acc k = (n, k', r) -> (length r <= length s)%nat.
Proof.
  induction s as [|c s IH]; intros acc k n k' r H; simpl in H.
  - injection H as _ _ <-; simpl; lia.
  - destruct (is_digit c).
    + apply IH in H; simpl; lia.
    + injection H as _ _ <-; simpl; lia.
Qed.

Lemma parse_exponent_le (s r : jsstring) (e : Z) :
  parse_exponent s = Some (e, r) -> (length r <= length s)%nat.
Proof.
  unfold parse_exponent; destruct s as [|c s]; intro H.
  - injection H as _ <-; lia.
  - destruct ((c =? 101) || (c =? 69))%N.
    2: { injection H as _ <-; lia. }
    destruct (match s with
              | [] => (false, s)
              | d :: r' =>
                  if (d =? 45)%N then (true, r')
                  else if (d =? 43)%N then (false, r') else (false, s)
              end) as [neg r1] eqn:E.
    assert (L : (length r1 <= length s)%nat).
    { destruct s as [|d s']; [injection E as _ <-; lia|].
      destruct (d =? 45)%N; [injection E as _ <-; simpl; lia|].
      destruct (d =? 43)%N; injection E as _ <-; simpl; lia. }
    destruct (take_digits r1 0%N O) as [[n k] r2] eqn:T.
    apply take_digits_le in T.
    destruct k; [discriminate|].
    injection H as _ <-; simpl; lia.
Qed.

Lemma parse_fraction_le (int : N) (s r : jsstring) (m : N) (e : Z) :
  parse_fraction int s = Some (m, e, r) -> (length r <= length s)%nat.
Proof.
  unfold parse_fraction; destruct s as [|c s]; intro H.
  - injection H as _ _ <-; lia.
  - destruct (c =? 46)%N.
    + destruct (take_digits s int O) as [[n k] r1] eqn:T.
      apply take_digits_le in T.
      destruct k; [discriminate|].
      injection H as _ _ <-; simpl; lia.
    + injection H as _ _ <-; lia.
Qed.

Lemma parse_number_lt (s r : jsstring) (v : json) :
  parse_number s = Some (v, r) -> (length r < length s)%nat.
Proof.
  unfold parse_number.
  destruct (match s with
            | [] => (false, s)
            | c :: r0 => if (c =? 45)%N then (true, r0) else (false, s)
            end) as [neg s1] eqn:E.
  assert (L1 : (length s1 <= length s)%nat).
  { destruct s as [|c s']; [injection E as _ <-; lia|].
    destruct (c =? 45)%N; injection E as _ <-; simpl; lia. }
  destruct s1 as [|c r0]; [discriminate|].
  match goal with |- match ?x with _ => _ end = _ -> _ =>
    destruct x as [[n r1]|] eqn:I; [|discriminate] end.
  assert (L2 : (length r1 <= length r0)%nat).
  { destruct (c =? 48)%N; [injection I as _ <-; lia|].
    destruct (is_digit c) eqn:D; [|discriminate].
    cbn [take_digits] in I; rewrite D in I.
    destruct (take_digits r0 _ _) as [[n' k'] r'] eqn:T.
    apply take_digits_le in T; injection I as _ <-; exact T. }
  destruct (parse_fraction n r1) as [[[m e1] r2]|] eqn:F; [|discriminate].
  apply parse_fraction_le in F.
  destruct (parse_exponent r2) as [[e2 r3]|] eqn:X; [|discriminate].
  apply parse_exponent_le in X.
  intro H; injection H as _ <-; simpl in *; lia.
Qed.

Lemma parse_chars_lt (n : nat) :
  forall s acc str r,
  (length s <= n)%nat ->
  parse_chars s acc = Some (str, r) -> (length r < length s)%nat.
Proof.
  induction n as [|n IH]; intros s acc str r L H.
  - destruct s; [discriminate | simpl in L; lia].
  - destruct s as [|c s]; [discriminate|].
    cbn [parse_chars] in H; simpl in L.
    destruct (c =? 34)%N; [injection H as _ <-; simpl; lia|].
    destruct (c =? 92)%N.
    + destruct s as [|e s]; [discriminate|]; simpl in L.
      repeat match type of H with
             | (if ?b then _ else _) = _ =>
                 destruct b;
                 [ try (apply IH in H; [simpl; lia | lia]) | ]
             end; try discriminate.
      destruct s as [|h1 [|h2 [|h3 [|h4 s]]]]; try discriminate.
      destruct (hex4 h1 h2 h3 h4); [|discriminate].
      apply IH in H; simpl in *; lia.
    + destruct (c <? 32)%N; [discriminate|].
      apply IH in H; [simpl; lia | lia].
Qed.

(** Every successful parse consumes at least one code unit. *)
Lemma parse_progress (f : nat) :
  (forall s v r, parse_value f s = Some (v, r) -> (length r < length s)%nat) /\
  (forall u vs r, parse_elements f u = Some (vs, r) -> (length r < length u)%nat) /\
  (forall u ms r, parse_members f u = Some (ms, r) -> (length r < length u)%nat).
Proof.
  induction f as [|f (IHv & IHe & IHm)]; [repeat split; discriminate|].
  split; [|split].
  - intros s v r H; cbn [parse_value] in H.
    pose proof (skip_ws_le s) as Ls.
    destruct (skip_ws s) as [|c t] eqn:E; [discriminate|]; simpl in Ls.
    destruct (c =? 34)%N.
    { destruct (parse_chars t []) as [[str r']|] eqn:P; [|discriminate].
      apply (parse_chars_lt (length t)) in P; [|lia].
      injection H as _ <-; lia. }
    destruct (c =? 91)%N.
    { destruct (skip_ws t) as [|d r'] eqn:E2; [discriminate|].
      apply skip_ws_cons in E2.
      destruct (d =? 93)%N; [injection H as _ <-; lia|].
      destruct (parse_elements f t) as [[vs r1]|] eqn:P; [|discriminate].
      apply IHe in P; injection H as _ <-; lia. }
    destruct (c =? 123)%N.
    { destruct (skip_ws t) as [|d r'] eqn:E2; [discriminate|].
      apply skip_ws_cons in E2.
      destruct (d =? 125)%N; [injection H as _ <-; lia|].
      destruct (parse_members f t) as [[ms r1]|] eqn:P; [|discriminate].
      apply IHm in P; injection H as _ <-; lia. }
    destruct (strip_prefix (js "null") (c :: t)) as [r'|] eqn:P1.
    { apply strip_prefix_length in P1; injection H as _ <-; simpl in *; lia. }
    destruct (strip_prefix (js "true") (c :: t)) as [r'|] eqn:P2.
    { apply strip_prefix_length in P2; injection H as _ <-; simpl in *; lia. }
    destruct (strip_prefix (js "false") (c :: t)) as [r'|] eqn:P3.
    { apply strip_prefix_length in P3; injection H as _ <-; simpl in *; lia. }
    apply parse_number_lt in H; simpl in H; lia.
  - intros u vs r H; cbn [parse_elements] in H.
    destruct (parse_value f u) as [[v r1]|] eqn:P; [|discriminate].
    apply IHv in P.
    destruct (skip_ws r1) as [|e r2] eqn:E; [discriminate|].
    apply skip_ws_cons in E.
    destruct (e =? 44)%N.
    { destruct (parse_elements f r2) as [[vs' r3]|] eqn:P2; [|discriminate].
      apply IHe in P2; injection H as _ <-; lia. }
    destruct (e =? 93)%N; [|discriminate].
    injection H as _ <-; lia.
  - intros u ms r H; cbn [parse_members] in H.
    destruct (skip_ws u) as [|q u1] eqn:E0; [discriminate|].
    apply skip_ws_cons in E0.
    destruct (q =? 34)%N; [|discriminate].
    destruct (parse_chars u1 []) as [[key u2]|] eqn:K; [|discriminate].
    apply (parse_chars_lt (length u1)) in K; [|lia].
    destruct (skip_ws u2) as [|col u3] eqn:E1; [discriminate|].
    apply skip_ws_cons in E1.
    destruct (col =? 58)%N; [|discriminate].
    destruct (parse_value f u3) as [[v r1]|] eqn:P; [|discriminate].
    apply IHv in P.
    destruct (skip_ws r1) as [|e r2] eqn:E; [discriminate|].
    apply skip_ws_cons in E.
    destruct (e =? 44)%N.
    { destruct (parse_members f r2) as [[ms' r3]|] eqn:P2; [|discriminate].
      apply IHm in P2; injection H as _ <-; lia. }
    destruct (e =? 125)%N; [|discriminate].
    injection H as _ <-; lia.
Qed.

(** Beyond twice the length of the text, more fuel changes nothing. *)
Lemma parse_fuel (f : nat) :
  (forall s f', (2 * length s < f)%nat -> (f <= f')%nat ->
     parse_value f' s = parse_value f s) /\
  (forall u f', (2 * length u + 1 < f)%nat -> (f <= f')%nat ->
     parse_elements f' u = parse_elements f u) /\
  (forall u f', (2 * length u + 1 < f)%nat -> (f <= f')%nat ->
     parse_members f' u = parse_members f u).
Proof.
  induction f as [|f (IHv & IHe & IHm)]; [repeat split; intros; lia|].
  split; [|split].
  - intros s [|f'] B L; [lia|]; cbn [parse_value].
    pose proof (skip_ws_le s) as Ls.
    destruct (skip_ws s) as [|c t] eqn:E; [reflexivity|]; simpl in Ls.
    destruct (c =? 34)%N; [reflexivity|].
    destruct (c =? 91)%N.
    { destruct (skip_ws t) as [|d r'] eqn:E2; [reflexivity|].
      destruct (d =? 93)%N; [reflexivity|].
      rewrite (IHe t f') by lia; reflexivity. }
    destruct (c =? 123)%N; [|reflexivity].
    destruct (skip_ws t) as [|d r'] eqn:E2; [reflexivity|].
    destruct (d =? 125)%N; [reflexivity|].
    rewrite (IHm t f') by lia; reflexivity.
  - intros u [|f'] B L; [lia|]; cbn [parse_elements].
    rewrite (IHv u f') by lia.
    destruct (parse_value f u) as [[v r1]|] eqn:P; [|reflexivity].
    apply (proj1 (parse_progress f)) in P.
    destruct (skip_ws r1) as [|e r2] eqn:E; [reflexivity|].
    apply skip_ws_cons in E.
    destruct (e =? 44)%N; [|reflexivity].
    rewrite (IHe r2 f') by lia; reflexivity.
  - intros u [|f'] B L; [lia|]; cbn [parse_members].
    destruct (skip_ws u) as [|q u1] eqn:E0; [reflexivity|].
    apply skip_ws_cons in E0.
    destruct (q =? 34)%N; [|reflexivity].
    destruct (parse_chars u1 []) as [[key u2]|] eqn:K; [|reflexivity].
    apply (parse_chars_lt (length u1)) in K; [|lia].
    destruct (skip_ws u2) as [|col u3] eqn:E1; [reflexivity|].
    apply skip_ws_cons in E1.
    destruct (col =? 58)%N; [|reflexivity].
    rewrite (IHv u3 f') by lia.
    destruct (parse_value f u3) as [[v r1]|] eqn:P; [|reflexivity].
    apply (proj1 (parse_progress f)) in P.
    destruct (skip_ws r1) as [|e r2] eqn:E; [reflexivity|].
    apply skip_ws_cons in E.
    destruct (e =? 44)%N; [|reflexivity].
    rewrite (IHm r2 f') by lia; reflexivity.
Qed.

(** [JSON_parse] does not depend on its fuel: a text it rejects is
    rejected with any larger fuel as well. *)
Lemma JSON_parse_fuel (text : jsstring) (f : nat) :
  (2 * length text + 2 <= f)%nat ->
  parse_value f text = parse_value (2 * length text + 2) text.
Proof.
  intro L; apply (proj1 (parse_fuel (2 * length text + 2))); lia.
Qed.

(** ** The stored history *)

(** The [catch] of the initializer: it returns the empty array when
    nothing is stored and when [JSON.parse] rejects the stored text.  By
    [JSON_parse_fuel] a rejection is never a lack of fuel. *)
Theorem loadHistory_recovers (item : option jsstring) :
  item = None \/ (exists raw, item = Some raw /\ JSON_parse raw = None) ->
  loadHistory item = JArray [].
Proof.
  intros [E|(raw & E & P)]; subst item; [reflexivity|].
  unfold loadHistory; destruct raw; [reflexivity|].
  rewrite P; reflexivity.
Qed.

Lemma loadHistory_recovers_witness :
  loadHistory (Some (js "[{oops")) = JArray [].
Proof.
  apply (loadHistory_recovers (Some (js "[{oops"))).
  right; exists (js "[{oops"); split; reflexivity.
Defined.

(** A stored text that is JSON comes back as the value it denotes,
    whatever that is: the history written by [stop] as an array of objects,
    the text [null] as [null]. *)
Example loadHistory_of_stop :
  let w := run [Start 1000; Stop None (sample_clock 2000)]
               (sample_world 1 0 false false) in
  loadHistory (stored w) =
  JArray [JObject [(js "date", JString (js "2026-01-01T00:00:00.000Z"));
                   (js "problemsCount", JNumber false 1 0);
                   (js "solved", JNumber false 0 0);
                   (js "total", JNumber false 1 0);
                   (js "durationSec", JNumber false 1 0);
                   (js "reason", JString (js "user"))]].
Proof. vm_compute; reflexivity. Qed.

Example loadHistory_null : loadHistory (Some (js "null")) = JNull.
Proof. reflexivity. Qed.

(** C8: the initializer does not look at what [JSON.parse] returns.  A
    stored text that is JSON is the history from then on, whatever value
    it denotes; when that value is not an array, the [history.length] or
    the [history.map] of the first render throws.  The empty array is
    returned only for a missing or empty item and for a text that
    [JSON.parse] rejects. *)
Theorem loadHistory_unchecked (raw : jsstring) (v : json) :
  raw <> [] ->
  JSON_parse raw = Some v ->
  loadHistory (Some raw) = v /\
  (is_array v = false ->
   loadHistory (Some raw) <> JArray [] /\
   history_map_target (loadHistory (Some raw)) = None).
Proof.
  intros N P.
  assert (E : loadHistory (Some raw) = v).
  { unfold loadHistory; destruct raw; [congruence|]; rewrite P; reflexivity. }
  split; [exact E|].
  intro A; rewrite E; destruct v; try discriminate A; split;
    solve [discriminate | reflexivity].
Qed.

Lemma loadHistory_unchecked_witness :
  loadHistory (Some (js "{}")) = JObject [] /\
  (is_array (JObject []) = false ->
   loadHistory (Some (js "{}")) <> JArray [] /\
   history_map_target (loadHistory (Some (js "{}"))) = None).
Proof.
  apply (loadHistory_unchecked (js "{}") (JObject [])).
  - discriminate.
  - reflexivity.
Defined.

(** Stored texts that are JSON and no list of records: a number, [null],
    a string, an object.  Each is returned as it is, none is replaced by
    the empty array, and the first render cannot list it. *)
Example stored_value_is_not_a_list :
  loadHistory (Some (js "7")) = JNumber false 7 0 /\
  loadHistory (Some (js "null")) = JNull /\
  loadHistory (Some (quote (js "abc"))) = JString (js "abc") /\
  loadHistory (Some (js "{}")) = JObject [] /\
  history_map_target (loadHistory (Some (js "7"))) = None /\
  history_map_target (loadHistory (Some (js "null"))) = None /\
  history_map_target (loadHistory (Some (quote (js "abc")))) = None /\
  history_map_target (loadHistory (Some (js "{}"))) = None /\
  history_map_target (loadHistory None) = Some [].
Proof. vm_compute; repeat split; reflexivity. Qed.

(** ** The timer *)

Lemma setElapsed_same (c : Cells) (z : Z) :
  z = 0 -> setElapsed (elapsed c + z) c = c.
Proof. intro E; subst z; rewrite Z.add_0_r; destruct c; reflexivity. Qed.

Lemma setElapsed_twice (c : Cells) (x y : Z) :
  setElapsed x (setElapsed y c) = setElapsed x c.
Proof. reflexivity. Qed.

(** A tick with time left only counts. *)
Lemma tick_waiting (w : World) (r : Cells) (t : Z) (clk : Clock) :
  interval w = Some (mkInterval r t) -> 1 < t ->
  dispatch (Tick clk) w =
  setInterval (Some (mkInterval r (t - 1)))
    (update (fun c => setElapsed (elapsed c + 1) c) w).
Proof.
  intros H L; unfold dispatch, handle, tick; rewrite H; cbv zeta.
  cbn [closure timeLeft].
  destruct (Z.leb_spec (t - 1) 0) as [X|_]; [lia|].
  rewrite commit_same; reflexivity.
Qed.

Lemma ticks_waiting (clks : list Clock) :
  forall (w : World) (r : Cells) (t : Z),
  interval w = Some (mkInterval r t) ->
  Z.of_nat (length clks) < t ->
  let w' := run (map Tick clks) w in
  interval w' = Some (mkInterval r (t - Z.of_nat (length clks))) /\
  cells w' = setElapsed (elapsed (cells w) + Z.of_nat (length clks)) (cells w) /\
  stored w' = stored w /\ timeouts w' = timeouts w.
Proof.
  induction clks as [|clk clks IH]; intros w r t H L.
  - simpl; rewrite Z.sub_0_r, setElapsed_same; auto.
  - cbn [map run]; rewrite (tick_waiting w r t clk H).
    2: { cbn [length] in L; lia. }
    match goal with |- context [run _ ?w1] =>
      destruct (IH w1 r (t - 1)) as (I & C & S & T)
    end.
    + reflexivity.
    + cbn [length] in L; lia.
    + cbv zeta; rewrite I, C, S, T; world_simpl.
      repeat split; auto.
      * do 2 f_equal; cbn [length]; lia.
      * rewrite setElapsed_twice; f_equal; cbn [length]; lia.
Qed.

(** C6: the timer effect has just started the interval for a running
    render with a current problem and a limit of [T] seconds.  Through the
    first [T - 1] ticks only the elapsed time moves.  The [T]-th tick
    writes the feedback [{ok: false, correct: a + b}] of the current
    problem; with [autoNext] on, the same callback then calls [next], and
    with [autoNext] off the component stays running with that feedback. *)
Theorem timer_expiry (w0 : World) (p : Problem) (clks : list Clock) (clk : Clock) :
  let c := cells w0 in
  running c = true ->
  0 < timePerProblem c ->
  current c = Some p ->
  Z.of_nat (length clks) = timePerProblem c - 1 ->
  let w1 := run (map Tick clks) (timer_effect c w0) in
  (running (cells w1) = true /\ index (cells w1) = index c /\
   feedback (cells w1) = feedback c /\ elapsed (cells w1) = timePerProblem c - 1) /\
  exists wmid,
    feedback (cells wmid) = Some (mkFeedback false (Some (a p + b p))) /\
    running (cells wmid) = true /\
    index (cells wmid) = index c /\
    elapsed (cells wmid) = timePerProblem c /\
    handle (Tick clk) w1 = (if autoNext c then next c clk wmid else wmid) /\
    (autoNext c = false -> dispatch (Tick clk) w1 = wmid).
Proof.
  intros c R T C L w1.
  assert (E : timer_effect c w0 =
              setInterval (Some (mkInterval c (timePerProblem c)))
                (update (setElapsed 0) w0)).
  { unfold timer_effect; rewrite R; cbn [negb].
    destruct (Z.ltb_spec 0 (timePerProblem c)); [reflexivity | lia]. }
  destruct (ticks_waiting clks (timer_effect c w0) c (timePerProblem c))
    as (I & Cs & _ & _).
  { rewrite E; reflexivity. }
  { lia. }
  fold w1 in I, Cs.
  rewrite E in Cs; cbn [cells update setInterval] in Cs.
  fold c in Cs.
  replace (timePerProblem c - Z.of_nat (length clks)) with 1 in I by lia.
  split.
  - rewrite Cs; world_simpl; repeat split; auto; lia.
  - unfold dispatch, handle, tick; rewrite I; cbv zeta; cbn [closure timeLeft].
    change (1 - 1 <=? 0) with true; cbv iota.
    match goal with |- context [next c clk ?v] => exists v end.
    unfold expired_feedback; unfold current in C; rewrite C.
    world_simpl; rewrite Cs; world_simpl.
    repeat split; auto; try lia.
    intro A; rewrite A.
    apply commit_same; world_simpl; rewrite Cs; reflexivity.
Qed.

Lemma timer_expiry_witness :
  let w0 := start (cells (sample_world 3 2 true false)) 1000
              (sample_world 3 2 true false) in
  let c := cells w0 in
  let clk := sample_clock 3000 in
  let w1 := run (map Tick [sample_clock 2000]) (timer_effect c w0) in
  (running (cells w1) = true /\ index (cells w1) = index c /\
   feedback (cells w1) = feedback c /\ elapsed (cells w1) = timePerProblem c - 1) /\
  exists wmid,
    feedback (cells wmid) = Some (mkFeedback false (Some (0 + 3))) /\
    running (cells wmid) = true /\
    index (cells wmid) = index c /\
    elapsed (cells wmid) = timePerProblem c /\
    handle (Tick clk) w1 = (if autoNext c then next c clk wmid else wmid) /\
    (autoNext c = false -> dispatch (Tick clk) w1 = wmid).
Proof.
  exact (timer_expiry
           (start (cells (sample_world 3 2 true false)) 1000
              (sample_world 3 2 true false))
           (mkProblem 0 3 (js "+") (problem_id 0 3 0))
           [sample_clock 2000] (sample_clock 3000)
           eq_refl eq_refl eq_refl eq_refl).
Defined.

(** A limit of five seconds and no answer: with [autoNext] on the fifth
    tick moves to the second problem, with [autoNext] off it leaves the
    first problem with the feedback of a wrong answer. *)
Example five_ticks_auto :
  let w := run (Start 1000 :: map Tick (repeat (sample_clock 2000) 5))
               (sample_world 3 5 true false) in
  running (cells w) = true /\ index (cells w) = 1%nat /\
  feedback (cells w) = None /\ elapsed (cells w) = 0.
Proof. repeat split; reflexivity. Qed.

Example five_ticks_manual :
  let w := run (Start 1000 :: map Tick (repeat (sample_clock 2000) 5))
               (sample_world 3 5 false false) in
  running (cells w) = true /\ index (cells w) = 0%nat /\
  feedback (cells w) = Some (mkFeedback false (Some 3)) /\ elapsed (cells w) = 5.
Proof. repeat split; reflexivity. Qed.

(** ** Closures *)

(** C3: the handlers of a render see the cells of that render.  A
    pending auto-advance runs the [next] of the render that scheduled it,
    and the [stop] that this [next] calls at the end of the batch builds
    its record from the score of that render and not from the current
    score: when the answer to the last problem was correct, from the score
    before that answer.  The component was running when this [stop] was
    called, and its record is the one at the front of the history. *)
Theorem auto_advance_keeps_its_render (w : World) (p : Problem)
    (txt : jsstring) (clk : Clock) :
  running (cells w) = true ->
  autoNext (cells w) = true ->
  timeouts w = [] ->
  current (cells w) = Some p ->
  length (problems (cells w)) = S (index (cells w)) ->
  answer_ok p txt = true ->
  let w1 := dispatch (Submit txt) w in
  let w2 := dispatch (Timeout clk) w1 in
  let rec := make_record (cells w) (Some (js "finished")) clk in
  running (cells w1) = true /\
  score (cells w1) = score (cells w) + 1 /\
  running (cells w2) = false /\
  hd_error (history (cells w2)) = Some rec /\
  solved rec = score (cells w) /\
  solved rec <> score (cells w1).
Proof.
  intros R A T C L K w1 w2 rec.
  destruct (checkAnswer_shape w p txt R C) as (S1 & R1 & _).
  fold w1 in S1, R1; rewrite K in S1.
  assert (E : timeouts w1 = [cells w]).
  { subst w1; rewrite dispatch_submit.
    unfold checkAnswer; unfold current in C; rewrite R, C, A; cbn [negb].
    fold (answer_ok p txt); rewrite K; world_simpl; rewrite T; reflexivity. }
  assert (H : running (cells w2) = false /\ hd_error (history (cells w2)) = Some rec).
  { subst w2; unfold dispatch, handle, fire_timeout; rewrite E.
    rewrite (commit_proj running), (commit_proj history) by reflexivity.
    unfold next.
    replace (index (cells w) + 1 <? length (problems (cells w)))%nat with false
      by (symmetry; apply Nat.ltb_ge; lia).
    rewrite stop_cells; world_simpl; split; reflexivity. }
  destruct H as [R2 Hd].
  repeat split; auto.
  rewrite S1; change (solved rec) with (score (cells w)); lia.
Qed.

Lemma auto_advance_keeps_its_render_witness :
  let w := drill_world [five_plus_seven] true in
  let w1 := dispatch (Submit (js "12")) w in
  let w2 := dispatch (Timeout (sample_clock 3000)) w1 in
  let rec := make_record (cells w) (Some (js "finished")) (sample_clock 3000) in
  running (cells w1) = true /\
  score (cells w1) = score (cells w) + 1 /\
  running (cells w2) = false /\
  hd_error (history (cells w2)) = Some rec /\
  solved rec = score (cells w) /\
  solved rec <> score (cells w1).
Proof.
  apply (auto_advance_keeps_its_render (drill_world [five_plus_seven] true)
           five_plus_seven (js "12") (sample_clock 3000)); reflexivity.
Defined.

(** The same on a run with the default [autoNext]: a batch of one problem
    is started, the problem is 0 + 3, the answer ["3"] is checked, and half
    a second later the scheduled [next] ends the run.  The live score is 1
    and the record of the finished run has [solved = 0]. *)
Example finished_record_misses_last_answer :
  let w0 := run [Start 1000] (sample_world 1 0 true false) in
  let w1 := dispatch (Submit (js "3")) w0 in
  let w2 := dispatch (Timeout (sample_clock 3000)) w1 in
  map (fun p => (a p, b p)) (problems (cells w0)) = [(0, 3)] /\
  running (cells w1) = true /\ score (cells w1) = 1 /\
  running (cells w2) = false /\
  map (fun r => (solved r, total r, reason r)) (history (cells w2)) =
  [(0, 1, js "finished")].
Proof. repeat split; reflexivity. Qed.

(** An empty batch: the component runs with no current problem, and one
    advance ends the run. *)
Example empty_batch :
  let w := run [Start 1000] (sample_world 0 0 false false) in
  let w' := dispatch (Advance (sample_clock 2000)) w in
  running (cells w) = true /\ current (cells w) = None /\
  running (cells w') = false /\
  map (fun r => (solved r, total r, reason r)) (history (cells w')) =
  [(0, 0, js "finished")].
Proof. repeat split; reflexivity. Qed.

(** * More of the code *)

(** ** What [stop] stores, [JSON.parse] reads back *)

Lemma hex_value_digit (d : N) : (d < 16)%N -> hex_value (hex_digit d) = Some d.
Proof.
  intro H; unfold hex_digit, hex_value, is_digit.
  destruct (N.ltb_spec d 10).
  - rewrite (proj2 (N.leb_le 48 (48 + d))), (proj2 (N.leb_le (48 + d) 57)) by lia.
    cbn [andb]; f_equal; lia.
  - rewrite (proj2 (N.leb_le 48 (87 + d))), (proj2 (N.leb_gt (87 + d) 57)) by lia.
    rewrite (proj2 (N.leb_le 97 (87 + d))), (proj2 (N.leb_le (87 + d) 102)) by lia.
    cbn [andb]; f_equal; lia.
Qed.

Lemma hex4_escape (c : N) :
  (c < 65536)%N ->
  hex4 (hex_digit (c / 4096 mod 16)) (hex_digit (c / 256 mod 16))
       (hex_digit (c / 16 mod 16)) (hex_digit (c mod 16)) = Some c.
Proof.
  intro H; unfold hex4.
  rewrite !hex_value_digit by (apply N.mod_upper_bound; discriminate).
  f_equal.
  assert (E2 : (c / 256 = c / 16 / 16)%N) by (rewrite N.Div0.div_div; reflexivity).
  assert (E3 : (c / 4096 = c / 256 / 16)%N) by (rewrite N.Div0.div_div; reflexivity).
  pose proof (N.div_mod c 16) as D1.
  pose proof (N.div_mod (c / 16) 16) as D2.
  pose proof (N.div_mod (c / 256) 16) as D3.
  assert (S3 : (c / 4096 < 16)%N) by (apply N.Div0.div_lt_upper_bound; lia).
  rewrite (N.mod_small (c / 4096) 16) by exact S3.
  rewrite <- E2 in D2; rewrite <- E3 in D3.
  lia.
Qed.

Lemma parse_chars_escape (c : N) (x acc : jsstring) :
  (c < 65536)%N ->
  parse_chars (unicode_escape c ++ x) acc = parse_chars x (c :: acc).
Proof.
  intro H; unfold unicode_escape.
  cbn [app parse_chars N.eqb Pos.eqb].
  rewrite (hex4_escape c H); reflexivity.
Qed.

(** Reading a quoted string gives the string back, whatever follows the
    closing quote. *)
Lemma parse_chars_quote (n : nat) :
  forall s acc rest,
  (length s <= n)%nat ->
  parse_chars (quote_units s ++ 34%N :: rest) acc = Some (rev acc ++ s, rest).
Proof.
  induction n as [|n IH]; intros s acc rest L.
  - destruct s; [|simpl in L; lia].
    simpl; rewrite app_nil_r; reflexivity.
  - destruct s as [|c s]; [simpl; rewrite app_nil_r; reflexivity|].
    simpl in L.
    assert (Step : forall t, (length t <= n)%nat ->
              parse_chars (quote_units t ++ 34%N :: rest) (c :: acc) =
              Some (rev acc ++ c :: t, rest)).
    { intros t Lt; rewrite IH by exact Lt.
      simpl; rewrite <- app_assoc; reflexivity. }
    cbn [quote_units].
    destruct (c =? 8)%N eqn:E8; [eqb_subst; apply Step; lia|].
    destruct (c =? 9)%N eqn:E9; [eqb_subst; apply Step; lia|].
    destruct (c =? 10)%N eqn:E10; [eqb_subst; apply Step; lia|].
    destruct (c =? 12)%N eqn:E12; [eqb_subst; apply Step; lia|].
    destruct (c =? 13)%N eqn:E13; [eqb_subst; apply Step; lia|].
    destruct (c =? 34)%N eqn:E34; [eqb_subst; apply Step; lia|].
    destruct (c =? 92)%N eqn:E92; [eqb_subst; apply Step; lia|].
    destruct (c <? 32)%N eqn:E32.
    { rewrite <- app_assoc, parse_chars_escape
        by (apply N.ltb_lt in E32; lia).
      apply Step; lia. }
    assert (Raw : forall x, parse_chars (c :: x) acc = parse_chars x (c :: acc)).
    { intro x; cbn [parse_chars]; rewrite E34, E92, E32; reflexivity. }
    destruct (is_high_surrogate c) eqn:Eh.
    { assert (Hc : (c < 65536)%N).
      { unfold is_high_surrogate in Eh; apply andb_prop in Eh.
        destruct Eh as [_ Eh]; apply N.leb_le in Eh; lia. }
      destruct s as [|d s].
      - cbn [app]; rewrite parse_chars_escape by exact Hc.
        apply (Step []); simpl; lia.
      - destruct (is_low_surrogate d) eqn:El.
        + assert (Hd : (56320 <= d)%N).
          { unfold is_low_surrogate in El; apply andb_prop in El.
            destruct El as [El _]; apply N.leb_le in El; exact El. }
          cbn [app]; rewrite Raw.
          cbn [parse_chars].
          rewrite (proj2 (N.eqb_neq d 34)), (proj2 (N.eqb_neq d 92)) by lia.
          rewrite (proj2 (N.ltb_ge d 32)) by lia.
          rewrite IH by (simpl in L; lia).
          simpl; rewrite <- !app_assoc; reflexivity.
        + rewrite <- app_assoc, parse_chars_escape by exact Hc.
          apply Step; lia. }
    destruct (is_low_surrogate c) eqn:El.
    { assert (Hc : (c < 65536)%N).
      { unfold is_low_surrogate in El; apply andb_prop in El.
        destruct El as [_ El]; apply N.leb_le in El; lia. }
      rewrite <- app_assoc, parse_chars_escape by exact Hc.
      apply Step; lia. }
    cbn [app]; rewrite Raw; apply Step; lia.
Qed.

Lemma nzhead_not_D0 (d l : Decimal.uint) : Decimal.nzhead d <> Decimal.D0 l.
Proof. induction d; simpl; try discriminate; exact IHd. Qed.

(** The numeral of a positive number starts with a digit other than 0. *)
Lemma to_uint_head (p : positive) :
  exists c m, uint_units (Pos.to_uint p) = c :: m /\
              is_digit c = true /\ (c =? 48)%N = false.
Proof.
  pose proof (DecimalPos.Unsigned.to_of (Pos.to_uint p)) as E.
  rewrite DecimalPos.Unsigned.of_to in E; simpl in E.
  pose proof (DecimalPos.Unsigned.to_uint_nonzero p) as Z.
  pose proof (DecimalPos.Unsigned.to_uint_nonnil p) as Nn.
  destruct (Pos.to_uint p) as [|l|l|l|l|l|l|l|l|l|l] eqn:U;
    try (eexists; eexists; simpl; repeat split; reflexivity).
  - congruence.
  - exfalso; unfold Decimal.unorm in E; simpl in E.
    destruct (Decimal.nzhead l) eqn:H; try discriminate E.
    + injection E as ->; apply Z; reflexivity.
    + apply (nzhead_not_D0 l u); exact H.
Qed.

(** A run of digits followed by something else: [take_digits] reads what
    [read_digits] reads and stops there. *)
Lemma take_digits_run (s : jsstring) :
  forallb is_digit s = true ->
  forall acc k c rest v,
  is_digit c = false ->
  read_digits s acc true = Some v ->
  take_digits (s ++ c :: rest) acc k = (v, (k + length s)%nat, c :: rest).
Proof.
  induction s as [|d s IH]; intros D acc k c rest v Hc R; simpl in *.
  - rewrite Hc; injection R as <-; f_equal; f_equal; lia.
  - apply andb_prop in D; destruct D as [Dd D]; rewrite Dd in *.
    rewrite (IH D _ (S k) c rest v Hc R); f_equal; f_equal; lia.
Qed.

Lemma separator_facts (c : N) :
  is_separator c = true ->
  is_digit c = false /\ (c =? 46)%N = false /\
  ((c =? 101) || (c =? 69))%N = false /\ is_json_space c = false /\
  (c =? 45)%N = false.
Proof.
  unfold is_separator; intro H.
  apply orb_prop in H; destruct H as [H|H];
    [apply orb_prop in H; destruct H as [H|H]|];
    apply N.eqb_eq in H; subst c; repeat split; reflexivity.
Qed.

(** [JSON.parse] reads the numeral that [JSON.stringify] writes for an
    integer. *)
Lemma parse_number_decimal (z : Z) (c : N) (rest : jsstring) :
  is_separator c = true ->
  parse_number (decimal z ++ c :: rest) = Some (number_json z, c :: rest).
Proof.
  intro Hs; destruct (separator_facts c Hs) as (Hd & Hp & He & _ & Hm).
  assert (Tail : forall n neg,
            match parse_fraction n (c :: rest) with
            | Some (m, e1, r2) =>
                match parse_exponent r2 with
                | Some (e2, r3) => Some (JNumber neg m (e1 + e2), r3)
                | None => None
                end
            | None => None
            end = Some (JNumber neg n 0, c :: rest)).
  { intros n neg; unfold parse_fraction; rewrite Hp.
    unfold parse_exponent; rewrite He; reflexivity. }
  assert (Run : forall p,
            take_digits (uint_units (Pos.to_uint p) ++ c :: rest) 0%N O =
            (Npos p, length (uint_units (Pos.to_uint p)), c :: rest)).
  { intro p; pose proof (read_digits_pos p) as R.
    destruct (to_uint_head p) as (d & m & E & _).
    rewrite read_digits_seen in R
      by (try apply uint_units_digits; rewrite E; discriminate).
    exact (take_digits_run _ (uint_units_digits _) 0%N O c rest (Npos p) Hd R). }
  unfold parse_number, number_json; destruct z as [|p|p].
  - cbn [decimal app N.eqb Pos.eqb Z.ltb Z.compare Z.abs_N].
    apply Tail.
  - cbn [decimal Z.ltb Z.compare Z.abs_N].
    destruct (to_uint_head p) as (d & m & E & Dd & D0).
    assert (Hm' : (d =? 45)%N = false).
    { unfold is_digit in Dd; apply andb_prop in Dd; destruct Dd as [D1 _].
      apply N.leb_le in D1; apply N.eqb_neq; lia. }
    specialize (Run p); rewrite E in *; cbn [app] in *.
    rewrite Hm', D0, Dd, Run; apply Tail.
  - cbn [decimal app N.eqb Pos.eqb Z.ltb Z.compare Z.abs_N].
    destruct (to_uint_head p) as (d & m & E & Dd & D0).
    specialize (Run p); rewrite E in *; cbn [app] in *.
    rewrite D0, Dd, Run; apply Tail.
Qed.

Lemma decimal_head (z : Z) :
  exists d m, decimal z = d :: m /\ (45 <= d <= 57)%N.
Proof.
  destruct z as [|p|p]; simpl.
  - exists 48%N, []; split; [reflexivity | lia].
  - destruct (to_uint_head p) as (d & m & E & Dd & _).
    exists d, m; split; [exact E|].
    unfold is_digit in Dd; apply andb_prop in Dd; destruct Dd as [D1 D2].
    apply N.leb_le in D1, D2; lia.
  - eexists; eexists; split; [reflexivity | lia].
Qed.

Lemma parse_value_string (f : nat) (s rest : jsstring) :
  parse_value (S f) (quote s ++ rest) = Some (JString s, rest).
Proof.
  unfold quote; cbn [app]; rewrite <- app_assoc; cbn [app].
  cbn [parse_value skip_ws is_json_space N.eqb Pos.eqb orb].
  rewrite (parse_chars_quote (length s)) by lia; reflexivity.
Qed.

Lemma parse_value_number (f : nat) (z : Z) (c : N) (rest : jsstring) :
  is_separator c = true ->
  parse_value (S f) (decimal z ++ c :: rest) = Some (number_json z, c :: rest).
Proof.
  intro Hs; rewrite <- (parse_number_decimal z c rest Hs).
  destruct (decimal_head z) as (d & m & E & B); rewrite E; cbn [app].
  cbn [parse_value skip_ws]; unfold is_json_space.
  rewrite (proj2 (N.eqb_neq d 9)), (proj2 (N.eqb_neq d 10)),
    (proj2 (N.eqb_neq d 13)), (proj2 (N.eqb_neq d 32)) by lia.
  cbn [orb].
  rewrite (proj2 (N.eqb_neq d 34)), (proj2 (N.eqb_neq d 91)),
    (proj2 (N.eqb_neq d 123)) by lia.
  assert (Miss : forall c0 p x, (c0 <> d)%N -> strip_prefix (c0 :: p) (d :: x) = None).
  { intros c0 p x H; simpl; rewrite (proj2 (N.eqb_neq c0 d) H); reflexivity. }
  change (js "null") with (110%N :: js "ull").
  change (js "true") with (116%N :: js "rue").
  change (js "false") with (102%N :: js "alse").
  rewrite !Miss by lia; reflexivity.
Qed.

Lemma skip_ws_stop (c : N) (s : jsstring) :
  is_json_space c = false -> skip_ws (c :: s) = c :: s.
Proof. intro H; simpl; rewrite H; reflexivity. Qed.

(** One member of an object, followed by a comma and the other members,
    or by the closing brace. *)
Lemma parse_members_cons (f : nat) (key vtext rest r3 : jsstring) (v : json)
    (ms : list (jsstring * json)) :
  parse_value f (vtext ++ 44%N :: rest) = Some (v, 44%N :: rest) ->
  parse_members f rest = Some (ms, r3) ->
  parse_members (S f) (quote key ++ 58%N :: vtext ++ 44%N :: rest) =
  Some ((key, v) :: ms, r3).
Proof.
  intros V M; unfold quote; cbn [app]; rewrite <- app_assoc; cbn [app].
  cbn [parse_members]; rewrite skip_ws_stop by reflexivity.
  cbn [N.eqb Pos.eqb].
  rewrite (parse_chars_quote (length key)) by lia; cbn [rev app].
  rewrite skip_ws_stop by reflexivity; cbn [N.eqb Pos.eqb].
  rewrite V, skip_ws_stop by reflexivity; cbn [N.eqb Pos.eqb].
  rewrite M; reflexivity.
Qed.

Lemma parse_members_last (f : nat) (key vtext rest : jsstring) (v : json) :
  parse_value f (vtext ++ 125%N :: rest) = Some (v, 125%N :: rest) ->
  parse_members (S f) (quote key ++ 58%N :: vtext ++ 125%N :: rest) =
  Some ([(key, v)], rest).
Proof.
  intros V; unfold quote; cbn [app]; rewrite <- app_assoc; cbn [app].
  cbn [parse_members]; rewrite skip_ws_stop by reflexivity.
  cbn [N.eqb Pos.eqb].
  rewrite (parse_chars_quote (length key)) by lia; cbn [rev app].
  rewrite skip_ws_stop by reflexivity; cbn [N.eqb Pos.eqb].
  rewrite V, skip_ws_stop by reflexivity; cbn [N.eqb Pos.eqb].
  reflexivity.
Qed.

(** [JSON.parse] reads one record as [JSON.stringify] writes it. *)
Lemma parse_value_record (f : nat) (r : HistRecord) (rest : jsstring) :
  parse_value (8 + f) (stringify_record r ++ rest) = Some (record_json r, rest).
Proof.
  unfold stringify_record, record_json.
  change (js "{") with [123%N]; change (js "}") with [125%N].
  change (js ",") with [44%N]; change (js ":") with [58%N].
  repeat rewrite <- app_assoc; cbn [app].
  change (8 + f)%nat with (S (7 + f)).
  cbn [parse_value]; rewrite skip_ws_stop by reflexivity.
  cbn [N.eqb Pos.eqb].
  match goal with |- context [skip_ws (quote ?k ++ ?x)] =>
    replace (skip_ws (quote k ++ x)) with (quote k ++ x) by reflexivity
  end.
  cbn [quote app N.eqb Pos.eqb].
  match goal with |- context [parse_members _ ?t] =>
    change t with (quote (js "date") ++ 58%N :: quote (date r) ++ 44%N ::
                   quote (js "problemsCount") ++ 58%N :: decimal (problemsCount r) ++ 44%N ::
                   quote (js "solved") ++ 58%N :: decimal (solved r) ++ 44%N ::
                   quote (js "total") ++ 58%N :: decimal (total r) ++ 44%N ::
                   quote (js "durationSec") ++ 58%N :: decimal (durationSec r) ++ 44%N ::
                   quote (js "reason") ++ 58%N :: quote (reason r) ++ 125%N :: rest)
  end.
  change (7 + f)%nat with (S (S (S (S (S (S (S f))))))).
  rewrite (parse_members_cons _ _ _ _ rest (JString (date r))
             [(js "problemsCount", number_json (problemsCount r));
              (js "solved", number_json (solved r));
              (js "total", number_json (total r));
              (js "durationSec", number_json (durationSec r));
              (js "reason", JString (reason r))]); [reflexivity | | ].
  - apply parse_value_string.
  - apply parse_members_cons; [apply parse_value_number; reflexivity|].
    apply parse_members_cons; [apply parse_value_number; reflexivity|].
    apply parse_members_cons; [apply parse_value_number; reflexivity|].
    apply parse_members_cons; [apply parse_value_number; reflexivity|].
    apply parse_members_last, parse_value_string.
Qed.

Lemma stringify_record_head (r : HistRecord) (x : jsstring) :
  exists t, stringify_record r ++ x = 123%N :: t.
Proof. eexists; reflexivity. Qed.

(** The items of the array, up to its closing bracket. *)
Lemma parse_elements_items (h : list HistRecord) :
  h <> [] ->
  forall f rest,
  parse_elements (length h + 8 + f) (stringify_items h ++ 93%N :: rest) =
  Some (map record_json h, rest).
Proof.
  induction h as [|r h IH]; [congruence|]; intros _ f rest.
  destruct h as [|r2 h].
  - change (length [r] + 8 + f)%nat with (S (8 + f)).
    cbn [stringify_items map parse_elements].
    rewrite (parse_value_record f r (93%N :: rest)).
    rewrite skip_ws_stop by reflexivity; reflexivity.
  - change (stringify_items (r :: r2 :: h))
      with (stringify_record r ++ js "," ++ stringify_items (r2 :: h)).
    change (js ",") with [44%N].
    repeat rewrite <- app_assoc; cbn [app].
    change (length (r :: r2 :: h) + 8 + f)%nat
      with (S (length (r2 :: h) + 8 + f)).
    cbn [parse_elements].
    replace (length (r2 :: h) + 8 + f)%nat with (8 + (length (r2 :: h) + f))%nat
      at 1 by lia.
    rewrite parse_value_record, skip_ws_stop by reflexivity.
    cbn [N.eqb Pos.eqb].
    rewrite IH by discriminate; reflexivity.
Qed.

Lemma JSON_parse_stringify (h : list HistRecord) :
  JSON_parse (JSON_stringify h) = Some (history_json h).
Proof.
  destruct h as [|r h]; [reflexivity|].
  unfold JSON_parse.
  set (text := JSON_stringify (r :: h)).
  set (F := (2 * length text + 2 + length (r :: h) + 8)%nat).
  rewrite <- (JSON_parse_fuel text (S F)) by lia.
  assert (P : parse_value (S F) text = Some (history_json (r :: h), [])).
  { subst text; unfold JSON_stringify.
    change (js "[") with [91%N]; change (js "]") with [93%N]; cbn [app].
    cbn [parse_value]; rewrite skip_ws_stop by reflexivity.
    cbn [N.eqb Pos.eqb].
    destruct (stringify_record_head r
                (match h with [] => [] | _ :: _ => js "," ++ stringify_items h end
                 ++ [93%N])) as [t Et].
    assert (Eh : stringify_items (r :: h) ++ [93%N] = 123%N :: t).
    { rewrite <- Et; destruct h; cbn [stringify_items];
        rewrite <- ?app_assoc; reflexivity. }
    rewrite Eh, skip_ws_stop by reflexivity; cbn [N.eqb Pos.eqb].
    rewrite <- Eh.
    replace F with (length (r :: h) + 8 + (2 * length (JSON_stringify (r :: h)) + 2))%nat
      by (subst F; unfold JSON_stringify;
          change (js "[") with [91%N]; change (js "]") with [93%N]; lia).
    rewrite parse_elements_items by discriminate; reflexivity. }
  rewrite P; reflexivity.
Qed.

(** X1: [JSON.parse] reads the text of [JSON.stringify] back as the same
    records, in the same order, whatever code units the dates and reasons
    hold; so the initializer of the history, given that text, returns
    those records and not its fallback. *)
Theorem history_text_round_trip (h : list HistRecord) :
  JSON_parse (JSON_stringify h) = Some (history_json h) /\
  loadHistory (Some (JSON_stringify h)) = history_json h.
Proof.
  split; [apply JSON_parse_stringify|].
  unfold loadHistory; rewrite JSON_parse_stringify.
  unfold JSON_stringify; reflexivity.
Qed.

(** X2: once a [stop] has happened, whatever follows, the text in the
    store is one that the initializer of a new mount reads back as the
    history the component holds. *)
Theorem reload_gives_history (w : World) (es1 es2 : list Action)
    (why : option jsstring) (clk : Clock) :
  let w' := run (es1 ++ Stop why clk :: es2) w in
  exists text, stored w' = Some text /\
               loadHistory (Some text) = history_json (history (cells w')).
Proof.
  intro w'.
  assert (P : persisted w').
  { subst w'; rewrite run_app; cbn [run]; apply persisted_run.
    destruct (dispatch_stop (run es1 w) why clk) as (_ & H & S & _ & L).
    split; [exact L | rewrite S, H; reflexivity]. }
  destruct P as [_ S]; exists (JSON_stringify (history (cells w'))).
  split; [exact S|].
  unfold loadHistory; rewrite JSON_parse_stringify.
  unfold JSON_stringify; reflexivity.
Qed.

(** ** [exportCsv] *)

Lemma unreserved_not_surrogate (c : N) :
  is_unreserved c = true ->
  is_high_surrogate c = false /\ is_low_surrogate c = false.
Proof.
  unfold is_high_surrogate, is_low_surrogate; intro H.
  assert (B : (c <= 126)%N).
  { unfold is_unreserved, is_digit in H.
    repeat (apply orb_prop in H; destruct H as [H|H]);
      try (apply N.eqb_eq in H; lia);
      apply andb_prop in H; destruct H as [_ H]; apply N.leb_le in H; lia. }
  rewrite (proj2 (N.leb_gt 55296 c)), (proj2 (N.leb_gt 56320 c)) by lia.
  split; reflexivity.
Qed.

(** [encodeURIComponent] throws exactly at the texts with a lone
    surrogate. *)
Lemma encode_fails (n : nat) :
  forall s, (length s <= n)%nat ->
  (encodeURIComponent s = None <-> well_formed s = false).
Proof.
  induction n as [|n IH]; intros s L.
  - destruct s; [simpl; split; discriminate | simpl in L; lia].
  - destruct s as [|c s]; [simpl; split; discriminate|]; simpl in L.
    assert (M : forall (f : jsstring -> jsstring) t b, (length t <= n)%nat ->
              (option_map f (encodeURIComponent t) = None <->
               b && well_formed t = false) \/ b = false).
    { intros f t b Lt; destruct b; [left|right; reflexivity].
      rewrite <- (IH t Lt); destruct (encodeURIComponent t); simpl; split;
        congruence. }
    cbn [encodeURIComponent well_formed].
    destruct (is_unreserved c) eqn:U.
    + destruct (unreserved_not_surrogate c U) as [Hh Hl]; rewrite Hh, Hl.
      destruct (M (cons c) s true) as [X|X]; [lia | exact X | discriminate].
    + destruct (is_high_surrogate c).
      * destruct s as [|d s]; [tauto|]; simpl in L.
        destruct (is_low_surrogate d); [|tauto].
        destruct (M (app (flat_map percent (utf8 (pair_code_point c d)))) s true)
          as [X|X]; [lia | exact X | discriminate].
      * destruct (is_low_surrogate c); [tauto|].
        destruct (M (app (flat_map percent (utf8 c))) s true)
          as [X|X]; [lia | exact X | discriminate].
Qed.

Lemma hex_upper_unreserved (d : N) :
  (d < 16)%N -> is_unreserved (hex_upper d) = true.
Proof.
  intro H; unfold hex_upper, is_unreserved, is_digit.
  destruct (N.ltb_spec d 10).
  - rewrite (proj2 (N.leb_le 48 (48 + d))), (proj2 (N.leb_le (48 + d) 57)) by lia.
    cbn [andb]; rewrite !orb_true_r; reflexivity.
  - rewrite (proj2 (N.leb_le 65 (55 + d))), (proj2 (N.leb_le (55 + d) 90)) by lia.
    reflexivity.
Qed.

Lemma percent_uri (b : N) :
  (b < 256)%N -> forallb is_uri_char (percent b) = true.
Proof.
  intro H; unfold percent, is_uri_char; cbn [forallb].
  rewrite !hex_upper_unreserved.
  - reflexivity.
  - apply N.mod_upper_bound; discriminate.
  - apply N.Div0.div_lt_upper_bound; lia.
Qed.

Lemma utf8_octets (cp : N) :
  (cp < 1114112)%N -> Forall (fun b => (b < 256)%N) (utf8 cp).
Proof.
  intro H; unfold utf8.
  assert (M : forall x, (x mod 64 < 64)%N)
    by (intro; apply N.mod_upper_bound; discriminate).
  destruct (N.ltb_spec cp 128); [repeat constructor; lia|].
  destruct (N.ltb_spec cp 2048).
  { assert (cp / 64 < 32)%N by (apply N.Div0.div_lt_upper_bound; lia).
    pose proof (M cp); repeat constructor; lia. }
  destruct (N.ltb_spec cp 65536).
  { assert (cp / 4096 < 16)%N by (apply N.Div0.div_lt_upper_bound; lia).
    pose proof (M cp); pose proof (M (cp / 64)%N); repeat constructor; lia. }
  assert (cp / 262144 < 8)%N by (apply N.Div0.div_lt_upper_bound; lia).
  pose proof (M cp); pose proof (M (cp / 64)%N); pose proof (M (cp / 4096)%N).
  repeat constructor; lia.
Qed.

Lemma escape_uri (cp : N) :
  (cp < 1114112)%N -> forallb is_uri_char (flat_map percent (utf8 cp)) = true.
Proof.
  intro H; pose proof (utf8_octets cp H) as F.
  induction F as [|b l Hb _ IH]; [reflexivity|].
  cbn [flat_map]; rewrite forallb_app, percent_uri, IH by exact Hb; reflexivity.
Qed.

Lemma encode_uri (n : nat) :
  forall s e, (length s <= n)%nat ->
  Forall (fun c => (c < 65536)%N) s ->
  encodeURIComponent s = Some e -> forallb is_uri_char e = true.
Proof.
  induction n as [|n IH]; intros s e L V E.
  - destruct s; [injection E as <-; reflexivity | simpl in L; lia].
  - destruct s as [|c s]; [injection E as <-; reflexivity|]; simpl in L.
    inversion V as [|c' s' Vc Vs]; subst.
    cbn [encodeURIComponent] in E.
    destruct (is_unreserved c) eqn:U.
    + destruct (encodeURIComponent s) as [e'|] eqn:E'; [|discriminate].
      injection E as <-; cbn [forallb]; unfold is_uri_char at 1; rewrite U.
      apply (IH s e'); auto; lia.
    + destruct (is_high_surrogate c) eqn:Hh.
      * destruct s as [|d s]; [discriminate|]; simpl in L.
        inversion Vs as [|d' s' Vd Vs']; subst.
        destruct (is_low_surrogate d) eqn:Hl; [|discriminate].
        destruct (encodeURIComponent s) as [e'|] eqn:E'; [|discriminate].
        injection E as <-; rewrite forallb_app, escape_uri.
        -- apply (IH s e'); auto; lia.
        -- unfold pair_code_point.
           unfold is_high_surrogate in Hh; unfold is_low_surrogate in Hl.
           apply andb_prop in Hh, Hl; destruct Hh as [H1 H2], Hl as [H3 H4].
           apply N.leb_le in H1, H2, H3, H4; lia.
      * destruct (is_low_surrogate c); [discriminate|].
        destruct (encodeURIComponent s) as [e'|] eqn:E'; [|discriminate].
        injection E as <-; rewrite forallb_app, escape_uri by lia.
        apply (IH s e'); auto; lia.
Qed.

(** X3: for a history that is not empty, [exportCsv] throws exactly when
    a date or a reason brings a lone surrogate into the text; otherwise it
    returns the [data:] prefix followed by unreserved characters and
    percent signs only. *)
Theorem exportCsv_href (r : HistRecord) (h : list HistRecord) :
  Forall (fun c => (c < 65536)%N) (csv_text (r :: h)) ->
  (well_formed (csv_text (r :: h)) = false -> exportCsv (r :: h) = None) /\
  (well_formed (csv_text (r :: h)) = true ->
   exists e, exportCsv (r :: h) = Some (js "data:text/csv;charset=utf-8," ++ e) /\
             forallb is_uri_char e = true).
Proof.
  intro V; unfold exportCsv.
  pose proof (encode_fails _ (csv_text (r :: h)) (le_n _)) as F.
  destruct (encodeURIComponent (csv_text (r :: h))) as [e|] eqn:E.
  - split.
    + intro W; apply F in W; discriminate W.
    + intros _; exists e; split; [reflexivity|].
      exact (encode_uri _ _ e (le_n _) V E).
  - split; [reflexivity|].
    intro W; destruct F as [F _]; rewrite F in W; [discriminate | reflexivity].
Qed.

Lemma exportCsv_href_witness :
  let h := [mkHistRecord (js "2026-01-01T00:00:00.000Z") 3 1 3 12 (js "user")] in
  (well_formed (csv_text h) = false -> exportCsv h = None) /\
  (well_formed (csv_text h) = true ->
   exists e, exportCsv h = Some (js "data:text/csv;charset=utf-8," ++ e) /\
             forallb is_uri_char e = true).
Proof.
  apply (exportCsv_href
           (mkHistRecord (js "2026-01-01T00:00:00.000Z") 3 1 3 12 (js "user")) []).
  unfold csv_text, csv_header, csv_row; simpl.
  repeat constructor.
Defined.

Lemma occurrences_app (c : N) (s t : jsstring) :
  occurrences c (s ++ t) = (occurrences c s + occurrences c t)%nat.
Proof. apply count_occ_app. Qed.

Lemma occurrences_digits (c : N) (s : jsstring) :
  forallb is_digit s = true -> is_digit c = false -> occurrences c s = O.
Proof.
  intros D H; apply count_occ_not_In; intro I.
  rewrite forallb_forall in D; rewrite (D c I) in H; discriminate.
Qed.

Lemma occurrences_decimal (c : N) (z : Z) :
  is_digit c = false -> c <> 45%N -> occurrences c (decimal z) = O.
Proof.
  intros H M; destruct z as [|p|p]; unfold decimal.
  - apply (occurrences_digits c [48%N]); [reflexivity | exact H].
  - apply occurrences_digits; [apply uint_units_digits | exact H].
  - unfold occurrences; rewrite count_occ_cons_neq by congruence.
    apply occurrences_digits; [apply uint_units_digits | exact H].
Qed.

Lemma csv_row_commas (r : HistRecord) :
  occurrences 44 (csv_row r) =
  (4 + occurrences 44 (date r) + occurrences 44 (reason r))%nat.
Proof.
  unfold csv_row; rewrite !occurrences_app.
  rewrite !occurrences_decimal by (reflexivity || discriminate).
  change (occurrences 44 (js ",")) with 1%nat; lia.
Qed.

Lemma csv_row_newlines (r : HistRecord) :
  occurrences 10 (csv_row r) =
  (occurrences 10 (date r) + occurrences 10 (reason r))%nat.
Proof.
  unfold csv_row; rewrite !occurrences_app.
  rewrite !occurrences_decimal by (reflexivity || discriminate).
  change (occurrences 10 (js ",")) with O; lia.
Qed.

Lemma join_rows_newlines (first : jsstring) (rows : list jsstring) :
  occurrences 10 (join [10%N] (first :: rows)) =
  (occurrences 10 first + length rows + list_sum (map (occurrences 10) rows))%nat.
Proof.
  revert first; induction rows as [|l rows IH]; intro first.
  - simpl; lia.
  - change (join [10%N] (first :: l :: rows))
      with (first ++ [10%N] ++ join [10%N] (l :: rows)).
    rewrite !occurrences_app, IH; simpl; lia.
Qed.

(** X4: [exportCsv] joins the fields and the rows as they are, without
    quotes or escapes: a row has four commas more than its date and reason
    hold, and the text has one line break for each record more than the
    dates and reasons hold.  So the text has one line for the header and
    one for each record, each of five fields, exactly when no date and no
    reason holds a comma or a line break. *)
Theorem csv_not_quoted (data : list HistRecord) :
  (forall r, occurrences 44 (csv_row r) =
             (4 + occurrences 44 (date r) + occurrences 44 (reason r))%nat) /\
  occurrences 10 (csv_text data) = (length data + field_occurrences 10 data)%nat.
Proof.
  split; [exact csv_row_commas|].
  unfold csv_text, field_occurrences; cbn [app].
  rewrite join_rows_newlines, length_map, map_map.
  change (occurrences 10 csv_header) with O; cbn [Nat.add].
  f_equal; f_equal; apply map_ext; exact csv_row_newlines.
Qed.

(** A reason with a comma gives a row of six fields. *)
Example csv_row_with_comma :
  occurrences 44 (csv_row (mkHistRecord (js "d") 3 1 3 12 (js "a,b"))) = 5%nat.
Proof. reflexivity. Qed.

(** ** The life of the interval *)

Lemma deps_unchanged (fresh : bool) (old new : Cells) :
  deps_changed fresh old new = false ->
  fresh = false /\ running new = running old /\ index new = index old /\
  timePerProblem new = timePerProblem old /\ autoNext new = autoNext old.
Proof.
  unfold deps_changed; intro H.
  repeat (apply orb_false_elim in H; destruct H as [H ?]).
  repeat match goal with
         | X : negb _ = false |- _ => apply negb_false_iff in X
         end.
  repeat split; auto.
  - symmetry; apply Bool.eqb_prop; assumption.
  - symmetry; apply Nat.eqb_eq; assumption.
  - symmetry; apply Z.eqb_eq; assumption.
  - symmetry; apply Bool.eqb_prop; assumption.
Qed.

Lemma timer_effect_synced (w : World) : timer_synced (timer_effect (cells w) w).
Proof.
  unfold timer_effect, timer_synced.
  destruct (running (cells w)) eqn:R; cbn [negb].
  - destruct (Z.ltb_spec 0 (timePerProblem (cells w))); world_simpl.
    + cbn [closure timeLeft]; repeat split; auto; lia.
    + right; lia.
  - world_simpl; left; exact R.
Qed.

Lemma commit_synced (fresh : bool) (old : Cells) (w : World) :
  (deps_changed fresh old (cells w) = false -> timer_synced w) ->
  timer_synced (commit fresh old w).
Proof.
  intro H; unfold commit.
  destruct (deps_changed fresh old (cells w)); [apply timer_effect_synced | auto].
Qed.

(** Edits that leave the interval and what it depends on alone keep the
    agreement. *)
Lemma synced_quiet (w w1 : World) :
  interval w1 = interval w ->
  running (cells w1) = running (cells w) ->
  index (cells w1) = index (cells w) ->
  problems (cells w1) = problems (cells w) ->
  autoNext (cells w1) = autoNext (cells w) ->
  timePerProblem (cells w1) = timePerProblem (cells w) ->
  numProblems (cells w1) = numProblems (cells w) ->
  history (cells w1) = history (cells w) ->
  startTime (cells w1) = startTime (cells w) ->
  elapsed (cells w1) = elapsed (cells w) ->
  timer_synced w -> timer_synced w1.
Proof.
  unfold timer_synced; intros -> -> -> -> -> -> -> -> -> ->; auto.
Qed.

Lemma synced_idle (w w1 : World) :
  interval w1 = interval w ->
  running (cells w1) = false -> running (cells w) = false ->
  timer_synced w -> timer_synced w1.
Proof.
  unfold timer_synced; intros -> R1 R S.
  destruct (interval w) as [i|]; [|left; exact R1].
  destruct S as (S & _); congruence.
Qed.

Lemma checkAnswer_quiet (r : Cells) (txt : jsstring) (w : World) :
  let w1 := checkAnswer r txt w in
  interval w1 = interval w /\
  running (cells w1) = running (cells w) /\
  index (cells w1) = index (cells w) /\
  problems (cells w1) = problems (cells w) /\
  autoNext (cells w1) = autoNext (cells w) /\
  timePerProblem (cells w1) = timePerProblem (cells w) /\
  numProblems (cells w1) = numProblems (cells w) /\
  history (cells w1) = history (cells w) /\
  startTime (cells w1) = startTime (cells w) /\
  elapsed (cells w1) = elapsed (cells w) /\
  stored w1 = stored w /\ answer (cells w1) = answer (cells w).
Proof.
  unfold checkAnswer.
  destruct (negb (running r)); [cbv zeta; tauto|].
  destruct (nth_error (problems r) (index r)) as [p|]; [|cbv zeta; tauto].
  cbv zeta.
  destruct (match parseInt (trim txt) with Some v => v =? a p + b p | None => false end);
    destruct (autoNext r); world_simpl; tauto.
Qed.

(** The two ways of [next]. *)
Lemma next_cases (r : Cells) (clk : Clock) (w : World) :
  ((index r + 1 < length (problems r))%nat /\
   next r clk w =
   update (fun c => setIndex (index c + 1)%nat c)
     (update (setFeedback None) (update (setAnswer []) w))) \/
  ((length (problems r) <= index r + 1)%nat /\
   next r clk w =
   stop r (Some (js "finished")) clk
     (update (setFeedback None) (update (setAnswer []) w))).
Proof.
  unfold next.
  destruct (Nat.ltb_spec (index r + 1) (length (problems r))); [left|right];
    split; auto.
Qed.

Lemma next_synced (r : Cells) (clk : Clock) (w w0 : World) :
  interval w = interval w0 ->
  running (cells w) = running (cells w0) ->
  index (cells w) = index (cells w0) ->
  timer_synced w0 ->
  running (cells (next r clk w)) = running (cells w0) ->
  index (cells (next r clk w)) = index (cells w0) ->
  timer_synced (next r clk w).
Proof.
  intros I R X S R1 X1.
  destruct (next_cases r clk w) as [[_ E]|[_ E]]; rewrite E in *.
  - exfalso; revert X1; world_simpl; rewrite X; lia.
  - apply (synced_idle w0).
    + rewrite <- I; reflexivity.
    + rewrite stop_cells; reflexivity.
    + rewrite <- R1, stop_cells; reflexivity.
    + exact S.
Qed.

Lemma tick_synced (clk : Clock) (w : World) :
  timer_synced w ->
  running (cells (tick clk w)) = running (cells w) ->
  index (cells (tick clk w)) = index (cells w) ->
  timer_synced (tick clk w).
Proof.
  intros S R X; unfold tick in *.
  destruct (interval w) as [i|] eqn:I; [|exact S].
  cbv zeta in *.
  assert (Si : timer_synced w) by exact S.
  unfold timer_synced in Si; rewrite I in Si.
  destruct Si as (S1 & S2 & S3 & S4 & S5 & S6 & S7 & S8 & S9 & S10 & S11).
  set (w1 := update (fun c => setElapsed (elapsed c + 1) c)
               (setInterval (Some (mkInterval (closure i) (timeLeft i - 1))) w)) in *.
  assert (Q : forall w2, interval w2 = interval w1 ->
              running (cells w2) = true -> index (cells w2) = index (cells w) ->
              problems (cells w2) = problems (cells w) ->
              autoNext (cells w2) = autoNext (cells w) ->
              timePerProblem (cells w2) = timePerProblem (cells w) ->
              numProblems (cells w2) = numProblems (cells w) ->
              history (cells w2) = history (cells w) ->
              startTime (cells w2) = startTime (cells w) ->
              elapsed (cells w2) = elapsed (cells w) + 1 ->
              timer_synced w2).
  { intros w2 E1 E2 E3 E4 E5 E6 E7 E8 E9 E10; unfold timer_synced.
    rewrite E1; subst w1; world_simpl; cbn [closure timeLeft].
    rewrite E2, E3, E4, E5, E6, E7, E8, E9, E10.
    repeat split; auto; lia. }
  destruct (timeLeft i - 1 <=? 0).
  - destruct (autoNext (closure i)).
    + destruct (next_cases (closure i) clk
                  (update (setFeedback (Some (expired_feedback (closure i)))) w1))
        as [[_ E]|[_ E]]; rewrite E in *.
      * exfalso; revert X; subst w1; world_simpl; lia.
      * exfalso; revert R; rewrite stop_cells; subst w1; world_simpl.
        rewrite S1; discriminate.
    + apply Q; subst w1; world_simpl; auto.
  - apply Q; subst w1; world_simpl; auto.
Qed.

Lemma dispatch_synced (e : Action) (w : World) :
  timer_synced w -> timer_synced (dispatch e w).
Proof.
  intro S; unfold dispatch; apply commit_synced; intro D.
  apply deps_unchanged in D; destruct D as (F & R & X & T & A).
  destruct e as [t|why clk|txt|clk|clk|clk]; try discriminate F; cbn [handle] in *.
  - apply (synced_idle w); auto.
  - destruct (checkAnswer_quiet (cells w) txt w)
      as (Q1 & Q2 & Q3 & Q4 & Q5 & Q6 & Q7 & Q8 & Q9 & Q10 & _).
    apply (synced_quiet w); auto.
  - apply (next_synced (cells w) clk w w); auto.
  - apply tick_synced; auto.
  - unfold fire_timeout in *.
    destruct (timeouts w) as [|r rest]; [exact S|].
    apply (next_synced r clk _ w); auto.
Qed.

Lemma run_synced (es : list Action) (w : World) :
  timer_synced w -> timer_synced (run es w).
Proof.
  revert w; induction es as [|e es IH]; intros w S; cbn [run]; auto.
  apply IH, dispatch_synced, S.
Qed.

(** ** The ids of the problems *)

Lemma leading_digits_stop (d r : jsstring) (c : N) :
  forallb is_digit d = true -> is_digit c = false ->
  leading_digits (d ++ c :: r) = d.
Proof.
  intros D C; induction d as [|x d IH]; simpl in *.
  - rewrite C; reflexivity.
  - apply andb_prop in D; destruct D as [Dx Dd].
    rewrite Dx, IH by exact Dd; reflexivity.
Qed.

Lemma decimal_nonneg_digits (i : Z) :
  0 <= i -> forallb is_digit (decimal i) = true.
Proof.
  destruct i as [|p|p]; intro H; [reflexivity | apply uint_units_digits | lia].
Qed.

Lemma decimal_inj (i j : Z) : decimal i = decimal j -> i = j.
Proof.
  intro H; pose proof (parseInt_decimal i) as P.
  rewrite H, parseInt_decimal in P; congruence.
Qed.

(** The counter can be read back from the end of an [id]. *)
Lemma problem_id_counter (x y i : Z) :
  0 <= i -> trailing_digits (problem_id x y i) = decimal i.
Proof.
  intro H; unfold trailing_digits, problem_id.
  rewrite !app_assoc, rev_app_distr.
  rewrite (rev_app_distr _ [45%N]); cbn [rev app].
  rewrite leading_digits_stop.
  - apply rev_involutive.
  - rewrite forallb_forall; intros c I; apply in_rev in I.
    pose proof (decimal_nonneg_digits i H) as D.
    rewrite forallb_forall in D; auto.
  - reflexivity.
Qed.

Lemma fill_counters (src : nat -> Q) (lo hi : Z) (k : nat) :
  forall (i : Z) (arr : list Problem) (n : nat),
  0 <= i ->
  map (fun p => trailing_digits (id p)) (fst (fill k i lo hi arr src n)) =
  map (fun p => trailing_digits (id p)) arr ++
  map (fun j => decimal (i + Z.of_nat j)) (seq 0 k).
Proof.
  induction k as [|k IH]; intros i arr n H.
  - simpl; rewrite app_nil_r; reflexivity.
  - cbn [fill]; unfold bind at 1; rewrite randInt_eq.
    unfold bind at 1; rewrite randInt_eq.
    rewrite IH by lia.
    rewrite map_app, <- app_assoc; f_equal.
    cbn [map app id seq]; rewrite problem_id_counter by exact H.
    rewrite Z.add_0_r; f_equal.
    rewrite <- seq_shift, map_map.
    apply map_ext; intro j; f_equal; lia.
Qed.

(** X6: the [id]s of one batch are pairwise different, with or without
    the shuffle and for any count, bounds and random source. *)
Theorem ids_unique (src : nat -> Q) (n lo hi : Z) (shuffled : bool) (d : nat) :
  NoDup (map id (fst (makeProblems n lo hi shuffled src d))).
Proof.
  assert (F : NoDup (map id (fst (fill (Z.to_nat n) 0 lo hi [] src d)))).
  { apply (NoDup_map_inv trailing_digits); rewrite map_map.
    rewrite fill_counters by lia; cbn [map app].
    apply Finite.Injective_map_NoDup; [|apply seq_NoDup].
    intros i j E; apply decimal_inj in E; lia. }
  unfold makeProblems, bind.
  destruct (fill (Z.to_nat n) 0 lo hi [] src d) as [arr d']; cbn [fst] in F.
  destruct shuffled; [|exact F].
  eapply Permutation_NoDup; [|exact F].
  apply Permutation_map, sort_perm.
Qed.

(** ** Bounds given the wrong way round *)

Lemma randInt_swapped (src : nat -> Q) (lo hi : Z) (n : nat) :
  (forall i, (0 <= src i)%Q /\ (src i < 1)%Q) ->
  hi < lo -> hi + 1 <= fst (randInt lo hi src n) <= lo.
Proof.
  intros U H; rewrite randInt_eq; cbn [fst].
  destruct (U n) as [U0 U1]; destruct (src n) as [p q].
  unfold Qle, Qlt in U0, U1; cbn [Qnum Qden] in U0, U1.
  unfold Qfloor, Qmult, inject_Z; cbn [Qnum Qden].
  rewrite Pos.mul_1_r.
  set (m := hi - lo + 1).
  assert (M : m <= 0) by (unfold m; lia).
  assert (L : m <= p * m / Z.pos q).
  { apply Z.div_le_lower_bound; nia. }
  assert (R : p * m / Z.pos q <= 0).
  { apply Z.div_le_upper_bound; nia. }
  unfold m in *; lia.
Qed.

Lemma fill_within (src : nat -> Q) (lo hi L H : Z) :
  (forall n, L <= fst (randInt lo hi src n) <= H) ->
  forall (k : nat) (i : Z) (arr : list Problem) (n : nat),
  Forall (in_range L H) arr ->
  Forall (in_range L H) (fst (fill k i lo hi arr src n)).
Proof.
  intros B k; induction k as [|k IH]; intros i arr n F.
  - exact F.
  - cbn [fill]; unfold bind at 1; rewrite randInt_eq.
    unfold bind at 1; rewrite randInt_eq.
    apply IH, Forall_app; split; [exact F|].
    constructor; [|constructor].
    split; cbn [a b]; [exact (B n) | exact (B (S n))].
Qed.

Lemma makeProblems_within (src : nat -> Q) (lo hi L H n : Z) (shuffled : bool)
    (d : nat) :
  (forall k, L <= fst (randInt lo hi src k) <= H) ->
  Forall (in_range L H) (fst (makeProblems n lo hi shuffled src d)).
Proof.
  intro B; unfold makeProblems, bind.
  pose proof (fill_within src lo hi L H B (Z.to_nat n) 0 [] d (Forall_nil _)) as F.
  destruct (fill (Z.to_nat n) 0 lo hi [] src d) as [arr d']; cbn [fst] in F.
  destruct shuffled; [|exact F].
  eapply Permutation_Forall; [apply sort_perm | exact F].
Qed.

(** X7: when the upper bound is below the lower one, [makeProblems]
    still returns its problems, and every operand lies between the upper
    bound plus one and the lower bound: the two bounds are not treated
    alike, the smaller of them is never drawn. *)
Theorem swapped_bounds (src : nat -> Q) (n lo hi : Z) (shuffled : bool) (d : nat) :
  (forall i, (0 <= src i)%Q /\ (src i < 1)%Q) ->
  hi < lo ->
  let ps := fst (makeProblems n lo hi shuffled src d) in
  length ps = Z.to_nat n /\ Forall (in_range (hi + 1) lo) ps.
Proof.
  intros U H ps; subst ps; split; [apply makeProblems_length|].
  apply makeProblems_within; intro k; apply randInt_swapped; assumption.
Qed.

Lemma swapped_bounds_witness :
  let ps := fst (makeProblems 4 20 0 false sample_entropy O) in
  length ps = Z.to_nat 4 /\ Forall (in_range (0 + 1) 20) ps.
Proof.
  apply (swapped_bounds sample_entropy 4 20 0 false O sample_entropy_unit); lia.
Defined.

(** ** The index and the panel *)

Lemma next_timeouts (r : Cells) (clk : Clock) (w : World) :
  timeouts (next r clk w) = timeouts w.
Proof. destruct (next_cases r clk w) as [[_ E]|[_ E]]; rewrite E; reflexivity. Qed.

Lemma checkAnswer_timeouts (r : Cells) (txt : jsstring) (w : World) :
  autoNext r = false -> timeouts (checkAnswer r txt w) = timeouts w.
Proof.
  intro A; unfold checkAnswer.
  destruct (negb (running r)); [reflexivity|].
  destruct (nth_error (problems r) (index r)) as [p|]; [|reflexivity].
  cbv zeta; rewrite A.
  destruct (match parseInt (trim txt) with Some v => v =? a p + b p | None => false end);
    reflexivity.
Qed.

Lemma tick_timeouts (clk : Clock) (w : World) : timeouts (tick clk w) = timeouts w.
Proof.
  unfold tick; destruct (interval w) as [i|]; [|reflexivity].
  cbv zeta; destruct (timeLeft i - 1 <=? 0); [|reflexivity].
  destruct (autoNext (closure i)); [|reflexivity].
  rewrite next_timeouts; reflexivity.
Qed.

Lemma next_in_batch (r : Cells) (clk : Clock) (w : World) :
  index r = index (cells w) -> problems r = problems (cells w) ->
  in_batch (cells w) -> in_batch (cells (next r clk w)).
Proof.
  intros X P B; unfold in_batch in *.
  destruct (next_cases r clk w) as [[L E]|[_ E]]; rewrite E.
  - world_simpl; right; rewrite <- X, <- P; exact L.
  - rewrite stop_cells; world_simpl; exact B.
Qed.

(** ** Delayed calls of [next] *)

Lemma checkAnswer_schedules (r : Cells) (txt : jsstring) (w : World) (p : Problem) :
  running r = true -> current r = Some p -> autoNext r = true ->
  timeouts (checkAnswer r txt w) = timeouts w ++ [r].
Proof.
  unfold current; intros R C A; unfold checkAnswer.
  rewrite R, C, A; cbn [negb]; cbv zeta.
  destruct (match parseInt (trim txt) with Some v => v =? a p + b p | None => false end);
    reflexivity.
Qed.

(** A delayed [next] whose render was not at the last problem moves the
    live index on by one and touches nothing else of the run. *)
Lemma timeout_advances (r : Cells) (rest : list Cells) (clk : Clock) (w : World) :
  timeouts w = r :: rest ->
  (index r + 1 < length (problems r))%nat ->
  let w' := dispatch (Timeout clk) w in
  index (cells w') = (index (cells w) + 1)%nat /\
  timeouts w' = rest /\
  running (cells w') = running (cells w) /\
  problems (cells w') = problems (cells w) /\
  score (cells w') = score (cells w) /\
  history (cells w') = history (cells w) /\
  stored w' = stored w.
Proof.
  intros T L; cbv zeta; unfold dispatch.
  destruct (commit_world false (cells w) (handle (Timeout clk) w)) as (-> & -> & _ & _).
  rewrite (commit_proj index), (commit_proj running), (commit_proj problems),
    (commit_proj score), (commit_proj history) by reflexivity.
  cbn [handle]; unfold fire_timeout; rewrite T.
  match goal with |- context [next r clk ?w0] =>
    destruct (next_cases r clk w0) as [[_ E]|[G _]]; [rewrite E | lia]
  end.
  world_simpl; repeat split; reflexivity.
Qed.

Lemma timeouts_kept (e : Action) (w : World) :
  is_timeout e = false -> exists more, timeouts (dispatch e w) = timeouts w ++ more.
Proof.
  intro N; unfold dispatch.
  destruct (commit_world (match e with Start _ => true | _ => false end)
              (cells w) (handle e w)) as (_ & -> & _ & _).
  destruct e as [t|why clk|txt|clk|clk|clk]; try discriminate N; cbn [handle].
  - exists []; rewrite app_nil_r.
    destruct (start_shape (cells w) t w) as (_ & _ & _ & _ & _ & _ & _ & _ & _ & _ & T & _).
    exact T.
  - exists []; rewrite app_nil_r; reflexivity.
  - unfold checkAnswer.
    destruct (negb (running (cells w))); [exists []; rewrite app_nil_r; reflexivity|].
    destruct (nth_error (problems (cells w)) (index (cells w))) as [p|];
      [|exists []; rewrite app_nil_r; reflexivity].
    cbv zeta.
    destruct (match parseInt (trim txt) with Some v => v =? a p + b p | None => false end);
      destruct (autoNext (cells w));
      solve [exists [cells w]; reflexivity | exists []; rewrite app_nil_r; reflexivity].
  - exists []; rewrite app_nil_r; apply next_timeouts.
  - exists []; rewrite app_nil_r; apply tick_timeouts.
Qed.

(** X10: nothing cancels a delayed [next]: whatever is called before it
    runs, the start of a new run and [stop] included, the delayed calls
    that were pending are all still pending, in their order. *)
Theorem pending_next_survives (es : list Action) (w : World) :
  no_timeout es = true ->
  exists more, timeouts (run es w) = timeouts w ++ more.
Proof.
  unfold no_timeout; revert w; induction es as [|e es IH]; intros w N; cbn [run].
  - exists []; rewrite app_nil_r; reflexivity.
  - cbn [forallb] in N; apply andb_prop in N; destruct N as [Ne Nes].
    apply negb_true_iff in Ne.
    destruct (timeouts_kept e w Ne) as [m1 E1].
    destruct (IH (dispatch e w) Nes) as [m2 E2].
    exists (m1 ++ m2); rewrite E2, E1, app_assoc; reflexivity.
Qed.

Lemma pending_next_survives_witness :
  let w := pending_world [five_plus_seven] in
  let es := [Submit (js "12"); Stop None (sample_clock 1); Start 2000] in
  timeouts w = [drill_cells [five_plus_seven] true] /\
  exists more, timeouts (run es w) = timeouts w ++ more.
Proof.
  split; [reflexivity|].
  apply (pending_next_survives
           [Submit (js "12"); Stop None (sample_clock 1); Start 2000]
           (pending_world [five_plus_seven])).
  reflexivity.
Defined.

(** X11: a check of the last problem with auto-advance on, then [stop]
    before the delayed [next] has run: when it runs, it ends the stopped
    run a second time, from the render of the check.  The record of the
    user's stop is replaced by a record with reason "finished", in the
    history and in the stored text. *)
Theorem late_next_replaces_record (w : World) (p : Problem) (txt : jsstring)
    (why : option jsstring) (c1 c2 : Clock) :
  running (cells w) = true ->
  autoNext (cells w) = true ->
  timeouts w = [] ->
  current (cells w) = Some p ->
  length (problems (cells w)) = S (index (cells w)) ->
  let w1 := dispatch (Submit txt) w in
  let w2 := dispatch (Stop why c1) w1 in
  let w3 := dispatch (Timeout c2) w2 in
  let late := make_record (cells w) (Some (js "finished")) c2 in
  history (cells w2) = firstn 50 (make_record (cells w1) why c1 :: history (cells w)) /\
  history (cells w3) = firstn 50 (late :: history (cells w)) /\
  stored w3 = Some (JSON_stringify (firstn 50 (late :: history (cells w)))) /\
  length (history (cells w3)) = length (history (cells w2)) /\
  solved late = score (cells w).
Proof.
  intros R A T C L w1 w2 w3 late.
  destruct (checkAnswer_quiet (cells w) txt w)
    as (_ & _ & _ & _ & _ & _ & _ & H1 & _).
  rewrite <- dispatch_submit in H1; fold w1 in H1.
  assert (T1 : timeouts w1 = [cells w]).
  { unfold w1; rewrite dispatch_submit, (checkAnswer_schedules _ _ _ p), T; auto. }
  destruct (dispatch_stop w1 why c1) as (_ & H2 & _).
  fold w2 in H2; rewrite H1 in H2.
  assert (T2 : timeouts w2 = [cells w]).
  { unfold w2, dispatch.
    destruct (commit_world false (cells w1) (handle (Stop why c1) w1)) as (_ & -> & _).
    exact T1. }
  assert (E : handle (Timeout c2) w2 =
              stop (cells w) (Some (js "finished")) c2
                (update (setFeedback None) (update (setAnswer [])
                   (mkWorld (cells w2) (stored w2) [] (interval w2) (entropy w2)
                      (drawn w2))))).
  { cbn [handle]; unfold fire_timeout; rewrite T2.
    match goal with |- next ?r ?c ?w0 = _ =>
      destruct (next_cases r c w0) as [[G _]|[_ E]]; [lia | exact E]
    end. }
  assert (H3 : history (cells w3) = firstn 50 (late :: history (cells w))).
  { unfold w3, dispatch; rewrite (commit_proj history) by reflexivity.
    rewrite E, stop_cells; reflexivity. }
  repeat split.
  - exact H2.
  - exact H3.
  - unfold w3, dispatch.
    destruct (commit_world false (cells w2) (handle (Timeout c2) w2)) as (-> & _).
    rewrite E, stop_stored; reflexivity.
  - rewrite H3, H2, !length_firstn; cbn [length]; reflexivity.
Qed.

Lemma late_next_replaces_record_witness :
  let w := drill_world [five_plus_seven] true in
  let w1 := dispatch (Submit (js "12")) w in
  let w2 := dispatch (Stop None (sample_clock 1500)) w1 in
  let w3 := dispatch (Timeout (sample_clock 2000)) w2 in
  let late := make_record (cells w) (Some (js "finished")) (sample_clock 2000) in
  history (cells w2) =
    firstn 50 (make_record (cells w1) None (sample_clock 1500) :: history (cells w)) /\
  history (cells w3) = firstn 50 (late :: history (cells w)) /\
  stored w3 = Some (JSON_stringify (firstn 50 (late :: history (cells w)))) /\
  length (history (cells w3)) = length (history (cells w2)) /\
  solved late = score (cells w).
Proof.
  apply (late_next_replaces_record (drill_world [five_plus_seven] true)
           five_plus_seven); reflexivity.
Defined.

(** X12: a delayed [next] left over from an earlier run acts on the run
    started after it was scheduled: the new run is moved to its second
    problem before the first was answered, and a new run of one problem
    is left with nothing to show. *)
Theorem late_next_skips_first (w : World) (r : Cells) (rest : list Cells)
    (t : Z) (clk : Clock) :
  timeouts w = r :: rest ->
  (index r + 1 < length (problems r))%nat ->
  let w' := run [Start t; Timeout clk] w in
  running (cells w') = true /\
  index (cells w') = 1%nat /\
  score (cells w') = 0 /\
  length (problems (cells w')) = Z.to_nat (numProblems (cells w)) /\
  (numProblems (cells w) = 1 -> panel (cells w') = NoProblems).
Proof.
  intros T L; cbn [run].
  destruct (dispatch_start w t)
    as (N1 & R1 & X1 & S1 & _ & _ & _ & _ & _ & _ & T1 & _).
  rewrite T in T1.
  destruct (timeout_advances r rest clk (dispatch (Start t) w) T1 L)
    as (X2 & _ & R2 & P2 & S2 & _).
  rewrite X1 in X2; rewrite R1 in R2; rewrite S1 in S2.
  repeat split; auto.
  - rewrite P2; exact N1.
  - intro E; unfold panel; rewrite R2, X2; cbn [negb].
    rewrite (proj2 (nth_error_None _ _)); [reflexivity|].
    rewrite P2, N1, E; cbn; lia.
Qed.

Lemma late_next_skips_first_witness :
  let w := dispatch (Submit (js "12"))
             (drill_world [five_plus_seven; five_plus_seven] true) in
  let w' := run [Start 5000; Timeout (sample_clock 5200)] w in
  running (cells w') = true /\
  index (cells w') = 1%nat /\
  score (cells w') = 0 /\
  length (problems (cells w')) = Z.to_nat (numProblems (cells w)) /\
  (numProblems (cells w) = 1 -> panel (cells w') = NoProblems).
Proof.
  apply (late_next_skips_first
           (dispatch (Submit (js "12"))
              (drill_world [five_plus_seven; five_plus_seven] true))
           (drill_cells [five_plus_seven; five_plus_seven] true) []).
  - reflexivity.
  - cbn; lia.
Defined.

(** ** What is written to the history *)

Lemma firstn_app_firstn {A} (n : nat) (l1 l2 : list A) :
  firstn n (l1 ++ firstn n l2) = firstn n (l1 ++ l2).
Proof.
  rewrite !firstn_app, firstn_firstn; do 2 f_equal; lia.
Qed.

Lemma next_history (r : Cells) (clk : Clock) (w : World) :
  history r = history (cells w) ->
  history (cells (next r clk w)) = history (cells w) \/
  exists rec, history (cells (next r clk w)) = firstn 50 (rec :: history (cells w)).
Proof.
  intro H; destruct (next_cases r clk w) as [[_ E]|[_ E]]; rewrite E.
  - left; reflexivity.
  - right; rewrite stop_cells, H; eexists; reflexivity.
Qed.

Lemma dispatch_history (e : Action) (w : World) :
  timer_synced w -> is_timeout e = false ->
  history (cells (dispatch e w)) = history (cells w) \/
  exists rec, history (cells (dispatch e w)) = firstn 50 (rec :: history (cells w)).
Proof.
  intros S N; unfold dispatch; rewrite (commit_proj history) by reflexivity.
  destruct e as [t|why clk|txt|clk|clk|clk]; try discriminate N; cbn [handle].
  - left; destruct (start_shape (cells w) t w)
      as (_ & _ & _ & _ & _ & _ & _ & _ & H & _); exact H.
  - right; rewrite stop_cells; eexists; reflexivity.
  - left; destruct (checkAnswer_quiet (cells w) txt w)
      as (_ & _ & _ & _ & _ & _ & _ & H & _); exact H.
  - apply next_history; reflexivity.
  - unfold tick; destruct (interval w) as [i|] eqn:I; [|left; reflexivity].
    unfold timer_synced in S; rewrite I in S.
    destruct S as (_ & _ & _ & _ & _ & _ & _ & _ & S9 & _).
    cbv zeta; destruct (timeLeft i - 1 <=? 0); [|left; reflexivity].
    destruct (autoNext (closure i)); [|left; reflexivity].
    match goal with |- context [next _ clk ?w0] =>
      destruct (next_history (closure i) clk w0 S9) as [E|[rec E]]
    end.
    + left; exact E.
    + right; exists rec; exact E.
Qed.

(** X13: as long as no delayed [next] runs, the history only grows at
    its front: after any calls and ticks it is the history as it was, or
    the history as it was with the new records before it, cut to 50
    entries, so that only the oldest records are ever dropped. *)
Theorem history_only_grows (es : list Action) (w : World) :
  timer_synced w ->
  no_timeout es = true ->
  history (cells (run es w)) = history (cells w) \/
  exists recs,
    recs <> [] /\
    history (cells (run es w)) = firstn 50 (recs ++ history (cells w)).
Proof.
  unfold no_timeout; revert w; induction es as [|e es IH]; intros w S N; cbn [run].
  - left; reflexivity.
  - cbn [forallb] in N; apply andb_prop in N; destruct N as [Ne Nes].
    apply negb_true_iff in Ne.
    destruct (IH (dispatch e w) (dispatch_synced e w S) Nes) as [E|(recs & Hn & E)];
      destruct (dispatch_history e w S Ne) as [D|[r0 D]]; rewrite E, D.
    + left; reflexivity.
    + right; exists [r0]; split; [discriminate | reflexivity].
    + right; exists recs; split; [exact Hn | reflexivity].
    + right; exists (recs ++ [r0]); split.
      * destruct recs; discriminate.
      * rewrite firstn_app_firstn, <- app_assoc; reflexivity.
Qed.

Lemma history_only_grows_witness :
  let w := drill_world_with_history [five_plus_seven] false in
  let es := [Submit (js "12"); Stop None (sample_clock 2000); Start 3000;
             Tick (sample_clock 3500); Advance (sample_clock 4000)] in
  history (cells w) = [earlier_record] /\
  (history (cells (run es w)) = history (cells w) \/
   exists recs,
     recs <> [] /\
     history (cells (run es w)) = firstn 50 (recs ++ history (cells w))).
Proof.
  split; [reflexivity|].
  apply (history_only_grows
           [Submit (js "12"); Stop None (sample_clock 2000); Start 3000;
            Tick (sample_clock 3500); Advance (sample_clock 4000)]
           (drill_world_with_history [five_plus_seven] false)).
  - right; cbn; lia.
  - reflexivity.
Defined.

(** ** The duration of a run *)

Lemma next_startTime (r : Cells) (clk : Clock) (w : World) :
  startTime (cells (next r clk w)) = startTime (cells w).
Proof.
  destruct (next_cases r clk w) as [[_ E]|[_ E]]; rewrite E;
    [|rewrite stop_cells]; reflexivity.
Qed.

(** ** What follows the number in an answer *)

Lemma trim_start_split (s : jsstring) :
  exists ws, s = ws ++ trim_start s /\ forallb is_white_space ws = true.
Proof.
  induction s as [|c s (ws & E & W)]; cbn [trim_start].
  - exists []; auto.
  - destruct (is_white_space c) eqn:C.
    + exists (c :: ws); cbn [app forallb]; rewrite C, W, <- E; auto.
    + exists []; auto.
Qed.

Lemma trim_start_head (s : jsstring) :
  match trim_start s with c :: _ => is_white_space c = false | [] => True end.
Proof.
  induction s as [|c s IH]; cbn [trim_start]; [exact I|].
  destruct (is_white_space c) eqn:C; [exact IH | exact C].
Qed.

(** Trimming the end of a text leaves a front part of it that ends on
    something other than white space alone. *)
Lemma trim_end_app (m t : jsstring) (x : N) :
  is_white_space x = false -> trim_end ((m ++ [x]) ++ t) = (m ++ [x]) ++ trim_end t.
Proof.
  intro X; unfold trim_end.
  rewrite !rev_app_distr; cbn [rev app].
  destruct (trim_start_split (rev t)) as (ws & E & W).
  pose proof (trim_start_head (rev t)) as Hd.
  rewrite E at 1; rewrite <- app_assoc, trim_start_white by exact W.
  destruct (trim_start (rev t)) as [|y u]; cbn [app].
  - rewrite trim_start_stop by exact X.
    cbn [rev app]; rewrite rev_involutive, app_nil_r; reflexivity.
  - rewrite trim_start_stop by exact Hd.
    change (y :: u ++ x :: rev m) with ((y :: u) ++ x :: rev m).
    rewrite rev_app_distr; cbn [rev]; rewrite rev_involutive.
    rewrite <- !app_assoc; reflexivity.
Qed.

Lemma trim_end_front (c : N) (s : jsstring) :
  trim_end (c :: s) = [] \/ exists s', trim_end (c :: s) = c :: s'.
Proof.
  unfold trim_end.
  destruct (trim_start_split (rev (c :: s))) as (ws & E & _).
  apply (f_equal (@rev N)) in E.
  rewrite rev_involutive, rev_app_distr in E.
  destruct (rev (trim_start (rev (c :: s)))) as [|y u]; [left; reflexivity|].
  right; exists u; cbn [app] in E; congruence.
Qed.

Lemma read_digits_stop (d : jsstring) (c : N) (r : jsstring) :
  forallb is_digit d = true -> is_digit c = false ->
  forall acc seen, read_digits (d ++ c :: r) acc seen = read_digits d acc seen.
Proof.
  intros D C; induction d as [|x d IH]; intros acc seen; cbn [app read_digits].
  - rewrite C; reflexivity.
  - cbn [forallb] in D; apply andb_prop in D; destruct D as [Dx Dd].
    rewrite Dx; apply IH; exact Dd.
Qed.

Lemma decimal_shape (z : Z) :
  exists c0 d0,
    decimal z = c0 :: d0 /\ forallb is_digit d0 = true /\
    (is_digit c0 = true \/ c0 = 45%N).
Proof.
  destruct z as [|p|p]; unfold decimal.
  - exists 48%N, []; auto.
  - pose proof (uint_units_digits (Pos.to_uint p)) as D.
    destruct (uint_units (Pos.to_uint p)) as [|c0 d0] eqn:E.
    + apply uint_units_nil in E.
      destruct (DecimalPos.Unsigned.to_uint_nonnil p E).
    + cbn [forallb] in D; apply andb_prop in D; destruct D as [D0 D1].
      exists c0, d0; auto.
  - exists 45%N, (uint_units (Pos.to_uint p)); split; [reflexivity|].
    split; [apply uint_units_digits | right; reflexivity].
Qed.

(** [parseInt] stops at the first code unit that is not a digit. *)
Lemma parseInt_rest (z : Z) (c : N) (r : jsstring) :
  is_digit c = false -> parseInt (decimal z ++ c :: r) = Some z.
Proof.
  intro C; transitivity (parseInt (decimal z)); [|apply parseInt_decimal].
  destruct (decimal_shape z) as (c0 & d0 & E & D & K); rewrite E.
  assert (W : is_white_space c0 = false).
  { destruct K as [K| ->]; [apply digit_not_white; exact K | reflexivity]. }
  unfold parseInt; cbn [app trim_start]; rewrite W.
  destruct (c0 =? 45)%N eqn:M.
  - rewrite read_digits_stop by assumption; reflexivity.
  - destruct (c0 =? 43)%N.
    + rewrite read_digits_stop by assumption; reflexivity.
    + destruct K as [K| ->]; [|discriminate M].
      change (c0 :: d0 ++ c :: r) with ((c0 :: d0) ++ c :: r).
      rewrite read_digits_stop; [reflexivity | | exact C].
      cbn [forallb]; rewrite K, D; reflexivity.
Qed.

Lemma decimal_last (z : Z) :
  exists m x, decimal z = m ++ [x] /\ is_white_space x = false.
Proof.
  destruct (decimal_not_white z) as [Hn Hw].
  destruct (exists_last Hn) as (m & x & E).
  exists m, x; split; [exact E|].
  rewrite E, forallb_app in Hw; apply andb_prop in Hw; destruct Hw as [_ Hx].
  cbn [forallb] in Hx; rewrite andb_true_r in Hx.
  apply negb_true_iff; exact Hx.
Qed.

(** X15: an answer is scored as correct as soon as it begins, after
    white space, with the decimal text of the sum followed by anything
    that is not a digit: letters, a decimal point and digits, a second
    number after a space. *)
Theorem number_then_text_scores (w : World) (p : Problem)
    (l rest : jsstring) (c : N) :
  running (cells w) = true ->
  current (cells w) = Some p ->
  forallb is_white_space l = true ->
  is_digit c = false ->
  let txt := l ++ decimal (a p + b p) ++ c :: rest in
  let w' := dispatch (Submit txt) w in
  answer_ok p txt = true /\
  feedback (cells w') = Some (mkFeedback true (Some (a p + b p))) /\
  score (cells w') = score (cells w) + 1.
Proof.
  intros R C L D txt w'.
  assert (K : answer_ok p txt = true).
  { unfold answer_ok, txt, trim.
    rewrite trim_start_white by exact L.
    destruct (decimal_last (a p + b p)) as (m & x & E & X).
    assert (S : trim_start (decimal (a p + b p) ++ c :: rest) =
                decimal (a p + b p) ++ c :: rest).
    { destruct (decimal_shape (a p + b p)) as (c0 & d0 & E0 & _ & K).
      rewrite E0; cbn [app]; apply trim_start_stop.
      destruct K as [K| ->]; [apply digit_not_white; exact K | reflexivity]. }
    rewrite S, E, trim_end_app, <- E by exact X.
    destruct (trim_end_front c rest) as [T|[s' T]]; rewrite T.
    - rewrite app_nil_r, parseInt_decimal, Z.eqb_refl; reflexivity.
    - rewrite parseInt_rest, Z.eqb_refl by exact D; reflexivity. }
  split; [exact K|].
  destruct (checkAnswer_shape w p txt R C) as (S & _).
  fold w' in S; rewrite K in S.
  split; [|exact S].
  unfold w'; rewrite dispatch_submit.
  pose proof (checkAnswer_cells (cells w) txt w p R C) as E.
  rewrite K in E; rewrite E; reflexivity.
Qed.

Lemma number_then_text_scores_witness :
  let w := drill_world [five_plus_seven] false in
  let txt := js " " ++ decimal (a five_plus_seven + b five_plus_seven) ++
             46%N :: js "9 or so" in
  let w' := dispatch (Submit txt) w in
  answer_ok five_plus_seven txt = true /\
  feedback (cells w') =
    Some (mkFeedback true (Some (a five_plus_seven + b five_plus_seven))) /\
  score (cells w') = score (cells w) + 1.
Proof.
  apply (number_then_text_scores (drill_world [five_plus_seven] false)
           five_plus_seven (js " ") (js "9 or so") 46%N); reflexivity.
Defined.

(** ** The keyboard *)

Lemma eqb_text_eq (s t : jsstring) : eqb_text s t = true <-> s = t.
Proof.
  unfold eqb_text; destruct (list_eq_dec N.eq_dec s t); split; auto; discriminate.
Qed.

Lemma key_deps_unchanged (fresh : bool) (old new : Cells) :
  key_deps_changed fresh old new = false ->
  fresh = false /\ running new = running old /\ answer new = answer old /\
  index new = index old.
Proof.
  unfold key_deps_changed; intro H.
  repeat (apply orb_false_elim in H; destruct H as [H ?]).
  repeat match goal with
         | X : negb _ = false |- _ => apply negb_false_iff in X
         end.
  repeat split; auto.
  - symmetry; apply Bool.eqb_prop; assumption.
  - symmetry; apply eqb_text_eq; assumption.
  - symmetry; apply Nat.eqb_eq; assumption.
Qed.

Lemma key_deps_same (old new : Cells) :
  running new = running old -> answer new = answer old -> index new = index old ->
  key_deps_changed false old new = false.
Proof.
  intros R A X; unfold key_deps_changed; rewrite R, A, X.
  rewrite Bool.eqb_reflx, Nat.eqb_refl, (proj2 (eqb_text_eq _ _) eq_refl).
  reflexivity.
Qed.

Lemma frame_problems (w w' : World) :
  frame w w' -> problems (cells w') = problems (cells w).
Proof. intros (_ & _ & _ & P & _); exact P. Qed.

Lemma onKey_problems (r : Cells) (key : jsstring) (clk : Clock) (w : World) :
  problems (cells (onKey r key clk w)) = problems (cells w).
Proof.
  unfold onKey; destruct (negb (running r)); [reflexivity|].
  cbv zeta.
  destruct (eqb_text key (js "ArrowRight")).
  - rewrite (frame_problems _ _ (frame_next r clk _)).
    destruct (eqb_text key (js "Enter")); [|reflexivity].
    apply frame_problems, frame_checkAnswer.
  - destruct (eqb_text key (js "Enter")); [|reflexivity].
    apply frame_problems, frame_checkAnswer.
Qed.

(** Only a start replaces the problems. *)
Lemma respond_problems (i : Input) (pg : Page) :
  starts i pg = false ->
  problems (cells (respond i pg)) = problems (cells (world pg)).
Proof.
  intro N; destruct i; cbn [respond starts] in *; try reflexivity.
  - apply negb_false_iff in N; rewrite N; reflexivity.
  - destruct (running (cells (world pg))); [|reflexivity].
    apply frame_problems, frame_stop.
  - destruct (panel (cells (world pg))); reflexivity.
  - destruct (panel (cells (world pg))); try reflexivity.
    apply frame_problems, frame_checkAnswer.
  - apply onKey_problems.
  - apply frame_problems, frame_tick.
  - apply frame_problems, frame_fire_timeout.
Qed.

Lemma react_listening (i : Input) (pg : Page) :
  listening pg -> listening (react i pg).
Proof.
  unfold listening, react; cbn [world listener].
  intros (R & A & X & P).
  rewrite (commit_proj running), (commit_proj answer), (commit_proj index),
    (commit_proj problems) by reflexivity.
  destruct (key_deps_changed (starts i pg) (cells (world pg)) (cells (respond i pg)))
    eqn:K; [auto|].
  apply key_deps_unchanged in K; destruct K as (F & R' & A' & X').
  rewrite respond_problems by exact F.
  repeat split; congruence.
Qed.

Lemma play_listening (ins : list Input) (pg : Page) :
  listening pg -> listening (play ins pg).
Proof.
  revert pg; induction ins as [|i ins IH]; intros pg L; cbn [play]; auto.
  apply IH, react_listening, L.
Qed.

Lemma mount_listening (w : World) : listening (mount w).
Proof.
  unfold listening, mount, timer_effect; cbn [world listener].
  destruct (negb (running (cells w))); [repeat split|].
  destruct (0 <? timePerProblem (cells w)); repeat split.
Qed.

Lemma commit_cells (fresh : bool) (old : Cells) (w1 w2 : World) :
  cells w1 = cells w2 ->
  cells (commit fresh old w1) = cells (commit fresh old w2).
Proof.
  intro E; unfold commit, timer_effect; rewrite E.
  destruct (deps_changed fresh old (cells w2)); [|exact E].
  destruct (negb (running (cells w2))); [exact E|].
  destruct (0 <? timePerProblem (cells w2)); world_simpl; rewrite E; reflexivity.
Qed.

Lemma onKey_enter (r : Cells) (clk : Clock) (w : World) :
  onKey r (js "Enter") clk w = checkAnswer r (answer r) w.
Proof.
  unfold onKey; destruct (running r) eqn:R; cbn [negb].
  - reflexivity.
  - symmetry; apply checkAnswer_idle; exact R.
Qed.

Lemma onKey_arrow (r : Cells) (clk : Clock) (w : World) :
  running r = true -> onKey r (js "ArrowRight") clk w = next r clk w.
Proof. intro R; unfold onKey; rewrite R; reflexivity. Qed.

(** What [checkAnswer] writes depends on its render only through the
    cells the keyboard effect depends on. *)
Lemma checkAnswer_listening (r c : Cells) (txt : jsstring) (w : World) :
  running r = running c -> index r = index c -> problems r = problems c ->
  cells (checkAnswer r txt w) = cells (checkAnswer c txt w).
Proof.
  intros R X P; unfold checkAnswer; rewrite R, X, P.
  destruct (negb (running c)); [reflexivity|].
  destruct (nth_error (problems c) (index c)) as [p|]; [|reflexivity].
  cbv zeta.
  destruct (match parseInt (trim txt) with Some v => v =? a p + b p | None => false end);
    destruct (autoNext r); destruct (autoNext c); reflexivity.
Qed.

(** X16: on a page that was mounted and then used in any way, the
    keyboard listener acts on what the page shows: Enter leaves the cells
    as a click on the check button leaves them, so it checks the text in
    the answer field against the problem on display, and while no run is
    on every key leaves the page as it is. *)
Theorem enter_is_check (ins : list Input) (w : World) (clk : Clock) :
  let pg := play ins (mount w) in
  listening pg /\
  cells (world (react (KeyDown (js "Enter") clk) pg)) =
    cells (world (react ClickCheck pg)) /\
  (running (cells (world pg)) = false ->
   forall key, react (KeyDown key clk) pg = pg).
Proof.
  intro pg.
  assert (L : listening pg) by (apply play_listening, mount_listening).
  split; [exact L|].
  destruct L as (R & A & X & P).
  split.
  - unfold react; cbn [world starts respond].
    apply commit_cells.
    rewrite onKey_enter, A.
    rewrite (checkAnswer_listening _ (cells (world pg))) by assumption.
    unfold panel.
    destruct (running (cells (world pg))) eqn:Rc; cbn [negb].
    + destruct (nth_error (problems (cells (world pg))) (index (cells (world pg))))
        eqn:N; [reflexivity|].
      unfold checkAnswer; rewrite Rc, N; reflexivity.
    + rewrite checkAnswer_idle by exact Rc; reflexivity.
  - intros Rc key; unfold react; cbn [world starts respond].
    unfold onKey; rewrite R, Rc; cbn [negb].
    rewrite commit_same, key_deps_same by reflexivity.
    destruct pg; reflexivity.
Qed.

Lemma typing_registers (pg : Page) (p : Problem) (txt : jsstring) :
  running (cells (world pg)) = true ->
  current (cells (world pg)) = Some p ->
  txt <> answer (cells (world pg)) ->
  react (ChangeAnswer txt) pg =
  mkPage (update (setAnswer txt) (world pg)) (setAnswer txt (cells (world pg))).
Proof.
  unfold current; intros R C N; unfold react; cbn [respond starts].
  unfold panel; rewrite R, C; cbn [negb].
  rewrite commit_same by reflexivity.
  f_equal.
  unfold key_deps_changed; world_simpl.
  destruct (eqb_text (answer (cells (world pg))) txt) eqn:E.
  - apply eqb_text_eq in E; congruence.
  - rewrite Bool.eqb_reflx; reflexivity.
Qed.

(** X17: the page has no button for the next problem; without
    auto-advance the right-arrow key is the way on, and its listener is
    the one registered when the answer was typed.  So when the answer to
    the last problem is typed, checked (by the button or by Enter) and
    found correct, and the key then ends the run, the record is written
    with the score from before that answer: the page shows one point more
    than the history keeps. *)
Theorem key_finish_misses_last_answer (pg : Page) (p : Problem)
    (txt : jsstring) (chk : Input) (c0 clk : Clock) :
  let w := world pg in
  running (cells w) = true ->
  current (cells w) = Some p ->
  length (problems (cells w)) = S (index (cells w)) ->
  txt <> answer (cells w) ->
  answer_ok p txt = true ->
  chk = ClickCheck \/ chk = KeyDown (js "Enter") c0 ->
  let pg2 := play [ChangeAnswer txt; chk] pg in
  let pg3 := react (KeyDown (js "ArrowRight") clk) pg2 in
  let rec := make_record (setAnswer txt (cells w)) (Some (js "finished")) clk in
  score (cells (world pg2)) = score (cells w) + 1 /\
  running (cells (world pg3)) = false /\
  score (cells (world pg3)) = score (cells w) + 1 /\
  history (cells (world pg3)) = firstn 50 (rec :: history (cells w)) /\
  stored (world pg3) = Some (JSON_stringify (firstn 50 (rec :: history (cells w)))) /\
  solved rec = score (cells w) /\
  total rec = Z.of_nat (length (problems (cells w))).
Proof.
  intros w R C L N K Chk pg2 pg3 rec.
  set (c1 := setAnswer txt (cells w)).
  set (w1 := update (setAnswer txt) w).
  assert (R1 : running c1 = true) by exact R.
  assert (C1 : current c1 = Some p) by exact C.
  assert (E2 : world pg2 = checkAnswer c1 txt w1 /\ listener pg2 = c1).
  { unfold pg2; cbn [play].
    rewrite (typing_registers pg p txt R C N); fold w w1 c1.
    assert (Q : respond chk (mkPage w1 c1) = checkAnswer c1 txt w1).
    { destruct Chk as [-> | ->]; cbn [respond world listener].
      - unfold panel; change (cells w1) with c1.
        unfold current in C1; rewrite R1, C1; reflexivity.
      - apply onKey_enter. }
    assert (S : starts chk (mkPage w1 c1) = false) by (destruct Chk as [-> | ->]; reflexivity).
    unfold react; rewrite S, Q; cbn [world listener].
    destruct (checkAnswer_quiet c1 txt w1)
      as (_ & Q2 & Q3 & _ & Q5 & Q6 & _ & _ & _ & _ & _ & Q12).
    rewrite commit_same, key_deps_same by assumption.
    split; reflexivity. }
  destruct E2 as [W2 L2].
  pose proof (checkAnswer_cells c1 txt w1 p R1 C1) as Cc; rewrite K in Cc.
  assert (S2 : score (cells (world pg2)) = score (cells w) + 1).
  { rewrite W2, Cc; reflexivity. }
  assert (E3 : respond (KeyDown (js "ArrowRight") clk) pg2 =
               stop c1 (Some (js "finished")) clk
                 (update (setFeedback None) (update (setAnswer []) (world pg2)))).
  { cbn [respond]; rewrite L2, onKey_arrow by exact R1.
    destruct (next_cases c1 clk (world pg2)) as [[G _]|[_ E]]; [|exact E].
    change (index c1) with (index (cells w)) in G.
    change (problems c1) with (problems (cells w)) in G; lia. }
  unfold pg3, react; cbn [world starts]; rewrite E3.
  rewrite (commit_proj running), (commit_proj score), (commit_proj history)
    by reflexivity.
  match goal with |- context [commit false ?o ?x] =>
    destruct (commit_world false o x) as (-> & _)
  end.
  rewrite stop_stored, stop_cells; world_simpl.
  repeat split; try reflexivity.
  - exact S2.
  - exact S2.
  - unfold rec, make_record, length_or; cbn [total].
    change (problems (setAnswer txt (cells w))) with (problems (cells w)).
    rewrite L; reflexivity.
Qed.

Lemma key_finish_misses_last_answer_witness :
  let pg := mount (drill_world [five_plus_seven] false) in
  let w := world pg in
  let pg2 := play [ChangeAnswer (js "12"); ClickCheck] pg in
  let pg3 := react (KeyDown (js "ArrowRight") (sample_clock 9000)) pg2 in
  let rec := make_record (setAnswer (js "12") (cells w)) (Some (js "finished"))
               (sample_clock 9000) in
  score (cells (world pg2)) = score (cells w) + 1 /\
  running (cells (world pg3)) = false /\
  score (cells (world pg3)) = score (cells w) + 1 /\
  history (cells (world pg3)) = firstn 50 (rec :: history (cells w)) /\
  stored (world pg3) = Some (JSON_stringify (firstn 50 (rec :: history (cells w)))) /\
  solved rec = score (cells w) /\
  total rec = Z.of_nat (length (problems (cells w))).
Proof.
  apply (key_finish_misses_last_answer (mount (drill_world [five_plus_seven] false))
           five_plus_seven (js "12") ClickCheck (sample_clock 0) (sample_clock 9000)).
  - reflexivity.
  - reflexivity.
  - reflexivity.
  - discriminate.
  - reflexivity.
  - left; reflexivity.
Defined.

(** X18: the keyboard listener keeps the history of the render that
    registered it, and the history is none of its dependencies.  When the
    history is cleared during the last problem and the right-arrow key
    then ends the run, the new record is put before the history from
    before the clearing: the cleared records are back, in the history and
    in the stored text. *)
Theorem clearing_is_undone (pg : Page) (clk : Clock) :
  listening pg ->
  running (cells (world pg)) = true ->
  history (listener pg) = history (cells (world pg)) ->
  (length (problems (cells (world pg))) <= index (cells (world pg)) + 1)%nat ->
  let pg1 := react ClickClear pg in
  let pg2 := react (KeyDown (js "ArrowRight") clk) pg1 in
  let rec := make_record (listener pg) (Some (js "finished")) clk in
  history (cells (world pg1)) = [] /\
  stored (world pg1) = None /\
  history (cells (world pg2)) = firstn 50 (rec :: history (cells (world pg))) /\
  stored (world pg2) =
    Some (JSON_stringify (firstn 50 (rec :: history (cells (world pg))))).
Proof.
  intros (R & A & X & P) Rc H L pg1 pg2 rec.
  assert (E1 : pg1 = mkPage (removeItem (update (setHistory []) (world pg)))
                       (listener pg)).
  { unfold pg1, react; cbn [respond starts].
    rewrite commit_same, key_deps_same by reflexivity; reflexivity. }
  assert (E2 : respond (KeyDown (js "ArrowRight") clk) pg1 =
               stop (listener pg) (Some (js "finished")) clk
                 (update (setFeedback None) (update (setAnswer []) (world pg1)))).
  { rewrite E1; cbn [respond world listener].
    rewrite onKey_arrow by congruence.
    match goal with |- next ?r ?c ?x = _ =>
      destruct (next_cases r c x) as [[G _]|[_ E]]; [|exact E]
    end.
    rewrite X, P in G; lia. }
  split; [rewrite E1; reflexivity|].
  split; [rewrite E1; reflexivity|].
  unfold pg2, react; cbn [world starts]; rewrite E2.
  rewrite (commit_proj history) by reflexivity.
  match goal with |- context [commit false ?o ?x] =>
    destruct (commit_world false o x) as (-> & _)
  end.
  rewrite stop_stored, stop_cells; world_simpl.
  fold rec; rewrite H; split; reflexivity.
Qed.

Lemma clearing_is_undone_witness :
  let pg := mount (drill_world_with_history [five_plus_seven] false) in
  let pg1 := react ClickClear pg in
  let pg2 := react (KeyDown (js "ArrowRight") (sample_clock 9000)) pg1 in
  let rec := make_record (listener pg) (Some (js "finished")) (sample_clock 9000) in
  (history (cells (world pg)) = [earlier_record] /\
   stored (world pg) = Some (JSON_stringify [earlier_record])) /\
  history (cells (world pg1)) = [] /\
  stored (world pg1) = None /\
  history (cells (world pg2)) = firstn 50 (rec :: history (cells (world pg))) /\
  stored (world pg2) =
    Some (JSON_stringify (firstn 50 (rec :: history (cells (world pg))))).
Proof.
  split; [split; reflexivity|].
  apply (clearing_is_undone (mount (drill_world_with_history [five_plus_seven] false))
           (sample_clock 9000)).
  - apply mount_listening.
  - reflexivity.
  - reflexivity.
  - cbn; lia.
Defined.

(** ** After the time is up *)

(** X19: the interval is not cleared when the time is up.  With
    auto-advance off it goes on ticking: an answer given in the last
    second or after the time is up is scored, but at the next tick the
    feedback is the one for a wrong answer, the seconds shown reach or
    pass the limit, and the interval is still there. *)
Theorem expired_timer_keeps_ticking (w : World) (i : Interval) (p : Problem)
    (txt : jsstring) (clk : Clock) :
  timer_synced w ->
  interval w = Some i ->
  timeLeft i <= 1 ->
  autoNext (cells w) = false ->
  current (cells w) = Some p ->
  let w1 := dispatch (Submit txt) w in
  let w2 := dispatch (Tick clk) w1 in
  feedback (cells w1) = Some (mkFeedback (answer_ok p txt) (Some (a p + b p))) /\
  feedback (cells w2) = Some (mkFeedback false (Some (a p + b p))) /\
  score (cells w2) = score (cells w1) /\
  score (cells w1) = (if answer_ok p txt then score (cells w) + 1 else score (cells w)) /\
  elapsed (cells w2) = elapsed (cells w) + 1 /\
  timePerProblem (cells w) <= elapsed (cells w2) /\
  interval w2 = Some (mkInterval (closure i) (timeLeft i - 1)) /\
  running (cells w2) = true /\ index (cells w2) = index (cells w).
Proof.
  intros S I T A C w1 w2.
  assert (Si : timer_synced w) by exact S.
  unfold timer_synced in Si; rewrite I in Si.
  destruct Si as (S1 & S2 & S3 & S4 & S5 & S6 & S7 & S8 & S9 & S10 & S11).
  pose proof (checkAnswer_cells (cells w) txt w p S1 C) as Cc.
  destruct (checkAnswer_quiet (cells w) txt w)
    as (Q1 & Q2 & Q3 & Q4 & Q5 & Q6 & _ & _ & _ & Q10 & _).
  rewrite <- dispatch_submit in Cc, Q1, Q2, Q3, Q4, Q5, Q6, Q10.
  fold w1 in Cc, Q1, Q2, Q3, Q4, Q5, Q6, Q10.
  assert (E : handle (Tick clk) w1 =
              update (setFeedback (Some (expired_feedback (closure i))))
                (update (fun c => setElapsed (elapsed c + 1) c)
                   (setInterval (Some (mkInterval (closure i) (timeLeft i - 1))) w1))).
  { cbn [handle]; unfold tick; rewrite Q1, I; cbv zeta.
    rewrite S6, A.
    destruct (Z.leb_spec (timeLeft i - 1) 0); [reflexivity | lia]. }
  assert (F : expired_feedback (closure i) = mkFeedback false (Some (a p + b p))).
  { unfold expired_feedback; unfold current in C; rewrite S4, S5, C; reflexivity. }
  assert (W2 : w2 = update (setFeedback (Some (mkFeedback false (Some (a p + b p)))))
                (update (fun c => setElapsed (elapsed c + 1) c)
                   (setInterval (Some (mkInterval (closure i) (timeLeft i - 1))) w1))).
  { unfold w2, dispatch; rewrite E, F; apply commit_same; reflexivity. }
  rewrite W2; world_simpl.
  rewrite Q10, Q2, Q3, S1.
  repeat split; try reflexivity.
  - rewrite Cc; destruct (answer_ok p txt); reflexivity.
  - rewrite Cc; destruct (answer_ok p txt); reflexivity.
  - lia.
Qed.

Lemma expired_timer_keeps_ticking_witness :
  let w := run [Start 1000] (sample_world 2 1 false false) in
  let p := mkProblem 0 3 (js "+") (problem_id 0 3 0) in
  let i := mkInterval (cells (handle (Start 1000) (sample_world 2 1 false false))) 1 in
  let w1 := dispatch (Submit (js "3")) w in
  let w2 := dispatch (Tick (sample_clock 3000)) w1 in
  feedback (cells w1) = Some (mkFeedback (answer_ok p (js "3")) (Some (a p + b p))) /\
  feedback (cells w2) = Some (mkFeedback false (Some (a p + b p))) /\
  score (cells w2) = score (cells w1) /\
  score (cells w1) =
    (if answer_ok p (js "3") then score (cells w) + 1 else score (cells w)) /\
  elapsed (cells w2) = elapsed (cells w) + 1 /\
  timePerProblem (cells w) <= elapsed (cells w2) /\
  interval w2 = Some (mkInterval (closure i) (timeLeft i - 1)) /\
  running (cells w2) = true /\ index (cells w2) = index (cells w).
Proof.
  apply (expired_timer_keeps_ticking
           (run [Start 1000] (sample_world 2 1 false false))
           (mkInterval (cells (handle (Start 1000) (sample_world 2 1 false false))) 1)
           (mkProblem 0 3 (js "+") (problem_id 0 3 0))
           (js "3") (sample_clock 3000)).
  - vm_compute; repeat split.
  - vm_compute; reflexivity.
  - cbn [timeLeft]; lia.
  - vm_compute; reflexivity.
  - vm_compute; reflexivity.
Defined.

(** ** A run without problems *)

Lemma run_frame (es : list Action) (w : World) :
  no_start es = true -> frame w (run es w).
Proof.
  unfold no_start; revert w; induction es as [|e es IH]; intros w N; cbn [run].
  - apply frame_refl.
  - cbn [forallb] in N; apply andb_prop in N; destruct N as [Ne Nes].
    apply (frame_trans _ (dispatch e w)); [|apply IH; exact Nes].
    apply frame_dispatch; intros t ->; discriminate Ne.
Qed.

(** X20: a run started with a count of zero or less has no problems.
    While it runs the page shows the text for a run without problems and
    a check changes nothing; its record carries the count as it was typed
    as [total], a negative count included. *)
Theorem empty_run_record (w0 : World) (t : Z) (es : list Action)
    (why : option jsstring) (clk : Clock) :
  numProblems (cells w0) <= 0 ->
  no_start es = true ->
  let w := run (Start t :: es) w0 in
  let rec := make_record (cells w) why clk in
  problems (cells w) = [] /\
  (running (cells w) = true -> panel (cells w) = NoProblems) /\
  (forall txt, dispatch (Submit txt) w = w) /\
  hd_error (history (cells (dispatch (Stop why clk) w))) = Some rec /\
  total rec = numProblems (cells w0).
Proof.
  intros Z N w rec.
  destruct (dispatch_start w0 t) as (L & _ & _ & _ & _ & C & _).
  destruct (run_frame es (dispatch (Start t) w0) N) as (C' & _ & _ & P' & _).
  change (run es (dispatch (Start t) w0)) with w in C', P'.
  assert (P : problems (cells w) = []).
  { rewrite P'; apply length_zero_iff_nil; rewrite L; lia. }
  split; [exact P|].
  split; [|split; [|split]].
  - intro R; unfold panel; rewrite R, P; cbn [negb].
    destruct (index (cells w)); reflexivity.
  - intro txt; rewrite dispatch_submit; unfold checkAnswer.
    rewrite P; destruct (negb (running (cells w))); [reflexivity|].
    destruct (index (cells w)); reflexivity.
  - destruct (dispatch_stop w why clk) as (_ & _ & _ & H & _); exact H.
  - unfold rec, make_record, length_or; cbn [total].
    rewrite P, C', C; reflexivity.
Qed.

Lemma empty_run_record_witness :
  let w := run (Start 1000 :: [Submit (js "1")]) (sample_world (-3) 0 false false) in
  let rec := make_record (cells w) None (sample_clock 2000) in
  problems (cells w) = [] /\
  (running (cells w) = true -> panel (cells w) = NoProblems) /\
  (forall txt, dispatch (Submit txt) w = w) /\
  hd_error (history (cells (dispatch (Stop None (sample_clock 2000)) w))) = Some rec /\
  total rec = numProblems (cells (sample_world (-3) 0 false false)).
Proof.
  apply (empty_run_record (sample_world (-3) 0 false false) 1000
           [Submit (js "1")] None (sample_clock 2000)).
  - cbn; lia.
  - reflexivity.
Defined.

(** ** The settings and the start button *)

Lemma react_setting (f : Cells -> Cells) (i : Input) (pg : Page) :
  respond i pg = update f (world pg) ->
  starts i pg = false ->
  (forall c, running (f c) = running c /\ index (f c) = index c /\
             timePerProblem (f c) = timePerProblem c /\
             autoNext (f c) = autoNext c /\ answer (f c) = answer c) ->
  react i pg = mkPage (update f (world pg)) (listener pg).
Proof.
  intros E S F; unfold react; rewrite E, S.
  destruct (F (cells (world pg))) as (R & X & T & A & N).
  rewrite commit_same, key_deps_same by assumption; reflexivity.
Qed.

(** X21: the numbers in the settings fields at the moment of the click
    are the ones the run uses: after the bounds and the count are set on
    an idle page, a click on the start button starts a run of that many
    problems with operands within those bounds, at the first problem with
    no points.  While the run is on the start button is disabled and a
    click on it changes nothing. *)
Theorem settings_apply_at_start (pg : Page) (lo hi n t : Z) :
  (forall i, (0 <= entropy (world pg) i)%Q /\ (entropy (world pg) i < 1)%Q) ->
  running (cells (world pg)) = false ->
  lo <= hi ->
  0 <= n ->
  let pg' := play [ChangeMin lo; ChangeMax hi; ChangeCount n; ClickStart t] pg in
  let c := cells (world pg') in
  running c = true /\
  Z.of_nat (length (problems c)) = n /\
  Forall (in_range lo hi) (problems c) /\
  index c = O /\ score c = 0 /\ feedback c = None /\
  listening pg' /\
  (forall t', react (ClickStart t') pg' = pg').
Proof.
  intros U R H N pg' c.
  set (w3 := update (setNumProblems n)
               (update (setMaxOperand hi) (update (setMinOperand lo) (world pg)))).
  assert (E : pg' = react (ClickStart t) (mkPage w3 (listener pg))).
  { unfold pg'; cbn [play].
    rewrite (react_setting (setMinOperand lo) (ChangeMin lo) pg)
      by (intros; try reflexivity; repeat split).
    rewrite (react_setting (setMaxOperand hi) (ChangeMax hi))
      by (intros; try reflexivity; repeat split).
    rewrite (react_setting (setNumProblems n) (ChangeCount n))
      by (intros; try reflexivity; repeat split).
    reflexivity. }
  assert (R3 : running (cells w3) = false) by exact R.
  assert (W : world pg' = commit true (cells w3) (start (cells w3) t w3)).
  { rewrite E; unfold react; cbn [world respond starts]; rewrite R3; reflexivity. }
  assert (Lp : listener pg' = cells (start (cells w3) t w3)).
  { rewrite E; unfold react; cbn [world listener respond starts]; rewrite R3.
    reflexivity. }
  destruct (start_shape (cells w3) t w3) as (P & R' & X & S & F & _).
  assert (Cr : running c = true /\ problems c = problems (cells (start (cells w3) t w3))
               /\ index c = O /\ score c = 0 /\ feedback c = None /\
               answer c = answer (cells (start (cells w3) t w3))).
  { unfold c; rewrite W.
    rewrite (commit_proj running), (commit_proj problems), (commit_proj index),
      (commit_proj score), (commit_proj feedback), (commit_proj answer)
      by reflexivity.
    auto 7. }
  destruct Cr as (Cr & Cp & Cx & Cs & Cf & Ca).
  change (numProblems (cells w3)) with n in P.
  change (minOperand (cells w3)) with lo in P.
  change (maxOperand (cells w3)) with hi in P.
  change (entropy w3) with (entropy (world pg)) in P.
  split; [exact Cr|].
  split; [rewrite Cp, P, makeProblems_length; lia|].
  split.
  { rewrite Cp, P; apply makeProblems_within.
    intro k; apply randInt_range; assumption. }
  split; [exact Cx|]. split; [exact Cs|]. split; [exact Cf|].
  split.
  { unfold listening; fold c; rewrite Lp, R', X, Cr, Cx, Cp, Ca; auto. }
  intro t'; unfold react; cbn [respond starts]; fold c; rewrite Cr.
  cbn [negb]; rewrite commit_same, key_deps_same by reflexivity.
  destruct pg'; reflexivity.
Qed.

Lemma settings_apply_at_start_witness :
  let pg := mount (sample_world 0 0 false false) in
  let pg' := play [ChangeMin 2; ChangeMax 9; ChangeCount 4; ClickStart 1000] pg in
  let c := cells (world pg') in
  running c = true /\
  Z.of_nat (length (problems c)) = 4 /\
  Forall (in_range 2 9) (problems c) /\
  index c = O /\ score c = 0 /\ feedback c = None /\
  listening pg' /\
  (forall t', react (ClickStart t') pg' = pg').
Proof.
  apply (settings_apply_at_start (mount (sample_world 0 0 false false)) 2 9 4 1000).
  - exact sample_entropy_unit.
  - reflexivity.
  - lia.
  - lia.
Defined.

(** * The page and its closures *)

(** ** The interval on the page *)

Lemma timer_effect_tied (w : World) : timer_tied (timer_effect (cells w) w).
Proof.
  unfold timer_effect, timer_tied.
  destruct (running (cells w)) eqn:R; cbn [negb].
  - destruct (Z.ltb_spec 0 (timePerProblem (cells w))); world_simpl.
    + cbn [closure timeLeft]; repeat split; auto; lia.
    + right; lia.
  - world_simpl; left; exact R.
Qed.

Lemma commit_tied (fresh : bool) (old : Cells) (w : World) :
  (deps_changed fresh old (cells w) = false -> timer_tied w) ->
  timer_tied (commit fresh old w).
Proof.
  intro H; unfold commit.
  destruct (deps_changed fresh old (cells w)); [apply timer_effect_tied | auto].
Qed.

Lemma tied_quiet (w w1 : World) :
  interval w1 = interval w ->
  running (cells w1) = running (cells w) ->
  index (cells w1) = index (cells w) ->
  problems (cells w1) = problems (cells w) ->
  autoNext (cells w1) = autoNext (cells w) ->
  timePerProblem (cells w1) = timePerProblem (cells w) ->
  elapsed (cells w1) = elapsed (cells w) ->
  timer_tied w -> timer_tied w1.
Proof.
  unfold timer_tied; intros -> -> -> -> -> -> ->; auto.
Qed.

Lemma tied_idle (w w1 : World) :
  interval w1 = interval w ->
  running (cells w1) = false -> running (cells w) = false ->
  timer_tied w -> timer_tied w1.
Proof.
  unfold timer_tied; intros -> R1 R S.
  destruct (interval w) as [i|]; [|left; exact R1].
  destruct S as (S & _); congruence.
Qed.

Lemma next_tied (r : Cells) (clk : Clock) (w w0 : World) :
  interval w = interval w0 ->
  running (cells w) = running (cells w0) ->
  index (cells w) = index (cells w0) ->
  timer_tied w0 ->
  running (cells (next r clk w)) = running (cells w0) ->
  index (cells (next r clk w)) = index (cells w0) ->
  timer_tied (next r clk w).
Proof.
  intros I R X S R1 X1.
  destruct (next_cases r clk w) as [[_ E]|[_ E]]; rewrite E in *.
  - exfalso; revert X1; world_simpl; rewrite X; lia.
  - apply (tied_idle w0).
    + rewrite <- I; reflexivity.
    + rewrite stop_cells; reflexivity.
    + rewrite <- R1, stop_cells; reflexivity.
    + exact S.
Qed.

Lemma tick_tied (clk : Clock) (w : World) :
  timer_tied w ->
  running (cells (tick clk w)) = running (cells w) ->
  index (cells (tick clk w)) = index (cells w) ->
  timer_tied (tick clk w).
Proof.
  intros S R X; unfold tick in *.
  destruct (interval w) as [i|] eqn:I; [|exact S].
  cbv zeta in *.
  assert (Si : timer_tied w) by exact S.
  unfold timer_tied in Si; rewrite I in Si.
  destruct Si as (S1 & S2 & S3 & S4 & S5 & S6 & S7 & S8).
  set (w1 := update (fun c => setElapsed (elapsed c + 1) c)
               (setInterval (Some (mkInterval (closure i) (timeLeft i - 1))) w)) in *.
  assert (Q : forall w2, interval w2 = interval w1 ->
              running (cells w2) = true -> index (cells w2) = index (cells w) ->
              problems (cells w2) = problems (cells w) ->
              autoNext (cells w2) = autoNext (cells w) ->
              timePerProblem (cells w2) = timePerProblem (cells w) ->
              elapsed (cells w2) = elapsed (cells w) + 1 ->
              timer_tied w2).
  { intros w2 E1 E2 E3 E4 E5 E6 E7; unfold timer_tied.
    rewrite E1; subst w1; world_simpl; cbn [closure timeLeft].
    rewrite E2, E3, E4, E5, E6, E7.
    repeat split; auto; lia. }
  destruct (timeLeft i - 1 <=? 0).
  - destruct (autoNext (closure i)).
    + destruct (next_cases (closure i) clk
                  (update (setFeedback (Some (expired_feedback (closure i)))) w1))
        as [[_ E]|[_ E]]; rewrite E in *.
      * exfalso; revert X; subst w1; world_simpl; lia.
      * exfalso; revert R; rewrite stop_cells; subst w1; world_simpl.
        rewrite S1; discriminate.
    + apply Q; subst w1; world_simpl; auto.
  - apply Q; subst w1; world_simpl; auto.
Qed.

(** What a check leaves alone, whichever render it is called from. *)
Lemma checked_quiet (b : bool) (r : Cells) (txt : jsstring) (w : World) :
  let w2 := if b then checkAnswer r txt w else w in
  interval w2 = interval w /\
  running (cells w2) = running (cells w) /\
  index (cells w2) = index (cells w) /\
  problems (cells w2) = problems (cells w) /\
  autoNext (cells w2) = autoNext (cells w) /\
  timePerProblem (cells w2) = timePerProblem (cells w) /\
  history (cells w2) = history (cells w) /\
  startTime (cells w2) = startTime (cells w) /\
  elapsed (cells w2) = elapsed (cells w) /\
  stored w2 = stored w /\ answer (cells w2) = answer (cells w).
Proof.
  destruct b; cbv zeta; [|repeat split].
  destruct (checkAnswer_quiet r txt w)
    as (Q1 & Q2 & Q3 & Q4 & Q5 & Q6 & _ & Q8 & Q9 & Q10 & Q11 & Q12).
  repeat split; assumption.
Qed.

Lemma respond_tied (i : Input) (pg : Page) :
  timer_tied (world pg) ->
  starts i pg = false ->
  running (cells (respond i pg)) = running (cells (world pg)) ->
  index (cells (respond i pg)) = index (cells (world pg)) ->
  timePerProblem (cells (respond i pg)) = timePerProblem (cells (world pg)) ->
  autoNext (cells (respond i pg)) = autoNext (cells (world pg)) ->
  timer_tied (respond i pg).
Proof.
  intros S F R X T A.
  destruct i; cbn [respond starts] in *;
    try (apply (tied_quiet (world pg)); solve [reflexivity | assumption]).
  - apply negb_false_iff in F; rewrite F; exact S.
  - destruct (running (cells (world pg))) eqn:E; [|exact S].
    rewrite stop_cells in R; discriminate R.
  - destruct (panel (cells (world pg))); exact S.
  - destruct (panel (cells (world pg))); try exact S.
    destruct (checkAnswer_quiet (cells (world pg)) (answer (cells (world pg))) (world pg))
      as (Q1 & Q2 & Q3 & Q4 & Q5 & Q6 & _ & _ & _ & Q10 & _).
    apply (tied_quiet (world pg)); assumption.
  - unfold onKey in *.
    destruct (negb (running (listener pg))); [exact S|].
    cbv zeta in *.
    destruct (checked_quiet (eqb_text key (js "Enter")) (listener pg)
                (answer (listener pg)) (world pg))
      as (Q1 & Q2 & Q3 & Q4 & Q5 & Q6 & _ & _ & Q9 & _).
    destruct (eqb_text key (js "ArrowRight")).
    + apply (next_tied _ _ _ (world pg)); assumption.
    + apply (tied_quiet (world pg)); assumption.
  - apply tick_tied; assumption.
  - unfold fire_timeout in *.
    destruct (timeouts (world pg)) as [|r rest]; [exact S|].
    apply (next_tied r clk _ (world pg)); auto.
Qed.

Lemma react_tied (i : Input) (pg : Page) :
  timer_tied (world pg) -> timer_tied (world (react i pg)).
Proof.
  intro S; unfold react; cbn [world]; apply commit_tied; intro D.
  apply deps_unchanged in D; destruct D as (F & R & X & T & A).
  apply respond_tied; assumption.
Qed.

Lemma play_tied (ins : list Input) (pg : Page) :
  timer_tied (world pg) -> timer_tied (world (play ins pg)).
Proof.
  revert pg; induction ins as [|i ins IH]; intros pg S; cbn [play]; auto.
  apply IH, react_tied, S.
Qed.

(** X5: on the page the interval follows the component through every
    input, the settings fields, the keys and the button that clears the
    history included: after any inputs from the mount, an interval is
    active exactly while the component is running with a time limit, its
    callback closed over the current index, problems and timer settings,
    the seconds shown are those its countdown has lost, and on an idle
    page there is no interval and a tick changes nothing. *)
Theorem timer_follows (ins : list Input) (w : World) :
  let pg := play ins (mount w) in
  timer_tied (world pg) /\
  (running (cells (world pg)) = false ->
   interval (world pg) = None /\ forall clk, react (Second clk) pg = pg).
Proof.
  intro pg.
  assert (S : timer_tied (world pg)).
  { apply play_tied; unfold mount; cbn [world]; apply timer_effect_tied. }
  split; [exact S|].
  intro R.
  assert (I : interval (world pg) = None).
  { unfold timer_tied in S. destruct (interval (world pg)); [|reflexivity].
    destruct S as (S1 & _); congruence. }
  split; [exact I|].
  intro clk; unfold react; cbn [respond starts]; unfold tick; rewrite I.
  rewrite commit_same, key_deps_same by reflexivity.
  destruct pg; reflexivity.
Qed.

(** ** The index on the page *)

Lemma timer_effect_proj {A} (P : Cells -> A) (r : Cells) (w : World) :
  (forall c, P (setElapsed 0 c) = P c) ->
  P (cells (timer_effect r w)) = P (cells w).
Proof.
  intro H; unfold timer_effect.
  destruct (negb (running r)); [reflexivity|].
  destruct (0 <? timePerProblem r); [|reflexivity].
  world_simpl; apply H.
Qed.

Lemma timer_effect_timeouts (r : Cells) (w : World) :
  timeouts (timer_effect r w) = timeouts w.
Proof.
  unfold timer_effect.
  destruct (negb (running r)); [reflexivity|].
  destruct (0 <? timePerProblem r); reflexivity.
Qed.

Lemma next_autoNext (r : Cells) (clk : Clock) (w : World) :
  autoNext (cells (next r clk w)) = autoNext (cells w).
Proof.
  destruct (next_cases r clk w) as [[_ E]|[_ E]]; rewrite E;
    [|rewrite stop_cells]; reflexivity.
Qed.

Lemma respond_manual (i : Input) (pg : Page) :
  manual_page pg ->
  match i with CheckAuto true => false | _ => true end = true ->
  autoNext (cells (respond i pg)) = false /\
  timeouts (respond i pg) = [] /\
  in_batch (cells (respond i pg)).
Proof.
  intros (S & (Lr & La & Lx & Lp) & A & Al & T & B) Ok.
  destruct i; cbn [respond]; try (repeat split; assumption).
  - destruct v; [discriminate Ok | repeat split; assumption].
  - destruct (running (cells (world pg))); [repeat split; assumption|].
    destruct (start_shape (cells (world pg)) time (world pg))
      as (_ & _ & X & _ & _ & _ & A' & _ & _ & _ & T' & _).
    unfold in_batch; rewrite X, A', T'; auto.
  - destruct (running (cells (world pg))); repeat split; assumption.
  - destruct (panel (cells (world pg))); repeat split; assumption.
  - destruct (panel (cells (world pg))); try (repeat split; assumption).
    destruct (checkAnswer_quiet (cells (world pg)) (answer (cells (world pg))) (world pg))
      as (_ & _ & Q3 & Q4 & Q5 & _).
    unfold in_batch in *.
    rewrite checkAnswer_timeouts, Q3, Q4, Q5 by exact A; auto.
  - unfold onKey.
    destruct (negb (running (listener pg))); [repeat split; assumption|].
    cbv zeta.
    destruct (checked_quiet (eqb_text key (js "Enter")) (listener pg)
                (answer (listener pg)) (world pg))
      as (_ & _ & Q3 & Q4 & Q5 & _).
    assert (T2 : timeouts (if eqb_text key (js "Enter")
                           then checkAnswer (listener pg) (answer (listener pg)) (world pg)
                           else world pg) = []).
    { destruct (eqb_text key (js "Enter")); [|exact T].
      rewrite checkAnswer_timeouts by exact Al; exact T. }
    destruct (eqb_text key (js "ArrowRight")).
    + rewrite next_autoNext, next_timeouts.
      split; [congruence|]. split; [exact T2|].
      apply next_in_batch; try congruence.
      unfold in_batch in *; rewrite Q3, Q4; exact B.
    + unfold in_batch in *; rewrite Q3, Q4, Q5; auto.
  - rewrite tick_timeouts.
    unfold tick; destruct (interval (world pg)) as [iv|] eqn:I; [|auto].
    unfold timer_tied in S; rewrite I in S.
    destruct S as (_ & _ & _ & _ & _ & S6 & _).
    cbv zeta; rewrite S6, A.
    destruct (timeLeft iv - 1 <=? 0); world_simpl; auto.
  - unfold fire_timeout; rewrite T; auto.
Qed.

Lemma react_manual (i : Input) (pg : Page) :
  manual_page pg ->
  match i with CheckAuto true => false | _ => true end = true ->
  manual_page (react i pg).
Proof.
  intros M Ok.
  destruct (respond_manual i pg M Ok) as (A1 & T1 & B1).
  destruct M as (S & L & A & Al & T & B).
  unfold manual_page.
  split; [apply react_tied; exact S|].
  split; [apply react_listening; exact L|].
  unfold react, in_batch in *; cbn [world listener].
  rewrite (commit_proj autoNext), (commit_proj index), (commit_proj problems)
    by reflexivity.
  match goal with |- context [commit ?f ?o ?x] =>
    destruct (commit_world f o x) as (_ & -> & _ & _)
  end.
  repeat split; try assumption.
  destruct (key_deps_changed _ _ _); assumption.
Qed.

(** X8: on the page, with the auto-advance box unticked at the mount and
    left unticked, and no delayed call pending at the mount, the index
    never leaves the batch, whatever is typed, clicked or pressed and
    however the timer ticks: the page shows the text for a run without
    problems only when the batch is empty, and otherwise a running page
    shows a problem. *)
Theorem manual_run_in_batch (ins : list Input) (w : World) :
  autoNext (cells w) = false ->
  timeouts w = [] ->
  in_batch (cells w) ->
  auto_stays_off ins = true ->
  let c := cells (world (play ins (mount w))) in
  in_batch c /\
  (panel c = NoProblems <-> running c = true /\ problems c = []).
Proof.
  intros A T B Ok c.
  assert (M : manual_page (mount w)).
  { unfold manual_page, mount; cbn [world listener].
    split; [apply timer_effect_tied|].
    split; [apply mount_listening|].
    unfold in_batch.
    rewrite (timer_effect_proj autoNext), (timer_effect_proj index),
      (timer_effect_proj problems), timer_effect_timeouts by reflexivity.
    auto. }
  assert (J : manual_page (play ins (mount w))).
  { clear c; revert M Ok; generalize (mount w).
    unfold auto_stays_off.
    induction ins as [|i ins IH]; intros pg M Ok; cbn [play]; [exact M|].
    cbn [forallb] in Ok; apply andb_prop in Ok; destruct Ok as [Oi Ois].
    apply IH; [apply react_manual; assumption | exact Ois]. }
  destruct J as (_ & _ & _ & _ & _ & B'); fold c in B'.
  split; [exact B'|].
  unfold panel, in_batch in *.
  destruct (running c); cbn [negb].
  - destruct (nth_error (problems c) (index c)) as [p|] eqn:N.
    + split; [discriminate|].
      intros [_ E]; rewrite E in N; destruct (index c); discriminate.
    + split; [|reflexivity].
      intros _; split; [reflexivity|].
      apply nth_error_None in N.
      destruct B' as [Z|L]; [|lia].
      rewrite Z in N; destruct (problems c); [reflexivity | cbn [length] in N; lia].
  - split; [discriminate | intros [R _]; discriminate].
Qed.

Lemma manual_run_in_batch_witness :
  let w := sample_world 2 5 false false in
  let ins := [ClickStart 1000; ChangeAnswer (js "7"); CheckAuto false;
              KeyDown (js "Enter") (sample_clock 1500);
              KeyDown (js "Enter") (sample_clock 1600);
              KeyDown (js "ArrowRight") (sample_clock 2000);
              Second (sample_clock 3000); Delayed (sample_clock 3100);
              KeyDown (js "ArrowRight") (sample_clock 4000)] in
  let c := cells (world (play ins (mount w))) in
  in_batch c /\
  (panel c = NoProblems <-> running c = true /\ problems c = []).
Proof.
  apply (manual_run_in_batch
           [ClickStart 1000; ChangeAnswer (js "7"); CheckAuto false;
            KeyDown (js "Enter") (sample_clock 1500);
            KeyDown (js "Enter") (sample_clock 1600);
            KeyDown (js "ArrowRight") (sample_clock 2000);
            Second (sample_clock 3000); Delayed (sample_clock 3100);
            KeyDown (js "ArrowRight") (sample_clock 4000)]
           (sample_world 2 5 false false)).
  - reflexivity.
  - reflexivity.
  - left; reflexivity.
  - reflexivity.
Defined.

(** ** Two checks on the page *)

(** A check from a render [r] that agrees with the page on the current
    problem and has auto-advance on: the page stays as it is but for the
    feedback and the score, and one delayed [next] of [r] is added. *)
Lemma react_checked (i : Input) (pg : Page) (r : Cells) (txt : jsstring)
    (p : Problem) :
  respond i pg = checkAnswer r txt (world pg) ->
  starts i pg = false ->
  running r = true -> current r = Some p -> autoNext r = true ->
  let pg1 := react i pg in
  listener pg1 = listener pg /\
  timeouts (world pg1) = timeouts (world pg) ++ [r] /\
  running (cells (world pg1)) = running (cells (world pg)) /\
  index (cells (world pg1)) = index (cells (world pg)) /\
  problems (cells (world pg1)) = problems (cells (world pg)) /\
  autoNext (cells (world pg1)) = autoNext (cells (world pg)) /\
  history (cells (world pg1)) = history (cells (world pg)) /\
  stored (world pg1) = stored (world pg).
Proof.
  intros E F R C A pg1.
  destruct (checkAnswer_quiet r txt (world pg))
    as (_ & Q2 & Q3 & Q4 & Q5 & Q6 & _ & Q8 & _ & _ & Q11 & Q12).
  assert (W : pg1 = mkPage (checkAnswer r txt (world pg)) (listener pg)).
  { unfold pg1, react; rewrite E, F.
    rewrite commit_same, key_deps_same by assumption; reflexivity. }
  rewrite W; cbn [world listener].
  rewrite (checkAnswer_schedules r txt (world pg) p R C A).
  repeat split; assumption.
Qed.

Lemma react_check (chk : Input) (pg : Page) (p : Problem) :
  listening pg ->
  running (cells (world pg)) = true ->
  current (cells (world pg)) = Some p ->
  autoNext (cells (world pg)) = true ->
  autoNext (listener pg) = true ->
  is_check chk = true ->
  let pg1 := react chk pg in
  listener pg1 = listener pg /\
  (exists r, timeouts (world pg1) = timeouts (world pg) ++ [r] /\
             index r = index (cells (world pg)) /\
             problems r = problems (cells (world pg))) /\
  running (cells (world pg1)) = running (cells (world pg)) /\
  index (cells (world pg1)) = index (cells (world pg)) /\
  problems (cells (world pg1)) = problems (cells (world pg)) /\
  autoNext (cells (world pg1)) = autoNext (cells (world pg)) /\
  history (cells (world pg1)) = history (cells (world pg)) /\
  stored (world pg1) = stored (world pg).
Proof.
  intros (Lr & La & Lx & Lp) R C A Al K pg1.
  destruct chk; try discriminate K; cbn [is_check] in K.
  - destruct (react_checked ClickCheck pg (cells (world pg))
                (answer (cells (world pg))) p)
      as (H1 & H2 & H3 & H4 & H5 & H6 & H7 & H8); try assumption; try reflexivity.
    { cbn [respond]; unfold panel; unfold current in C; rewrite R, C; reflexivity. }
    fold pg1 in H1, H2, H3, H4, H5, H6, H7, H8.
    repeat split; try assumption.
    exists (cells (world pg)); auto.
  - apply eqb_text_eq in K; subst key.
    destruct (react_checked (KeyDown (js "Enter") clk) pg (listener pg)
                (answer (listener pg)) p)
      as (H1 & H2 & H3 & H4 & H5 & H6 & H7 & H8); try assumption; try reflexivity.
    { cbn [respond]; apply onKey_enter. }
    { congruence. }
    { unfold current in *; rewrite Lx, Lp; exact C. }
    fold pg1 in H1, H2, H3, H4, H5, H6, H7, H8.
    repeat split; try assumption.
    exists (listener pg); auto.
Qed.

(** X9: with auto-advance on for the page and for its listener, two
    checks, each by the button or by Enter, before the delayed [next] of
    the first has run, move the index on by two: a problem is skipped
    without having been shown, and from the last problem but one the
    running page is left with no problem to show and no record written. *)
Theorem double_check_skips (pg : Page) (p : Problem) (chk1 chk2 : Input)
    (c1 c2 : Clock) :
  listening pg ->
  running (cells (world pg)) = true ->
  autoNext (cells (world pg)) = true ->
  autoNext (listener pg) = true ->
  timeouts (world pg) = [] ->
  current (cells (world pg)) = Some p ->
  (index (cells (world pg)) + 1 < length (problems (cells (world pg))))%nat ->
  is_check chk1 = true ->
  is_check chk2 = true ->
  let w := world pg in
  let w' := world (play [chk1; chk2; Delayed c1; Delayed c2] pg) in
  index (cells w') = (index (cells w) + 2)%nat /\
  running (cells w') = true /\
  timeouts w' = [] /\
  history (cells w') = history (cells w) /\
  stored w' = stored w /\
  (length (problems (cells w)) = (index (cells w) + 2)%nat ->
   panel (cells w') = NoProblems).
Proof.
  intros L R A Al T C Lt K1 K2 w w'.
  unfold w'; cbn [play].
  set (pg1 := react chk1 pg).
  set (pg2 := react chk2 pg1).
  destruct (react_check chk1 pg p L R C A Al K1)
    as (L1 & (r1 & T1 & X1 & P1) & R1 & I1 & Pr1 & A1 & H1 & S1).
  fold pg1 in L1, T1, R1, I1, Pr1, A1, H1, S1.
  assert (Ls1 : listening pg1) by (apply react_listening; exact L).
  assert (C1 : current (cells (world pg1)) = Some p).
  { unfold current in *; rewrite I1, Pr1; exact C. }
  destruct (react_check chk2 pg1 p Ls1)
    as (L2 & (r2 & T2 & X2 & P2) & R2 & I2 & Pr2 & A2 & H2 & S2);
    try congruence.
  fold pg2 in L2, T2, R2, I2, Pr2, A2, H2, S2.
  rewrite T1, T in T2; cbn [app] in T2.
  change (world (react (Delayed c2) (react (Delayed c1) pg2)))
    with (dispatch (Timeout c2) (dispatch (Timeout c1) (world pg2))).
  destruct (timeout_advances r1 [r2] c1 (world pg2) T2)
    as (X3 & T3 & R3 & P3 & _ & H3 & S3).
  { rewrite X1, P1; exact Lt. }
  destruct (timeout_advances r2 [] c2 (dispatch (Timeout c1) (world pg2)) T3)
    as (X4 & T4 & R4 & P4 & _ & H4 & S4).
  { rewrite X2, P2, I1, Pr1; exact Lt. }
  assert (X : index (cells (dispatch (Timeout c2) (dispatch (Timeout c1) (world pg2))))
              = (index (cells w) + 2)%nat).
  { unfold w; lia. }
  subst w.
  split; [exact X|].
  split; [congruence|].
  split; [exact T4|].
  split; [congruence|].
  split; [congruence|].
  intro E; unfold panel.
  rewrite R4, R3, R2, R1, R; cbn [negb].
  rewrite X, P4, P3, Pr2, Pr1.
  rewrite (proj2 (nth_error_None _ _)); [reflexivity | lia].
Qed.

Lemma double_check_skips_witness :
  let pg := mount (drill_world [five_plus_seven; five_plus_seven] true) in
  let w := world pg in
  let w' := world (play [ClickCheck; KeyDown (js "Enter") (sample_clock 1);
                         Delayed (sample_clock 2); Delayed (sample_clock 3)] pg) in
  index (cells w') = (index (cells w) + 2)%nat /\
  running (cells w') = true /\
  timeouts w' = [] /\
  history (cells w') = history (cells w) /\
  stored w' = stored w /\
  (length (problems (cells w)) = (index (cells w) + 2)%nat ->
   panel (cells w') = NoProblems).
Proof.
  apply (double_check_skips
           (mount (drill_world [five_plus_seven; five_plus_seven] true))
           five_plus_seven ClickCheck (KeyDown (js "Enter") (sample_clock 1))
           (sample_clock 2) (sample_clock 3)); try reflexivity.
  - apply mount_listening.
  - cbn; lia.
Defined.

(** ** The duration of a run *)

Lemma update_since (f : Cells -> Cells) (t : Z) (w : World) :
  (forall c, startTime (f c) = startTime c) ->
  world_since t w -> world_since t (update f w).
Proof.
  intros H (S & I & T); unfold world_since; world_simpl.
  rewrite H; auto.
Qed.

Lemma stop_since (r : Cells) (why : option jsstring) (clk : Clock) (t : Z)
    (w : World) :
  world_since t w -> world_since t (stop r why clk w).
Proof.
  intros (S & I & T); unfold world_since; rewrite stop_cells.
  change (interval (stop r why clk w)) with (interval w).
  change (timeouts (stop r why clk w)) with (timeouts w).
  auto.
Qed.

Lemma checkAnswer_since (r : Cells) (txt : jsstring) (t : Z) (w : World) :
  startTime r = Some t ->
  world_since t w -> world_since t (checkAnswer r txt w).
Proof.
  intros Sr (S & I & T); unfold checkAnswer.
  destruct (negb (running r)); [repeat split; assumption|].
  destruct (nth_error (problems r) (index r)) as [p|]; [|repeat split; assumption].
  cbv zeta.
  destruct (match parseInt (trim txt) with Some v => v =? a p + b p | None => false end);
    destruct (autoNext r); unfold world_since; world_simpl;
    repeat split; try assumption;
    apply Forall_app; split; auto.
Qed.

Lemma next_since (r : Cells) (clk : Clock) (t : Z) (w : World) :
  world_since t w -> world_since t (next r clk w).
Proof.
  intro S; destruct (next_cases r clk w) as [[_ E]|[_ E]]; rewrite E.
  - repeat apply update_since; auto.
  - apply stop_since; repeat apply update_since; auto.
Qed.

Lemma tick_since (clk : Clock) (t : Z) (w : World) :
  world_since t w -> world_since t (tick clk w).
Proof.
  intros S; unfold tick.
  destruct (interval w) as [i|] eqn:I; [|exact S].
  cbv zeta.
  assert (S1 : world_since t
                 (update (fun c => setElapsed (elapsed c + 1) c)
                    (setInterval (Some (mkInterval (closure i) (timeLeft i - 1))) w))).
  { destruct S as (S & Iv & T); rewrite I in Iv.
    unfold world_since; world_simpl; cbn [closure]; auto. }
  destruct (timeLeft i - 1 <=? 0); [|exact S1].
  destruct (autoNext (closure i)).
  - apply next_since, update_since; auto.
  - apply update_since; auto.
Qed.

Lemma fire_timeout_since (clk : Clock) (t : Z) (w : World) :
  world_since t w -> world_since t (fire_timeout clk w).
Proof.
  intros S; unfold fire_timeout.
  destruct (timeouts w) as [|r rest] eqn:T; [exact S|].
  apply next_since.
  destruct S as (S & I & F); rewrite T in F.
  unfold world_since; world_simpl.
  repeat split; try assumption.
  inversion F; assumption.
Qed.

Lemma commit_since (fresh : bool) (old : Cells) (t : Z) (w : World) :
  world_since t w -> world_since t (commit fresh old w).
Proof.
  intros (S & I & T); unfold commit.
  destruct (deps_changed fresh old (cells w)); [|repeat split; assumption].
  unfold timer_effect.
  destruct (negb (running (cells w))); [repeat split; assumption|].
  destruct (0 <? timePerProblem (cells w)); repeat split; assumption.
Qed.

Lemma respond_since (i : Input) (t : Z) (pg : Page) :
  since t pg -> is_click_start i = false -> world_since t (respond i pg).
Proof.
  intros (S & L) N.
  destruct i; try discriminate N; cbn [respond];
    try (apply update_since; [reflexivity | exact S]).
  - destruct (running (cells (world pg))); [apply stop_since|]; exact S.
  - destruct (panel (cells (world pg))); exact S.
  - destruct (panel (cells (world pg))); try exact S.
    apply checkAnswer_since; [apply S | exact S].
  - unfold onKey.
    destruct (negb (running (listener pg))); [exact S|].
    cbv zeta.
    assert (S2 : world_since t
                   (if eqb_text key (js "Enter")
                    then checkAnswer (listener pg) (answer (listener pg)) (world pg)
                    else world pg)).
    { destruct (eqb_text key (js "Enter")); [|exact S].
      apply checkAnswer_since; assumption. }
    destruct (eqb_text key (js "ArrowRight")); [apply next_since|]; exact S2.
  - apply tick_since; exact S.
  - apply fire_timeout_since; exact S.
Qed.

Lemma react_since (i : Input) (t : Z) (pg : Page) :
  since t pg -> is_click_start i = false -> since t (react i pg).
Proof.
  intros S N.
  pose proof (respond_since i t pg S N) as S1.
  unfold since, react; cbn [world listener].
  split; [apply commit_since; exact S1|].
  destruct (key_deps_changed _ _ _); [apply S1 | apply S].
Qed.

Lemma play_since (ins : list Input) (t : Z) (pg : Page) :
  since t pg -> no_click_start ins = true -> since t (play ins pg).
Proof.
  unfold no_click_start; revert pg.
  induction ins as [|i ins IH]; intros pg S N; cbn [play]; [exact S|].
  cbn [forallb] in N; apply andb_prop in N; destruct N as [Ni Nis].
  apply negb_true_iff in Ni.
  apply IH; [apply react_since; assumption | exact Nis].
Qed.

(** A click on the start button of an idle page with no delayed call
    pending: every closure of the page is of the new run. *)
Lemma start_since (t : Z) (pg : Page) :
  running (cells (world pg)) = false ->
  timeouts (world pg) = [] ->
  since t (react (ClickStart t) pg).
Proof.
  intros R T.
  set (w1 := start (cells (world pg)) t (world pg)).
  assert (S1 : startTime (cells w1) = Some t /\ timeouts w1 = []).
  { unfold w1, start.
    destruct (makeProblems _ _ _ _ _ _) as [ps n].
    world_simpl; split; [reflexivity | exact T]. }
  destruct S1 as [S1 T1].
  unfold since, react; cbn [respond starts world listener].
  rewrite R; cbn [negb]; fold w1.
  split; [|exact S1].
  unfold commit; cbn [deps_changed orb].
  unfold world_since.
  rewrite (timer_effect_proj startTime), timer_effect_timeouts, T1 by reflexivity.
  split; [exact S1|].
  split; [|constructor].
  unfold timer_effect.
  destruct (negb (running (cells w1))); [exact I|].
  destruct (0 <? timePerProblem (cells w1)); [exact S1 | exact I].
Qed.

Lemma next_record (r : Cells) (clk : Clock) (w : World) :
  history (cells (next r clk w)) = history (cells w) \/
  history (cells (next r clk w)) =
    firstn 50 (make_record r (Some (js "finished")) clk :: history r).
Proof.
  destruct (next_cases r clk w) as [[_ E]|[_ E]]; rewrite E.
  - left; reflexivity.
  - right; rewrite stop_cells; reflexivity.
Qed.

(** The record an input writes, if it writes one, is built by a render
    that holds the start time of the run. *)
Lemma respond_record (i : Input) (t : Z) (pg : Page) (clk : Clock) :
  since t pg ->
  input_clock i = Some clk ->
  history (cells (respond i pg)) = history (cells (world pg)) \/
  exists r why,
    startTime r = Some t /\
    history (cells (respond i pg)) = firstn 50 (make_record r why clk :: history r).
Proof.
  intros ((S & Iv & T) & L) K.
  destruct i; try discriminate K; cbn [input_clock] in K;
    injection K as ->; cbn [respond].
  - destruct (running (cells (world pg))); [|left; reflexivity].
    right; exists (cells (world pg)), (Some (js "user")).
    split; [exact S | rewrite stop_cells; reflexivity].
  - unfold onKey.
    destruct (negb (running (listener pg))); [left; reflexivity|].
    cbv zeta.
    destruct (checked_quiet (eqb_text key (js "Enter")) (listener pg)
                (answer (listener pg)) (world pg))
      as (_ & _ & _ & _ & _ & _ & Q7 & _).
    destruct (eqb_text key (js "ArrowRight")); [|left; exact Q7].
    match goal with |- context [next ?r ?c ?x] =>
      destruct (next_record r c x) as [E|E]; rewrite E
    end.
    + left; exact Q7.
    + right; exists (listener pg), (Some (js "finished")); auto.
  - unfold tick.
    destruct (interval (world pg)) as [iv|]; [|left; reflexivity].
    cbv zeta.
    destruct (timeLeft iv - 1 <=? 0); [|left; reflexivity].
    destruct (autoNext (closure iv)); [|left; reflexivity].
    match goal with |- context [next ?r ?c ?x] =>
      destruct (next_record r c x) as [E|E]; rewrite E
    end.
    + left; reflexivity.
    + right; exists (closure iv), (Some (js "finished")); auto.
  - unfold fire_timeout.
    destruct (timeouts (world pg)) as [|r rest]; [left; reflexivity|].
    match goal with |- context [next ?r ?c ?x] =>
      destruct (next_record r c x) as [E|E]; rewrite E
    end.
    + left; reflexivity.
    + right; exists r, (Some (js "finished")); split; [|reflexivity].
      inversion T; assumption.
Qed.

(** X14: in a run started by a click on an idle page with no delayed
    call pending, every record that is written before the next start, by
    the stop button, by the right-arrow key, by the interval or by a
    delayed [next], carries as [durationSec] the time from that start to
    the clock of the input that writes it, in seconds rounded to the
    nearest whole with halves going up; it is not negative when the clock
    has not gone back. *)
Theorem duration_since_start (pg0 : Page) (t : Z) (ins : list Input)
    (i : Input) (clk : Clock) :
  running (cells (world pg0)) = false ->
  timeouts (world pg0) = [] ->
  t <> 0 ->
  no_click_start ins = true ->
  input_clock i = Some clk ->
  let pg := play (ClickStart t :: ins) pg0 in
  let h := history (cells (world pg)) in
  let h' := history (cells (world (react i pg))) in
  h' = h \/
  exists rec,
    hd_error h' = Some rec /\
    durationSec rec = (now clk - t + 500) / 1000 /\
    (t <= now clk -> 0 <= durationSec rec).
Proof.
  intros R T Z N K pg h h'.
  assert (S : since t pg).
  { unfold pg; cbn [play]; apply play_since; [|exact N].
    apply start_since; assumption. }
  unfold h', react; cbn [world].
  rewrite (commit_proj history) by reflexivity.
  destruct (respond_record i t pg clk S K) as [E|(r & why & Sr & E)].
  - left; exact E.
  - right; exists (make_record r why clk).
    assert (D : durationSec (make_record r why clk) = (now clk - t + 500) / 1000).
    { unfold make_record; cbn [durationSec]; rewrite Sr.
      unfold startTime_or, round_seconds.
      rewrite (proj2 (Z.eqb_neq t 0) Z); reflexivity. }
    split; [rewrite E; reflexivity|].
    split; [exact D|].
    intro Le; rewrite D; apply Z.div_pos; lia.
Qed.

Lemma duration_since_start_witness :
  let pg0 := mount (sample_world 1 0 true false) in
  let pg := play (ClickStart 1000 :: [ChangeAnswer (js "3"); ClickCheck]) pg0 in
  let clk := sample_clock 3600 in
  let h := history (cells (world pg)) in
  let h' := history (cells (world (react (Delayed clk) pg))) in
  (h = [] /\ map durationSec h' = [3]) /\
  (h' = h \/
   exists rec,
     hd_error h' = Some rec /\
     durationSec rec = (now clk - 1000 + 500) / 1000 /\
     (1000 <= now clk -> 0 <= durationSec rec)).
Proof.
  split; [split; vm_compute; reflexivity|].
  apply (duration_since_start (mount (sample_world 1 0 true false)) 1000
           [ChangeAnswer (js "3"); ClickCheck]
           (Delayed (sample_clock 3600)) (sample_clock 3600)).
  - reflexivity.
  - reflexivity.
  - discriminate.
  - reflexivity.
  - reflexivity.
Defined.
